(** * Gang scheduling core and job iteration: a shallow embedding

    This development embeds [internal/scheduler/jobiteration.go] and
    [internal/scheduler/gang_scheduler.go] and proves properties of the
    job iterators and of the gang placement protocol.

    Conventions.
    - A Go [error] is a [string]; the nil error is [None].
    - A Go interface value of type [LegacySchedulerJob] that may be nil is
      an [option LegacySchedulerJob].
    - Mutable objects reached through pointers live in an explicit store. *)

From Stdlib Require Import ZArith.
From Stdlib Require OrderedTypeEx Sorted.
From stdpp Require Import gmap strings list fin_maps.

Local Open Scope string_scope.

(** ** Jobs *)

Definition error := string.

(** Modelled from the spec: the declaration of
    [schedulerobjects.SchedulingKey] is not part of the sources at hand; the
    spec calls it an opaque fingerprint.  It is a number here, and the empty
    key is its zero value. *)
Definition SchedulingKey := N.
Definition EmptySchedulingKey : SchedulingKey := 0%N.

(** Modelled from the spec: the interface [interfaces.LegacySchedulerJob]
    is declared outside the sources at hand; of the job abstraction of the
    spec, these are the capabilities the code uses.  [GetSchedulingKey]
    returns the key and whether the job carries one. *)
Record LegacySchedulerJob := {
  GetId : string;
  GetQueue : string;
  GetSchedulingKey : SchedulingKey * bool
}.

(** * Job iteration *)

Module JobIteration.

(** What [Next] returns: a job or nil, and an error or nil.  The pair
    [(None, None)] is the end marker. *)
Definition NextResult : Type := option LegacySchedulerJob * option error.

Definition end_marker : NextResult := (None, None).

(** ** InMemoryJobIterator *)

Record InMemoryJobIterator := {
  i : nat;
  jobs : list (option LegacySchedulerJob)
}.

(** The constructor copies the slice element by element; the copy of an
    immutable list is the list. *)
Definition NewInMemoryJobIterator (jobs : list (option LegacySchedulerJob))
  : InMemoryJobIterator :=
  {| i := 0; jobs := jobs |}.

Definition InMemoryJobIterator_Next (it : InMemoryJobIterator)
  : NextResult * InMemoryJobIterator :=
  if (length (jobs it) <=? i it)%nat then (end_marker, it)
  else
    let v := default None (jobs it !! i it) in
    ((v, None), {| i := S (i it); jobs := jobs it |}).

(** ** The JobIterator interface

    [JobIterator] is an open interface.  The implementations of this file
    are constructors of their own; any other implementation is a state
    together with its [Next] method. *)
#[warnings="-register-all"]
Inductive JobIterator : Type :=
| ItInMemory (it : InMemoryJobIterator)
| ItOther {St : Type} (st : St) (next : St -> NextResult * St)
| ItMulti (i : nat) (its : list JobIterator).

(** [MultiJobsIterator.Next], over any way [next] of calling [Next] on a
    member.  The function walks to position [i] of [its]; the index it
    returns is the new value of the field [i], the list the members after
    the calls made on them.  Lemma [MultiJobsIterator_Next_unfold] gives it
    in the form of the source. *)
Fixpoint MultiJobsIterator_Next {I : Type} (next : I -> NextResult * I)
    (its : list I) (i : nat) {struct its} : NextResult * nat * list I :=
  match its with
  | [] => (end_marker, i, [])
  | x :: rest =>
      match i with
      | S i' =>
          let '(r, n, rest') := MultiJobsIterator_Next next rest i' in
          (r, S n, x :: rest')
      | O =>
          match next x with
          | ((_, Some err), x') => ((None, Some err), O, x' :: rest)
          | ((None, None), x') =>
              let '(r, n, rest') := MultiJobsIterator_Next next rest O in
              (r, S n, x' :: rest')
          | ((Some v, None), x') => ((Some v, None), O, x' :: rest)
          end
      end
  end.

(** Dynamic dispatch of [Next]. *)
Fixpoint Next (it : JobIterator) : NextResult * JobIterator :=
  match it with
  | ItInMemory m =>
      let '(r, m') := InMemoryJobIterator_Next m in (r, ItInMemory m')
  | ItOther st next =>
      let '(r, st') := next st in (r, ItOther st' next)
  | ItMulti i its =>
      let '(r, i', its') := MultiJobsIterator_Next Next its i in (r, ItMulti i' its')
  end.

Definition NewMultiJobsIterator (its : list JobIterator) : JobIterator :=
  ItMulti 0 its.

(** The results of [n] consecutive calls of [Next]. *)
Fixpoint run (n : nat) (it : JobIterator) : list NextResult :=
  match n with
  | O => []
  | S n' => let '(r, it') := Next it in r :: run n' it'
  end.

(** The state of an in-memory iterator after [n] calls of [Next]. *)
Fixpoint after (n : nat) (it : InMemoryJobIterator) : InMemoryJobIterator :=
  match n with
  | O => it
  | S n' => after n' (snd (InMemoryJobIterator_Next it))
  end.


(** ** QueuedJobsIterator

    The iterator and its loader run concurrently and meet at a buffered
    channel and at a context.  Each is a step function on the state they
    share; an execution is an interleaving of their steps.  Where a
    [select] finds both of its cases ready, Go picks one at random: the
    argument [pick_done] tells whether the context's case is taken. *)

Record JobRepository := {
  GetQueueJobIds : string -> list string * option error;
  GetExistingJobsByIds :
    list string -> list (option LegacySchedulerJob) * option error
}.

(** A buffered channel of jobs. *)
Record Chan := {
  buffer : list LegacySchedulerJob;
  capacity : nat;
  closed : bool
}.

Definition close (ch : Chan) : Chan :=
  {| buffer := buffer ch; capacity := capacity ch; closed := true |}.

(** Where the loader stands: at the top of iteration [i] of its loop over
    the job ids, inside the loop over the jobs of a batch, or returned. *)
Inductive LoaderPc :=
| AtLoop (i : nat) (batch : list string)
| AtSend (i : nat) (batch : list string)
    (jobs : list (option LegacySchedulerJob))
| Returned (err : option error).

(** The iterator with what its loader shares with it.  [it_err], [ctx] and
    [c] are the fields [err], [ctx] and [c] of the iterator: [ctx] is [None]
    until the context is done and then holds [ctx.Err()].  [repo], [jobIds]
    and [loader] are the arguments and the position of the loader. *)
Record QueuedJobs := {
  it_err : option error;
  ctx : option error;
  c : Chan;
  repo : JobRepository;
  jobIds : list string;
  loader : LoaderPc
}.

Definition with_loader (st : QueuedJobs) (ch : Chan) (pc : LoaderPc)
  : QueuedJobs :=
  {| it_err := it_err st; ctx := ctx st; c := ch; repo := repo st;
     jobIds := jobIds st; loader := pc |}.

Definition NewQueuedJobsIterator (ctx : option error) (queue : string)
    (repo : JobRepository) : option QueuedJobs * option error :=
  let batchSize := 16 in
  let '(jobIds, err) := GetQueueJobIds repo queue in
  match err with
  | Some e => (None, Some e)
  | None =>
      (Some {| it_err := None; ctx := ctx;
               c := {| buffer := []; capacity := 2 * batchSize;
                       closed := false |};
               repo := repo; jobIds := jobIds;
               loader := AtLoop 0 (replicate batchSize "") |},
       None)
  end.

(** One step of [queuedJobsIteratorLoader]; [None] when the loader has
    returned or is blocked in its [select].  On every return the deferred
    [close(ch)] runs. *)
Definition queuedJobsIteratorLoader_step (pick_done : bool) (st : QueuedJobs)
  : option QueuedJobs :=
  match loader st with
  | AtLoop i batch =>
      match jobIds st !! i with
      | None => Some (with_loader st (close (c st)) (Returned None))
      | Some jobId =>
          let batch := <[i mod length batch := jobId]> batch in
          if ((i + 1) mod length batch =? 0)%nat
             || (i =? length (jobIds st) - 1)%nat then
            let '(jobs, err) :=
              GetExistingJobsByIds (repo st)
                (take (i mod length batch + 1) batch) in
            match err with
            | Some e =>
                Some (with_loader st (close (c st)) (Returned (Some e)))
            | None => Some (with_loader st (c st) (AtSend i batch jobs))
            end
          else Some (with_loader st (c st) (AtLoop (S i) batch))
      end
  | AtSend i batch [] => Some (with_loader st (c st) (AtLoop (S i) batch))
  | AtSend i batch (None :: jobs) =>
      Some (with_loader st (c st) (AtSend i batch jobs))
  | AtSend i batch (Some job :: jobs) =>
      let send :=
        with_loader st
          {| buffer := buffer (c st) ++ [job]; capacity := capacity (c st);
             closed := closed (c st) |}
          (AtSend i batch jobs) in
      let can_send := (length (buffer (c st)) <? capacity (c st))%nat in
      match ctx st with
      | Some e =>
          if can_send && negb pick_done then Some send
          else Some (with_loader st (close (c st)) (Returned (Some e)))
      | None => if can_send then Some send else None
      end
  | Returned _ => None
  end.

(** The error group behind [armadacontext.ErrGroup] cancels the context it
    derived once the function passed to [Go] has returned a non-nil error,
    that is after the function's deferred calls have run. *)
Definition errgroup_step (st : QueuedJobs) : option QueuedJobs :=
  match loader st, ctx st with
  | Returned (Some _), None =>
      Some {| it_err := it_err st; ctx := Some "context canceled";
              c := c st; repo := repo st; jobIds := jobIds st;
              loader := loader st |}
  | _, _ => None
  end.

(** [QueuedJobsIterator.Next]; [None] when the call blocks. *)
Definition QueuedJobsIterator_Next (pick_done : bool) (st : QueuedJobs)
  : option (NextResult * QueuedJobs) :=
  match it_err st with
  | Some e =>
      (* Once this function has returned error, it will return this error
         on every invocation. *)
      Some ((None, Some e), st)
  | None =>
      let receive :=
        match buffer (c st) with
        | job :: rest =>
            Some ((Some job, None),
                  with_loader st
                    {| buffer := rest; capacity := capacity (c st);
                       closed := closed (c st) |}
                    (loader st))
        | [] => if closed (c st) then Some (end_marker, st) else None
        end in
      match ctx st with
      | Some e =>
          if bool_decide (is_Some receive) && negb pick_done then receive
          else
            Some ((None, Some e),
                  {| it_err := Some e; ctx := ctx st; c := c st;
                     repo := repo st; jobIds := jobIds st;
                     loader := loader st |})
      | None => receive
      end
  end.

(** The two ways of nesting a chain of three pass through the same four
    phases: draining [a], draining [b], draining [c], exhausted. *)
Inductive assoc_sim : JobIterator -> JobIterator -> Prop :=
| sim_a a b c :
    assoc_sim (ItMulti 0 [a; ItMulti 0 [b; c]])
              (ItMulti 0 [ItMulti 0 [a; b]; c])
| sim_b a b c :
    assoc_sim (ItMulti 1 [a; ItMulti 0 [b; c]])
              (ItMulti 0 [ItMulti 1 [a; b]; c])
| sim_c a b c :
    assoc_sim (ItMulti 1 [a; ItMulti 1 [b; c]])
              (ItMulti 1 [ItMulti 2 [a; b]; c])
| sim_end a b c :
    assoc_sim (ItMulti 2 [a; ItMulti 2 [b; c]])
              (ItMulti 2 [ItMulti 2 [a; b]; c]).

(** A repository that lists one job and whose fetches fail. *)
Definition failing_repo : JobRepository :=
  {| GetQueueJobIds := fun _ => (["a"], None);
     GetExistingJobsByIds := fun _ => ([], Some "connection refused") |}.

End JobIteration.


(** * The gang scheduler *)

Module GangScheduler.

(** ** Numbers *)

(** [int32] arithmetic wraps around. *)
Definition wrap32 (z : Z) : Z := ((z + 2 ^ 31) mod 2 ^ 32 - 2 ^ 31)%Z.

(** The [float64] values the search computes are quotients of an [int32]
    by a slice length, and conversions of an [int32].  They are kept as exact
    fractions: for such quotients the IEEE comparisons the code makes ([==]
    against an integer, [<=] between quotients by the same length) agree
    with the exact ones.  The quotient [0/0] of an empty gang is [NaN],
    which compares false with everything. *)
Inductive float64 :=
| NaN
| Ratio (num : Z) (den : positive).

Definition float64_of_int32 (z : Z) : float64 := Ratio z 1.

Definition float64_quot (sum : Z) (n : nat) : float64 :=
  match n with
  | O => NaN
  | S _ => Ratio sum (Pos.of_nat n)
  end.

Definition float64_eqb (x y : float64) : bool :=
  match x, y with
  | Ratio a c, Ratio b d => (a * Z.pos d =? b * Z.pos c)%Z
  | _, _ => false
  end.

Definition float64_leb (x y : float64) : bool :=
  match x, y with
  | Ratio a c, Ratio b d => (a * Z.pos d <=? b * Z.pos c)%Z
  | _, _ => false
  end.

(** ** Data model

    The types of the scheduling context package are declared outside the
    sources at hand.  The records below have the fields the scheduler reads
    and writes, as the spec's data model describes them. *)

(** Modelled from the spec: the PodSchedulingContext of a job scheduling
    context, with [NodeId] (empty when unbound) and
    [ScheduledAtPriority]. *)
Record pod_scheduling_context := {
  NodeId : string;
  ScheduledAtPriority : Z
}.

(** Modelled from the spec: the pod requirements, of which the code
    reads and writes the node selector only; a nil map is [None]. *)
Record pod_requirements := {
  NodeSelector : option (gmap string string)
}.

(** Modelled from the spec: the job scheduling context (JSC). *)
Record JobSchedulingContext := {
  Job : LegacySchedulerJob;
  PodRequirements : pod_requirements;
  PodSchedulingContext : option pod_scheduling_context;
  ShouldFail : bool;
  UnschedulableReason : string
}.

(** Job scheduling contexts are shared by pointer between the gang, the
    node database and the scheduling context.  A pointer is a [jctx_ref],
    and the store gives the current contents behind every pointer. *)
Definition jctx_ref := nat.
Definition Store := jctx_ref -> JobSchedulingContext.

Definition store_update (r : jctx_ref)
    (f : JobSchedulingContext -> JobSchedulingContext) (s : Store) : Store :=
  fun r' => if (r' =? r)%nat then f (s r') else s r'.

(** [for _, jctx := range jctxs { f(jctx) }] *)
Definition for_each_jctx (f : JobSchedulingContext -> JobSchedulingContext)
    (refs : list jctx_ref) (s : Store) : Store :=
  foldl (fun s r => store_update r f s) s refs.

(** Modelled from the spec: the gang scheduling context (GSC); its job
    scheduling contexts are held by pointer. *)
Record GangSchedulingContext := {
  Queue : string;
  JobSchedulingContexts : list jctx_ref;
  NodeUniformityLabel : string;
  AllJobsEvicted : bool
}.

(** Modelled from the spec: [Cardinality()] belongs to the scheduling
    context package; the spec defines it as the number of JSCs. *)
Definition Cardinality (gctx : GangSchedulingContext) : nat :=
  length (JobSchedulingContexts gctx).

(** Modelled from the spec: [IsSuccessful()] belongs to the scheduling
    context package; by the spec a JSC is successful iff its
    PodSchedulingContext is non-null with a non-empty NodeId and its
    UnschedulableReason is empty. *)
Definition IsSuccessful (jctx : JobSchedulingContext) : bool :=
  match PodSchedulingContext jctx with
  | Some pctx =>
      negb (String.eqb (NodeId pctx) "")
      && String.eqb (UnschedulableReason jctx) ""
  | None => false
  end.

(** Modelled from the spec: rate limiters are external token buckets; a
    limiter is the log of the reservations made on it, each with its
    timestamp and its number of tokens. *)
Record RateLimiter := {
  reservations : list (Z * nat)
}.

Definition ReserveN (now : Z) (n : nat) (l : RateLimiter) : RateLimiter :=
  {| reservations := reservations l ++ [(now, n)] |}.

(** Modelled from the spec: the queue's sub-context; [QueueLimiter] is its
    field [Limiter]. *)
Record QueueSchedulingContext := {
  QueueLimiter : RateLimiter
}.

(** Modelled from the spec: the scheduling context, with the fields the
    scheduler reads and writes.  [TrackedJobs] stands for the state behind
    [AddGangSchedulingContext], [EvictJob] and [EvictGang]: the ids of the
    jobs the context accounts for. *)
Record SchedulingContext := {
  Limiter : RateLimiter;
  QueueSchedulingContexts : gmap string QueueSchedulingContext;
  Started : Z;
  UnfeasibleSchedulingKeys : gmap N jctx_ref;
  TrackedJobs : gset string
}.

(** The three results of [Schedule] and of the functions it is made of. *)
Definition Result : Type := bool * string * option error.

Definition res_ok (r : Result) : bool := fst (fst r).
Definition res_reason (r : Result) : string := snd (fst r).
Definition res_err (r : Result) : option error := snd r.

Inductive TxnStatus := TxnOpen | TxnCommitted | TxnAborted.

Section WithNodeState.

(** The contents of the node database are not this component's business. *)
Context {D : Type}.

(** Modelled from the spec: a write transaction of the node database
    holds a snapshot of the contents, on which placements are made, and
    is open until it is committed or aborted. *)
Record Txn := {
  view : D;
  status : TxnStatus
}.

(** Modelled from the spec: the node database, that is its published
    contents and every transaction opened so far; a transaction handle is
    a position in [txns]. *)
Record NodeDb := {
  content : D;
  txns : list Txn
}.

Record World := {
  jctxs : Store;
  sctx : SchedulingContext;
  nodeDb : NodeDb
}.

(** The collaborators of the gang scheduler, whose code is outside the
    sources at hand and which the spec gives by interface only: the
    constraints, the operations of the scheduling context, the node
    database's placement and label index, and the constant [MinPriority].
    They are parameters of the scheduler.  A placement works on the
    transaction's view and on the store of job scheduling contexts; the set
    of label values is given as the list in which [range] visits it. *)
Record Env := {
  CheckRoundConstraints : SchedulingContext -> string -> Result;
  CheckConstraints :
    SchedulingContext -> GangSchedulingContext -> Store -> Result;
  AddGangSchedulingContext :
    SchedulingContext -> GangSchedulingContext -> Store ->
    (bool * option error) * SchedulingContext;
  EvictJob :
    SchedulingContext -> LegacySchedulerJob ->
    (bool * option error) * SchedulingContext;
  EvictGang :
    SchedulingContext -> list LegacySchedulerJob ->
    (bool * option error) * SchedulingContext;
  SchedulingKeyFromLegacySchedulerJob :
    SchedulingContext -> LegacySchedulerJob -> SchedulingKey;
  ScheduleManyWithTxn :
    D -> list jctx_ref -> Store -> (bool * option error) * (D * Store);
  IndexedNodeLabelValues : D -> string -> list string * bool;
  MinPriority : Z
}.

Record GangScheduler := {
  skipUnsuccessfulSchedulingKeyCheck : bool
}.

Definition NewGangScheduler : GangScheduler :=
  {| skipUnsuccessfulSchedulingKeyCheck := false |}.

Definition SkipUnsuccessfulSchedulingKeyCheck (sch : GangScheduler)
  : GangScheduler :=
  {| skipUnsuccessfulSchedulingKeyCheck := true |}.

(** ** The state monad of the scheduler *)

Definition M (A : Type) : Type := World -> A * World.

#[global] Instance M_ret : MRet M := fun A x w => (x, w).
#[global] Instance M_bind : MBind M :=
  fun A B f m w => let '(x, w') := m w in f x w'.

Definition get_jctxs : M Store := fun w => (jctxs w, w).
Definition get_sctx : M SchedulingContext := fun w => (sctx w, w).
Definition put_jctxs (s : Store) : M unit :=
  fun w => (tt, {| jctxs := s; sctx := sctx w; nodeDb := nodeDb w |}).
Definition put_sctx (sc : SchedulingContext) : M unit :=
  fun w => (tt, {| jctxs := jctxs w; sctx := sc; nodeDb := nodeDb w |}).
Definition put_nodeDb (db : NodeDb) : M unit :=
  fun w => (tt, {| jctxs := jctxs w; sctx := sctx w; nodeDb := db |}).

(** ** Transactions of the in-memory database

    [Txn(true)] opens a write transaction on the published contents;
    [Commit] publishes the transaction's view; [Abort] discards it.
    [Commit] and [Abort] do nothing on a transaction that is already
    committed or aborted, which is what lets [tryScheduleGang] defer
    [Abort] and still commit. *)

Definition NodeDb_Txn (writable : bool) : M nat :=
  fun w =>
    let db := nodeDb w in
    let txn := length (txns db) in
    let t := {| view := content db; status := TxnOpen |} in
    (txn, {| jctxs := jctxs w; sctx := sctx w;
             nodeDb := {| content := content db; txns := txns db ++ [t] |} |}).

Definition commit_txn (txn : nat) (db : NodeDb) : NodeDb :=
  match txns db !! txn with
  | Some t =>
      match status t with
      | TxnOpen =>
          {| content := view t;
             txns := <[txn := {| view := view t; status := TxnCommitted |}]>
                       (txns db) |}
      | _ => db
      end
  | None => db
  end.

Definition abort_txn (txn : nat) (db : NodeDb) : NodeDb :=
  match txns db !! txn with
  | Some t =>
      match status t with
      | TxnOpen =>
          {| content := content db;
             txns := <[txn := {| view := view t; status := TxnAborted |}]>
                       (txns db) |}
      | _ => db
      end
  | None => db
  end.

Definition Txn_Commit (txn : nat) : M unit :=
  fun w => put_nodeDb (commit_txn txn (nodeDb w)) w.

Definition Txn_Abort (txn : nat) : M unit :=
  fun w => put_nodeDb (abort_txn txn (nodeDb w)) w.

End WithNodeState.

Arguments Txn : clear implicits.
Arguments NodeDb : clear implicits.
Arguments World : clear implicits.
Arguments Env : clear implicits.
Arguments M : clear implicits.


(** ** The scheduler *)

Section Scheduler.

Context {D : Type} (E : Env D) (sch : GangScheduler).

Definition is_nil (err : option error) : bool :=
  match err with None => true | Some _ => false end.

Definition modify_jctxs (f : Store -> Store) : M D unit :=
  fun w => put_jctxs (f (jctxs w)) w.

Definition set_UnschedulableReason (reason : string)
    (jctx : JobSchedulingContext) : JobSchedulingContext :=
  {| Job := Job jctx;
     PodRequirements := PodRequirements jctx;
     PodSchedulingContext := PodSchedulingContext jctx;
     ShouldFail := ShouldFail jctx;
     UnschedulableReason := reason |}.

Definition clearNodeBindings (jctx : JobSchedulingContext)
  : JobSchedulingContext :=
  match PodSchedulingContext jctx with
  | Some pctx =>
      (* Clear any node bindings on failure to schedule. *)
      {| Job := Job jctx;
         PodRequirements := PodRequirements jctx;
         PodSchedulingContext :=
           Some {| NodeId := "";
                   ScheduledAtPriority := ScheduledAtPriority pctx |};
         ShouldFail := ShouldFail jctx;
         UnschedulableReason := UnschedulableReason jctx |}
  | None => jctx
  end.

(** The scheduling context's operations, run on the world's context. *)
Definition sctx_AddGangSchedulingContext (gctx : GangSchedulingContext)
  : M D (option error) :=
  fun w =>
    let '((_, err), sc) := AddGangSchedulingContext E (sctx w) gctx (jctxs w) in
    (err, snd (put_sctx sc w)).

Definition sctx_EvictJob (job : LegacySchedulerJob) : M D (option error) :=
  fun w =>
    let '((_, err), sc) := EvictJob E (sctx w) job in
    (err, snd (put_sctx sc w)).

Definition sctx_EvictGang (jobs : list LegacySchedulerJob)
  : M D (option error) :=
  fun w =>
    let '((_, err), sc) := EvictGang E (sctx w) jobs in
    (err, snd (put_sctx sc w)).

(** [nodeDb.ScheduleManyWithTxn(txn, jctxs)]: the placement works on the
    transaction's view and on the job scheduling contexts it is handed.
    Handles come from [NodeDb_Txn], so the transaction is always found. *)
Definition nodeDb_ScheduleManyWithTxn (txn : nat) (refs : list jctx_ref)
  : M D (bool * option error) :=
  fun w =>
    let db := nodeDb w in
    match txns db !! txn with
    | Some t =>
        let '(r, (v, s)) := ScheduleManyWithTxn E (view t) refs (jctxs w) in
        (r, {| jctxs := s; sctx := sctx w;
               nodeDb := {| content := content db;
                            txns := <[txn := {| view := v;
                                                status := status t |}]>
                                      (txns db) |} |})
    | None => ((false, Some "transaction not found"), w)
    end.

Fixpoint evict_unsuccessful (refs : list jctx_ref) : M D (option error) :=
  match refs with
  | [] => mret None
  | r :: rest =>
      s ← get_jctxs;
      if negb (IsSuccessful (s r)) then
        err ← sctx_EvictJob (Job (s r));
        match err with
        | Some e => mret (Some e)
        | None => evict_unsuccessful rest
        end
      else evict_unsuccessful rest
  end.

Definition updateGangSchedulingContextOnSuccess
    (gctx : GangSchedulingContext) (gangAddedToSchedulingContext : bool)
  : M D (option error) :=
  if negb gangAddedToSchedulingContext then
    (* Nothing to do. *)
    mret None
  else
    (* Evict any jobs added to the context marked as unsuccessful. *)
    evict_unsuccessful (JobSchedulingContexts gctx).

(** Register unfeasible scheduling keys, for single-job gangs only. *)
Definition register_unfeasible_key (gctx : GangSchedulingContext) : M D unit :=
  if negb (skipUnsuccessfulSchedulingKeyCheck sch)
     && (Cardinality gctx =? 1)%nat then
    match JobSchedulingContexts gctx with
    | r :: _ =>
        s ← get_jctxs;
        sc ← get_sctx;
        let '(key, ok) := GetSchedulingKey (Job (s r)) in
        let schedulingKey :=
          if ok then key
          else SchedulingKeyFromLegacySchedulerJob E sc (Job (s r)) in
        if negb (schedulingKey =? EmptySchedulingKey)%N then
          match UnfeasibleSchedulingKeys sc !! schedulingKey with
          | Some _ => mret tt
          | None =>
              (* Keep the first jctx for each unfeasible schedulingKey. *)
              put_sctx
                {| Limiter := Limiter sc;
                   QueueSchedulingContexts := QueueSchedulingContexts sc;
                   Started := Started sc;
                   UnfeasibleSchedulingKeys :=
                     <[schedulingKey := r]> (UnfeasibleSchedulingKeys sc);
                   TrackedJobs := TrackedJobs sc |}
          end
        else mret tt
    | [] => mret tt
    end
  else mret tt.

Definition updateGangSchedulingContextOnFailure
    (gctx : GangSchedulingContext) (gangAddedToSchedulingContext : bool)
    (unschedulableReason : string) : M D (option error) :=
  (* If the job was added to the context, remove it first. *)
  err ← (if gangAddedToSchedulingContext then
           s ← get_jctxs;
           sctx_EvictGang (map (fun r => Job (s r)) (JobSchedulingContexts gctx))
         else mret None);
  match err with
  | Some e => mret (Some e)
  | None =>
      (* Ensure all jobs have an unschedulableReason. *)
      modify_jctxs
        (for_each_jctx (set_UnschedulableReason unschedulableReason)
           (JobSchedulingContexts gctx));;
      err ← sctx_AddGangSchedulingContext gctx;
      match err with
      | Some e => mret (Some e)
      | None => register_unfeasible_key gctx;; mret None
      end
  end.

Definition fit_reason : string := "job does not fit on any node".
Definition min_cardinality_reason : string :=
  "unable to schedule gang since minimum cardinality not met".

Definition tryScheduleGangWithTxn (txn : nat) (gctx : GangSchedulingContext)
  : M D Result :=
  '(ok, err) ← nodeDb_ScheduleManyWithTxn txn (JobSchedulingContexts gctx);
  match err with
  | None =>
      if negb ok then
        modify_jctxs
          (for_each_jctx clearNodeBindings (JobSchedulingContexts gctx));;
        mret (ok,
              if (1 <? Cardinality gctx)%nat then min_cardinality_reason
              else fit_reason,
              None)
      else
        (* When a gang schedules successfully, update state for failed
           jobs if they exist. *)
        modify_jctxs
          (for_each_jctx
             (fun jctx =>
                if ShouldFail jctx then
                  set_UnschedulableReason fit_reason (clearNodeBindings jctx)
                else jctx)
             (JobSchedulingContexts gctx));;
        mret (ok, "", None)
  | Some _ => mret (ok, "", err)
  end.

Definition tryScheduleGang (gctx : GangSchedulingContext) : M D Result :=
  txn ← NodeDb_Txn true;
  r ← tryScheduleGangWithTxn txn gctx;
  (if res_ok r && is_nil (res_err r) then Txn_Commit txn else mret tt);;
  (* defer txn.Abort() *)
  Txn_Abort txn;;
  mret r.

Definition add_selector (key value : string) (jctx : JobSchedulingContext)
  : JobSchedulingContext :=
  {| Job := Job jctx;
     PodRequirements :=
       {| NodeSelector :=
            Some (<[key := value]>
                    (default ∅ (NodeSelector (PodRequirements jctx)))) |};
     PodSchedulingContext := PodSchedulingContext jctx;
     ShouldFail := ShouldFail jctx;
     UnschedulableReason := UnschedulableReason jctx |}.

Definition addNodeSelectorToGctx (gctx : GangSchedulingContext)
    (nodeSelectorKey nodeSelectorValue : string) : M D unit :=
  modify_jctxs
    (for_each_jctx (add_selector nodeSelectorKey nodeSelectorValue)
       (JobSchedulingContexts gctx)).

(** The sum of the priorities, in [int32], or [None] at the first job
    scheduling context without a PodSchedulingContext. *)
Fixpoint sum_ScheduledAtPriority (s : Store) (refs : list jctx_ref) (sum : Z)
  : option Z :=
  match refs with
  | [] => Some sum
  | r :: rest =>
      match PodSchedulingContext (s r) with
      | None => None
      | Some pctx =>
          sum_ScheduledAtPriority s rest
            (wrap32 (sum + ScheduledAtPriority pctx))
      end
  end.

Definition meanScheduledAtPriorityFromGctx (gctx : GangSchedulingContext)
    (s : Store) : float64 * bool :=
  match sum_ScheduledAtPriority s (JobSchedulingContexts gctx) 0 with
  | None => (float64_of_int32 0, false)
  | Some sum => (float64_quot sum (Cardinality gctx), true)
  end.

(** One iteration of the loop of [trySchedule], for the label value
    [value].  [total] is [len(nodeUniformityLabelValues)] and [i] the
    counter, already incremented.  The iteration either returns from
    [trySchedule] ([inl]) or goes on to the next value with the best value
    and its mean ([inr]). *)
Definition trySchedule_iteration (gctx : GangSchedulingContext) (total : nat)
    (i : nat) (bestValue : string) (minMeanScheduledAtPriority : float64)
    (value : string) : M D (Result + string * float64) :=
  if String.eqb value "" then
    mret (inr (bestValue, minMeanScheduledAtPriority))
  else
    addNodeSelectorToGctx gctx (NodeUniformityLabel gctx) value;;
    txn ← NodeDb_Txn true;
    r ← tryScheduleGangWithTxn txn gctx;
    if negb (is_nil (res_err r)) then
      Txn_Abort txn;; mret (inl r)
    else if res_ok r then
      s ← get_jctxs;
      let '(meanScheduledAtPriority, ok) :=
        meanScheduledAtPriorityFromGctx gctx s in
      if negb ok then
        Txn_Abort txn;; mret (inr (bestValue, minMeanScheduledAtPriority))
      else if float64_eqb meanScheduledAtPriority
                (float64_of_int32 (MinPriority E)) then
        (* Best possible; no need to keep looking. *)
        Txn_Commit txn;; mret (inl (true, "", None))
      else if String.eqb bestValue ""
              || float64_leb meanScheduledAtPriority
                   minMeanScheduledAtPriority then
        if (i =? total)%nat then
          (* Minimal meanScheduledAtPriority and no more options; commit
             and return. *)
          Txn_Commit txn;; mret (inl (true, "", None))
        else
          (* Record the best value seen so far. *)
          Txn_Abort txn;; mret (inr (value, meanScheduledAtPriority))
      else
        Txn_Abort txn;; mret (inr (bestValue, minMeanScheduledAtPriority))
    else
      Txn_Abort txn;; mret (inr (bestValue, minMeanScheduledAtPriority)).

(** The loop of [trySchedule] over the label values still to visit, [i]
    of which have been visited. *)
Fixpoint trySchedule_loop (gctx : GangSchedulingContext) (total : nat)
    (values : list string) (i : nat) (bestValue : string)
    (minMeanScheduledAtPriority : float64)
  : M D (Result + string * float64) :=
  match values with
  | [] => mret (inr (bestValue, minMeanScheduledAtPriority))
  | value :: rest =>
      out ← trySchedule_iteration gctx total (S i) bestValue
              minMeanScheduledAtPriority value;
      match out with
      | inl r => mret (inl r)
      | inr (bestValue, minMeanScheduledAtPriority) =>
          trySchedule_loop gctx total rest (S i) bestValue
            minMeanScheduledAtPriority
      end
  end.

Definition trySchedule (gctx : GangSchedulingContext) : M D Result :=
  (* If no node uniformity constraint, try scheduling across all nodes. *)
  if String.eqb (NodeUniformityLabel gctx) "" then tryScheduleGang gctx
  else
    fun w =>
      let '(nodeUniformityLabelValues, ok) :=
        IndexedNodeLabelValues E (content (nodeDb w))
          (NodeUniformityLabel gctx) in
      if negb ok then
        ((false,
          "uniformity label " +:+ NodeUniformityLabel gctx
            +:+ " is not indexed",
          None), w)
      else if (length nodeUniformityLabelValues =? 0)%nat then
        ((false,
          "no nodes with uniformity label " +:+ NodeUniformityLabel gctx,
          None), w)
      else
        (* Try all possible values of nodeUniformityLabel one at a time
           to find the best fit. *)
        (out ← trySchedule_loop gctx (length nodeUniformityLabelValues)
                 nodeUniformityLabelValues 0 "" (float64_of_int32 0);
         match out with
         | inl r => mret r
         | inr (bestValue, _) =>
             if String.eqb bestValue "" then
               mret (false,
                     "at least one job in the gang does not fit on any node",
                     None)
             else
               addNodeSelectorToGctx gctx (NodeUniformityLabel gctx)
                 bestValue;;
               tryScheduleGang gctx
         end) w.

(** The rate limiters' part of the deferred function of [Schedule]. *)
Definition reserve_limiters (gctx : GangSchedulingContext) : M D unit :=
  sc ← get_sctx;
  let n := Cardinality gctx in
  put_sctx
    {| Limiter := ReserveN (Started sc) n (Limiter sc);
       QueueSchedulingContexts :=
         match QueueSchedulingContexts sc !! Queue gctx with
         | Some qctx =>
             <[Queue gctx :=
                 {| QueueLimiter :=
                      ReserveN (Started sc) n (QueueLimiter qctx) |}]>
               (QueueSchedulingContexts sc)
         | None => QueueSchedulingContexts sc
         end;
       Started := Started sc;
       UnfeasibleSchedulingKeys := UnfeasibleSchedulingKeys sc;
       TrackedJobs := TrackedJobs sc |}.

(** The deferred function of [Schedule], which runs on every return that
    follows its registration, on the named results as they stand. *)
Definition Schedule_deferred (gctx : GangSchedulingContext)
    (gangAddedToSchedulingContext : bool) (r : Result) : M D Result :=
  let '(ok, unschedulableReason, err) := r in
  (* Do nothing if an error occurred. *)
  if negb (is_nil err) then mret r
  else
    (* Update rate-limiters to account for new successfully scheduled
       jobs. *)
    (if ok && negb (AllJobsEvicted gctx) then reserve_limiters gctx
     else mret tt);;
    err ← (if ok then
             updateGangSchedulingContextOnSuccess gctx
               gangAddedToSchedulingContext
           else
             updateGangSchedulingContextOnFailure gctx
               gangAddedToSchedulingContext unschedulableReason);
    mret (ok, unschedulableReason, err).

(** What follows the round gate; [r] holds the named results on entry. *)
Definition Schedule_after_gate (gctx : GangSchedulingContext) (r : Result)
  : M D Result :=
  let '(ok, unschedulableReason, _) := r in
  err ← sctx_AddGangSchedulingContext gctx;
  if negb (is_nil err) then
    Schedule_deferred gctx false (ok, unschedulableReason, err)
  else
    r ← (if negb (AllJobsEvicted gctx) then
           (* Only perform these checks for new jobs. *)
           sc ← get_sctx;
           s ← get_jctxs;
           let r := CheckConstraints E sc gctx s in
           if negb (is_nil (res_err r)) || negb (res_ok r) then mret r
           else trySchedule gctx
         else trySchedule gctx);
    Schedule_deferred gctx true r.

Definition Schedule (gctx : GangSchedulingContext) : M D Result :=
  (* Exit immediately if this is a new gang and we've hit any round
     limits. *)
  if negb (AllJobsEvicted gctx) then
    sc ← get_sctx;
    let r := CheckRoundConstraints E sc (Queue gctx) in
    if negb (is_nil (res_err r)) || negb (res_ok r) then mret r
    else Schedule_after_gate gctx r
  else Schedule_after_gate gctx (false, "", None).


(** ** Notions the properties are stated with *)

(** The round gate turns the gang away. *)
Definition round_gate_rejects (gctx : GangSchedulingContext) (w : World D)
  : bool :=
  negb (AllJobsEvicted gctx)
  && negb (res_ok (CheckRoundConstraints E (sctx w) (Queue gctx))).

(** The attempt the search makes for one label value: the selector is set
    on every job, a transaction is opened and the gang is placed in it. *)
Definition attempt (gctx : GangSchedulingContext) (value : string)
  : M D (nat * Result) :=
  addNodeSelectorToGctx gctx (NodeUniformityLabel gctx) value;;
  txn ← NodeDb_Txn true;
  r ← tryScheduleGangWithTxn txn gctx;
  mret (txn, r).

(** The attempt for [value] places the gang at a mean scheduled-at-priority
    equal to [MinPriority]. *)
Definition yields_MinPriority (gctx : GangSchedulingContext) (value : string)
    (w : World D) : bool :=
  let '((_, r), w') := attempt gctx value w in
  let '(mean, ok) := meanScheduledAtPriorityFromGctx gctx (jctxs w') in
  is_nil (res_err r) && res_ok r && ok
  && float64_eqb mean (float64_of_int32 (MinPriority E)).

(** No transaction opened since the database was [db0] is committed in
    [db], and the published contents are those of [db0]. *)
Definition no_commit_since (db0 db : NodeDb D) : Prop :=
  content db = content db0
  /\ length (txns db0) <= length (txns db)
  /\ forall txn t,
       length (txns db0) <= txn ->
       txns db !! txn = Some t -> status t <> TxnCommitted.

(** The reason and the store [tryScheduleGangWithTxn] leaves, from what
    the placement returned and the store it left. *)
Definition placement_reason (gctx : GangSchedulingContext) (ok : bool)
    (err : option error) : string :=
  match err with
  | Some _ => ""
  | None =>
      if ok then ""
      else if (1 <? Cardinality gctx)%nat then min_cardinality_reason
      else fit_reason
  end.

Definition placement_store (gctx : GangSchedulingContext) (ok : bool)
    (err : option error) (s : Store) : Store :=
  match err with
  | Some _ => s
  | None =>
      if ok then
        for_each_jctx
          (fun jctx =>
             if ShouldFail jctx then
               set_UnschedulableReason fit_reason (clearNodeBindings jctx)
             else jctx)
          (JobSchedulingContexts gctx) s
      else for_each_jctx clearNodeBindings (JobSchedulingContexts gctx) s
  end.

(** The world [w] after a transaction on it: the store is [s], the
    transaction is the last one opened, with view [v] and status [st], and
    the published contents are [c]. *)
Definition after_txn (w : World D) (s : Store) (v : D) (st : TxnStatus)
    (c : D) : World D :=
  {| jctxs := s;
     sctx := sctx w;
     nodeDb := {| content := c;
                  txns := txns (nodeDb w) ++ [{| view := v; status := st |}]
               |} |}.

(** What no placement changes: the scheduling context, and (when a
    placement keeps the job of every job scheduling context) the jobs. *)
Definition placement_frame (w0 w : World D) : Prop :=
  sctx w = sctx w0
  /\ ((forall d refs s r d' s',
         ScheduleManyWithTxn E d refs s = (r, (d', s')) ->
         forall ref, Job (s' ref) = Job (s ref)) ->
      forall ref, Job (jctxs w ref) = Job (jctxs w0 ref)).

(** What a job scheduling context marked to fail looks like in the end. *)
Definition recorded_as_failed (jctx : JobSchedulingContext) : Prop :=
  ShouldFail jctx = true ->
  UnschedulableReason jctx = fit_reason
  /\ forall pctx, PodSchedulingContext jctx = Some pctx -> NodeId pctx = "".

(** What a placement function leaves behind, by its result: the frame in
    any case; after a success the members marked to fail are recorded as
    failed; otherwise nothing was committed. *)
Definition placement_outcome (gctx : GangSchedulingContext)
    (w0 w' : World D) (success : bool) : Prop :=
  placement_frame w0 w'
  /\ if success then
       forall ref, ref ∈ JobSchedulingContexts gctx ->
                   recorded_as_failed (jctxs w' ref)
     else no_commit_since (nodeDb w0) (nodeDb w').

(** The scheduling key of a job: its own, or else the one the scheduling
    context derives for it. *)
Definition derived_scheduling_key (sc : SchedulingContext)
    (job : LegacySchedulerJob) : SchedulingKey :=
  let '(key, ok) := GetSchedulingKey job in
  if ok then key else SchedulingKeyFromLegacySchedulerJob E sc job.

(** How the map of unfeasible keys may change in one call: not at all,
    or by one new entry for the only job scheduling context of the gang. *)
Definition unfeasible_keys_step (gctx : GangSchedulingContext) (s : Store)
    (keys keys' : gmap N jctx_ref) : Prop :=
  keys' = keys
  \/ (skipUnsuccessfulSchedulingKeyCheck sch = false
      /\ exists ref key,
           JobSchedulingContexts gctx = [ref]
           /\ (exists sc, key = derived_scheduling_key sc (Job (s ref)))
           /\ key <> EmptySchedulingKey
           /\ keys !! key = None
           /\ keys' = <[key := ref]> keys).

(** What the deferred function does to the limiters of a context. *)
Definition reserved (gctx : GangSchedulingContext) (sc sc' : SchedulingContext)
  : Prop :=
  Limiter sc' = ReserveN (Started sc) (Cardinality gctx) (Limiter sc)
  /\ forall queue,
       QueueLimiter <$> (QueueSchedulingContexts sc' !! queue) =
       (if String.eqb queue (Queue gctx) then
          ReserveN (Started sc) (Cardinality gctx)
        else id)
       <$> (QueueLimiter <$> (QueueSchedulingContexts sc !! queue)).

Definition not_reserved (sc sc' : SchedulingContext) : Prop :=
  Limiter sc' = Limiter sc
  /\ QueueSchedulingContexts sc' = QueueSchedulingContexts sc.

End Scheduler.


(** ** What the spec says of the collaborators *)

Section Contracts.

Context {D : Type} (E : Env D).

(** The ids of the jobs of a gang. *)
Definition gang_job_ids (gctx : GangSchedulingContext) (s : Store)
  : gset string :=
  list_to_set (map (fun r => GetId (Job (s r))) (JobSchedulingContexts gctx)).

(** The ids of the jobs of a gang that are not successful. *)
Definition unsuccessful_job_ids (gctx : GangSchedulingContext) (s : Store)
  : gset string :=
  list_to_set
    (map (fun r => GetId (Job (s r)))
       (filter (fun r => IsSuccessful (s r) = false)
          (JobSchedulingContexts gctx))).

(** The fields of the scheduling context that its own operations leave
    alone: they change the job accounting only. *)
Definition same_outside_accounting (sc sc' : SchedulingContext) : Prop :=
  Limiter sc' = Limiter sc
  /\ QueueSchedulingContexts sc' = QueueSchedulingContexts sc
  /\ Started sc' = Started sc
  /\ UnfeasibleSchedulingKeys sc' = UnfeasibleSchedulingKeys sc.

Record SctxFrame : Prop := {
  AddGangSchedulingContext_frame :
    forall sc gctx s r sc',
      AddGangSchedulingContext E sc gctx s = (r, sc') ->
      same_outside_accounting sc sc';
  EvictJob_frame :
    forall sc job r sc',
      EvictJob E sc job = (r, sc') -> same_outside_accounting sc sc';
  EvictGang_frame :
    forall sc jobs r sc',
      EvictGang E sc jobs = (r, sc') -> same_outside_accounting sc sc'
}.

(** Modelled from the spec: the bookkeeping contract of the scheduling
    context, whose code is not part of the sources at hand.  Adding a gang
    makes its jobs tracked, and is idempotent; [EvictJob] and [EvictGang]
    reverse this. *)
Record SctxTracking : Prop := {
  AddGangSchedulingContext_tracks :
    forall sc gctx s delta sc',
      AddGangSchedulingContext E sc gctx s = ((delta, None), sc') ->
      TrackedJobs sc' = TrackedJobs sc ∪ gang_job_ids gctx s;
  EvictJob_untracks :
    forall sc job delta sc',
      EvictJob E sc job = ((delta, None), sc') ->
      TrackedJobs sc' = TrackedJobs sc ∖ {[GetId job]};
  EvictGang_untracks :
    forall sc jobs delta sc',
      EvictGang E sc jobs = ((delta, None), sc') ->
      TrackedJobs sc' = TrackedJobs sc ∖ list_to_set (map GetId jobs)
}.

(** A placement attempt does not change which job a job scheduling
    context is for. *)
Definition PlacementKeepsJobs : Prop :=
  forall d refs s r d' s',
    ScheduleManyWithTxn E d refs s = (r, (d', s')) ->
    forall ref, Job (s' ref) = Job (s ref).

End Contracts.

(** ** A small instance of the collaborators

    A node database with one label, [zone]: every node has a zone, a number
    of free slots and the priority at which a pod lands on it.  A job takes
    one slot of the first node its selector accepts. *)

Module Fixture.

Record node := {
  node_id : string;
  zone : string;
  free : nat;
  priority : Z
}.

Definition accepts (sel : option (gmap string string)) (n : node) : bool :=
  match sel with
  | Some m =>
      match m !! "zone" with
      | Some v => String.eqb v (zone n)
      | None => true
      end
  | None => true
  end.

Fixpoint take_slot (sel : option (gmap string string)) (d : list node)
  : option (node * list node) :=
  match d with
  | [] => None
  | n :: rest =>
      if accepts sel n && (0 <? free n)%nat then
        Some (n, {| node_id := node_id n; zone := zone n;
                    free := pred (free n); priority := priority n |} :: rest)
      else
        match take_slot sel rest with
        | Some (m, rest') => Some (m, n :: rest')
        | None => None
        end
  end.

Definition bind_pod (nodeId : string) (prio : Z) (jctx : JobSchedulingContext)
  : JobSchedulingContext :=
  {| Job := Job jctx;
     PodRequirements := PodRequirements jctx;
     PodSchedulingContext :=
       Some {| NodeId := nodeId; ScheduledAtPriority := prio |};
     ShouldFail := ShouldFail jctx;
     UnschedulableReason := UnschedulableReason jctx |}.

Fixpoint place_many (d : list node) (refs : list jctx_ref) (s : Store)
  : bool * (list node * Store) :=
  match refs with
  | [] => (true, (d, s))
  | r :: rest =>
      match take_slot (NodeSelector (PodRequirements (s r))) d with
      | Some (n, d') =>
          place_many d' rest
            (store_update r (bind_pod (node_id n) (priority n)) s)
      | None => (false, (d, s))
      end
  end.

Fixpoint dedup (l : list string) : list string :=
  match l with
  | [] => []
  | x :: rest =>
      if bool_decide (x ∈ rest) then dedup rest else x :: dedup rest
  end.

Definition add_jobs (sc : SchedulingContext) (ids : gset string)
  : SchedulingContext :=
  {| Limiter := Limiter sc;
     QueueSchedulingContexts := QueueSchedulingContexts sc;
     Started := Started sc;
     UnfeasibleSchedulingKeys := UnfeasibleSchedulingKeys sc;
     TrackedJobs := TrackedJobs sc ∪ ids |}.

Definition remove_jobs (sc : SchedulingContext) (ids : gset string)
  : SchedulingContext :=
  {| Limiter := Limiter sc;
     QueueSchedulingContexts := QueueSchedulingContexts sc;
     Started := Started sc;
     UnfeasibleSchedulingKeys := UnfeasibleSchedulingKeys sc;
     TrackedJobs := TrackedJobs sc ∖ ids |}.

(** The round accepts new gangs while fewer than [round_cap] jobs are
    tracked; adding a gang fails for a queue without a sub-context. *)
Definition env (round_cap : nat) : Env (list node) :=
  {| CheckRoundConstraints := fun sc queue =>
       if (size (TrackedJobs sc) <? round_cap)%nat then (true, "", None)
       else (false, "maximum number of jobs scheduled", None);
     CheckConstraints := fun sc gctx s => (true, "", None);
     AddGangSchedulingContext := fun sc gctx s =>
       match QueueSchedulingContexts sc !! Queue gctx with
       | None => ((false, Some "no context for queue"), sc)
       | Some _ =>
           ((negb (bool_decide (gang_job_ids gctx s ⊆ TrackedJobs sc)), None),
            add_jobs sc (gang_job_ids gctx s))
       end;
     EvictJob := fun sc job =>
       ((bool_decide (GetId job ∈ TrackedJobs sc), None),
        remove_jobs sc {[GetId job]});
     EvictGang := fun sc jobs =>
       ((true, None), remove_jobs sc (list_to_set (map GetId jobs)));
     SchedulingKeyFromLegacySchedulerJob := fun sc job =>
       N.of_nat (String.length (GetId job));
     ScheduleManyWithTxn := fun d refs s =>
       let '(ok, out) := place_many d refs s in ((ok, None), out);
     IndexedNodeLabelValues := fun d label =>
       if String.eqb label "zone" then (dedup (map zone d), true)
       else ([], false);
     MinPriority := (-1)%Z |}.

Definition job (id : string) : LegacySchedulerJob :=
  {| GetId := id; GetQueue := "q"; GetSchedulingKey := (7%N, true) |}.

Definition jctx (id : string) (shouldFail : bool) : JobSchedulingContext :=
  {| Job := job id;
     PodRequirements := {| NodeSelector := None |};
     PodSchedulingContext := None;
     ShouldFail := shouldFail;
     UnschedulableReason := "" |}.

(** Pointers 0, 1 and 2 hold the jobs [a], [b] and [c]; [b] is marked to
    fail. *)
Definition store0 : Store :=
  fun r =>
    match r with
    | 0 => jctx "a" false
    | 1 => jctx "b" true
    | _ => jctx "c" false
    end.

Definition sctx0 (queues : list string) : SchedulingContext :=
  {| Limiter := {| reservations := [] |};
     QueueSchedulingContexts :=
       list_to_map
         (map (fun q => (q, {| QueueLimiter := {| reservations := [] |} |}))
            queues);
     Started := 1000;
     UnfeasibleSchedulingKeys := ∅;
     TrackedJobs := ∅ |}.

Definition world0 (queues : list string) (d : list node)
  : World (list node) :=
  {| jctxs := store0;
     sctx := sctx0 queues;
     nodeDb := {| content := d; txns := [] |} |}.

Definition gang (refs : list jctx_ref) (label : string) (evicted : bool)
  : GangSchedulingContext :=
  {| Queue := "q"; JobSchedulingContexts := refs;
     NodeUniformityLabel := label; AllJobsEvicted := evicted |}.

Definition node_in (id z : string) (slots : nat) (prio : Z) : node :=
  {| node_id := id; zone := z; free := slots; priority := prio |}.

End Fixture.

End GangScheduler.

(** * The in-memory job repository *)

Module InMemoryRepository.

Import JobIteration.

Section Repository.

(** Modelled from the spec: [SchedulingOrderCompare] is a method of the job
    abstraction, declared outside the sources at hand; it returns -1, 0 or
    1.  [SortFunc] is [slices.SortFunc] of the Go extension library, which
    sorts a slice in place by a "less" function.  Both are parameters. *)
Context
  (SchedulingOrderCompare :
     LegacySchedulerJob -> LegacySchedulerJob -> Z)
  (SortFunc :
     (LegacySchedulerJob -> LegacySchedulerJob -> bool) ->
     list LegacySchedulerJob -> list LegacySchedulerJob).

(** The mutex of the repository protects its two maps and is left out.
    The jobs held are non-nil: [Enqueue] calls [GetQueue] on its job. *)
Record InMemoryJobRepository := {
  jobsByQueue : gmap string (list LegacySchedulerJob);
  jobsById : gmap string LegacySchedulerJob
}.

Definition NewInMemoryJobRepository : InMemoryJobRepository :=
  {| jobsByQueue := ∅; jobsById := ∅ |}.

(** [repo.jobsByQueue[queue]]: the nil slice for a queue not in the map. *)
Definition queue_jobs (repo : InMemoryJobRepository) (queue : string)
  : list LegacySchedulerJob :=
  default [] (jobsByQueue repo !! queue).

(** The "less" function of [sortQueue]. *)
Definition less (a b : LegacySchedulerJob) : bool :=
  (SchedulingOrderCompare a b =? -1)%Z.

(** The slice is sorted in place: a queue not in the map stays out of it. *)
Definition sortQueue (repo : InMemoryJobRepository) (queue : string)
  : InMemoryJobRepository :=
  match jobsByQueue repo !! queue with
  | Some l =>
      {| jobsByQueue := <[queue := SortFunc less l]> (jobsByQueue repo);
         jobsById := jobsById repo |}
  | None => repo
  end.

(** The two assignments [Enqueue] and [EnqueueMany] make for a job. *)
Definition append_job (repo : InMemoryJobRepository)
    (job : LegacySchedulerJob) : InMemoryJobRepository :=
  let queue := GetQueue job in
  {| jobsByQueue :=
       <[queue := (queue_jobs repo queue ++ [job])%list]> (jobsByQueue repo);
     jobsById := <[GetId job := job]> (jobsById repo) |}.

Definition Enqueue (repo : InMemoryJobRepository) (job : LegacySchedulerJob)
  : InMemoryJobRepository :=
  sortQueue (append_job repo job) (GetQueue job).

(** [updatedQueues] is a set; [range] visits it in some order, here the
    order of [elements]. *)
Definition EnqueueMany (repo : InMemoryJobRepository)
    (jobs : list LegacySchedulerJob) : InMemoryJobRepository :=
  let updatedQueues : gset string := list_to_set (map GetQueue jobs) in
  foldl sortQueue (foldl append_job repo jobs) (elements updatedQueues).

Definition InMemoryJobRepository_GetQueueJobIds
    (repo : InMemoryJobRepository) (queue : string)
  : list string * option error :=
  (map GetId (queue_jobs repo queue), None).

Definition InMemoryJobRepository_GetExistingJobsByIds
    (repo : InMemoryJobRepository) (jobIds : list string)
  : list LegacySchedulerJob * option error :=
  (foldl (fun rv jobId =>
            match jobsById repo !! jobId with
            | Some job => (rv ++ [job])%list
            | None => rv
            end) [] jobIds,
   None).

(** The iterator is built over a clone of the queue's slice. *)
Definition GetJobIterator (repo : InMemoryJobRepository) (queue : string)
  : JobIterator * option error :=
  (ItInMemory (NewInMemoryJobIterator (map Some (queue_jobs repo queue))),
   None).

(** The repository as a [JobRepository]. *)
Definition as_JobRepository (repo : InMemoryJobRepository) : JobRepository :=
  {| GetQueueJobIds := InMemoryJobRepository_GetQueueJobIds repo;
     GetExistingJobsByIds := fun jobIds =>
       let '(jobs, err) :=
         InMemoryJobRepository_GetExistingJobsByIds repo jobIds in
       (map Some jobs, err) |}.

(** The repositories a program can build. *)
Inductive built : InMemoryJobRepository -> Prop :=
| built_new : built NewInMemoryJobRepository
| built_Enqueue repo job : built repo -> built (Enqueue repo job)
| built_EnqueueMany repo jobs : built repo -> built (EnqueueMany repo jobs).

(** Every job of a queue belongs to that queue, and its id is known. *)
Definition consistent (repo : InMemoryJobRepository) : Prop :=
  (forall id job, jobsById repo !! id = Some job -> GetId job = id)
  /\ forall queue job,
       job ∈ queue_jobs repo queue ->
       GetQueue job = queue /\ is_Some (jobsById repo !! GetId job).

(** The contract of the sort: the slice is permuted; and no element comes
    before one it is less than. *)
Definition sort_permutes : Prop :=
  forall f l, SortFunc f l ≡ₚ l.



End Repository.

(** A sort and an order to run the repository with: insertion sort, and
    jobs ordered by id. *)
Fixpoint insert_sorted (f : LegacySchedulerJob -> LegacySchedulerJob -> bool)
    (x : LegacySchedulerJob) (l : list LegacySchedulerJob)
  : list LegacySchedulerJob :=
  match l with
  | [] => [x]
  | y :: rest => if f y x then y :: insert_sorted f x rest else x :: l
  end.

Definition insertion_sort
    (f : LegacySchedulerJob -> LegacySchedulerJob -> bool)
    (l : list LegacySchedulerJob) : list LegacySchedulerJob :=
  foldr (insert_sorted f) [] l.

Definition compare_by_id (a b : LegacySchedulerJob) : Z :=
  match OrderedTypeEx.String_as_OT.cmp (GetId a) (GetId b) with
  | Lt => (-1)%Z
  | Eq => 0%Z
  | Gt => 1%Z
  end.

Definition job_in (queue id : string) : LegacySchedulerJob :=
  {| GetId := id; GetQueue := queue; GetSchedulingKey := (0%N, false) |}.

End InMemoryRepository.

(** * Notions for further properties *)

Module MoreNotions.

Import JobIteration GangScheduler.

(** The executions of a queued iterator: steps of the loader, of the error
    group, a cancellation of the context from outside and calls of [Next],
    in any order. *)
Inductive queued_step : QueuedJobs -> QueuedJobs -> Prop :=
| step_loader pick st st' :
    queuedJobsIteratorLoader_step pick st = Some st' -> queued_step st st'
| step_errgroup st st' :
    errgroup_step st = Some st' -> queued_step st st'
| step_cancel e st :
    ctx st = None ->
    queued_step st
      {| it_err := it_err st; ctx := Some e; c := c st; repo := repo st;
         jobIds := jobIds st; loader := loader st |}
| step_Next pick st r st' :
    QueuedJobsIterator_Next pick st = Some (r, st') -> queued_step st st'.

Inductive queued_reach (st0 : QueuedJobs) : QueuedJobs -> Prop :=
| reach_refl : queued_reach st0 st0
| reach_step st st' :
    queued_reach st0 st -> queued_step st st' -> queued_reach st0 st'.

(** A chain of in-memory iterators over non-nil jobs: each member is given
    by its position and its jobs; the jobs the chain has still to return
    from position [i] on. *)
Definition in_memory_at (m : nat * list LegacySchedulerJob) : JobIterator :=
  ItInMemory {| i := fst m; jobs := map Some (snd m) |}.

Definition remaining_jobs (i : nat) (ms : list (nat * list LegacySchedulerJob))
  : list LegacySchedulerJob :=
  concat (map (fun m => drop (fst m) (snd m)) (drop i ms)).

(** The ids the loader hands to the repository at iteration [i]: the ids
    from the last multiple of the batch size up to [i]. *)
Definition batch_window (batchSize : nat) (jobIds : list string) (i : nat)
  : list string :=
  take (i mod batchSize + 1) (drop (i - i mod batchSize) jobIds).

(** The batch array holds the ids of the current window read so far. *)
Definition loader_batch_ok (st : QueuedJobs) : Prop :=
  match loader st with
  | AtLoop i batch =>
      length batch = 16
      /\ forall k, (k < i mod 16)%nat ->
                   batch !! k = jobIds st !! (i - i mod 16 + k)
  | AtSend i batch _ =>
      length batch = 16
      /\ forall k, (k < S i mod 16)%nat ->
                   batch !! k = jobIds st !! (S i - S i mod 16 + k)
  | Returned _ => True
  end.

(** What every execution keeps: the capacity of the channel and the bound
    on its buffer; the field [err] holds the context's error when it holds
    one; the channel is closed exactly when the loader has returned; the
    batch array is in step with the job ids. *)
Definition queued_inv (st : QueuedJobs) : Prop :=
  capacity (c st) = 32
  /\ length (buffer (c st)) <= 32
  /\ (forall e, it_err st = Some e -> ctx st = Some e)
  /\ (closed (c st) = true <-> exists e, loader st = Returned e)
  /\ loader_batch_ok st.

Section Gang.

Context {D : Type} (E : Env D).

(** Since the database was [db0], transactions were opened and all of them
    aborted; nothing was published. *)
Definition all_aborted_since (db0 db : NodeDb D) : Prop :=
  content db = content db0
  /\ exists new,
       txns db = (txns db0 ++ new)%list
       /\ Forall (fun t => status t = TxnAborted) new.

(** Since the database was [db0], transactions were opened; the last one
    is committed and its view published, the others are aborted. *)
Definition committed_last_since (db0 db : NodeDb D) : Prop :=
  exists aborted t,
    txns db = (txns db0 ++ aborted ++ [t])%list
    /\ Forall (fun t => status t = TxnAborted) aborted
    /\ status t = TxnCommitted
    /\ content db = view t.

(** A placement does not change the pod requirements of a job scheduling
    context. *)
Definition PlacementKeepsRequirements : Prop :=
  forall d refs s r d' s',
    ScheduleManyWithTxn E d refs s = (r, (d', s')) ->
    forall ref, PodRequirements (s' ref) = PodRequirements (s ref).

(** Every job scheduling context of the gang selects [value] for
    [label]. *)
Definition selects (gctx : GangSchedulingContext) (label value : string)
    (s : Store) : Prop :=
  forall ref,
    ref ∈ JobSchedulingContexts gctx ->
    NodeSelector (PodRequirements (s ref)) ≫= (.!! label) = Some value.

(** A placement changes no job scheduling context but those it is
    handed. *)
Definition PlacementLocal : Prop :=
  forall d refs s r d' s',
    ScheduleManyWithTxn E d refs s = (r, (d', s')) ->
    forall ref, ref ∉ refs -> s' ref = s ref.

(** The contents [d'] come from a placement of the gang on the contents
    [d] that succeeded, made while every job scheduling context of the gang
    selected [value] for the uniformity label; [s'] is the store the
    attempt left. *)
Definition placed_with (gctx : GangSchedulingContext) (value : string)
    (d d' : D) (s' : Store) : Prop :=
  exists s0 s,
    selects gctx (NodeUniformityLabel gctx) value s0
    /\ ScheduleManyWithTxn E d (JobSchedulingContexts gctx) s0
       = ((true, None), (d', s))
    /\ s' = placement_store gctx true None s.

(** The collaborators with other constraints. *)
Definition with_constraints
    (checkRound : SchedulingContext -> string -> Result)
    (check : SchedulingContext -> GangSchedulingContext -> Store -> Result)
  : Env D :=
  {| CheckRoundConstraints := checkRound;
     CheckConstraints := check;
     AddGangSchedulingContext := AddGangSchedulingContext E;
     EvictJob := EvictJob E;
     EvictGang := EvictGang E;
     SchedulingKeyFromLegacySchedulerJob :=
       SchedulingKeyFromLegacySchedulerJob E;
     ScheduleManyWithTxn := ScheduleManyWithTxn E;
     IndexedNodeLabelValues := IndexedNodeLabelValues E;
     MinPriority := MinPriority E |}.

End Gang.

End MoreNotions.

(** * Properties of the job iterators *)

Module JobIterationFacts.

Import JobIteration.

(** ** InMemoryJobIterator *)

Lemma InMemoryJobIterator_Next_exhausted (it : InMemoryJobIterator) :
  length (jobs it) <= i it ->
  InMemoryJobIterator_Next it = (end_marker, it).
Proof.
  intros Hle. unfold InMemoryJobIterator_Next.
  destruct (Nat.leb_spec (length (jobs it)) (i it)); [reflexivity | lia].
Qed.

Lemma InMemoryJobIterator_Next_in_range (it : InMemoryJobIterator) :
  i it < length (jobs it) ->
  InMemoryJobIterator_Next it =
    ((default None (jobs it !! i it), None),
     {| i := S (i it); jobs := jobs it |}).
Proof.
  intros Hlt. unfold InMemoryJobIterator_Next.
  destruct (Nat.leb_spec (length (jobs it)) (i it)); [lia | reflexivity].
Qed.

Lemma InMemoryJobIterator_Next_no_error (it : InMemoryJobIterator) :
  snd (fst (InMemoryJobIterator_Next it)) = None.
Proof.
  unfold InMemoryJobIterator_Next.
  destruct (length (jobs it) <=? i it)%nat; reflexivity.
Qed.

Lemma after_exhausted (n : nat) (it : InMemoryJobIterator) :
  length (jobs it) <= i it -> after n it = it.
Proof.
  induction n as [|n IH]; intros Hle; cbn [after]; [reflexivity |].
  rewrite InMemoryJobIterator_Next_exhausted by assumption.
  cbn [snd]. apply IH, Hle.
Qed.

Lemma after_add (n k : nat) (it : InMemoryJobIterator) :
  after (n + k) it = after k (after n it).
Proof.
  revert it. induction n as [|n IH]; intros it; cbn [after Nat.add].
  - reflexivity.
  - apply IH.
Qed.

Lemma after_jobs (n : nat) (it : InMemoryJobIterator) :
  jobs (after n it) = jobs it.
Proof.
  revert it. induction n as [|n IH]; intros it; cbn [after]; [reflexivity |].
  rewrite IH. unfold InMemoryJobIterator_Next.
  destruct (length (jobs it) <=? i it)%nat; reflexivity.
Qed.

(** Without a nil job in the slice, the end marker means that the slice
    is exhausted. *)
Lemma end_marker_exhausted (it : InMemoryJobIterator) :
  None ∉ jobs it ->
  fst (InMemoryJobIterator_Next it) = end_marker ->
  length (jobs it) <= i it.
Proof.
  intros Hnil Hend.
  destruct (Nat.le_gt_cases (length (jobs it)) (i it)) as [Hle | Hlt];
    [assumption | exfalso].
  rewrite InMemoryJobIterator_Next_in_range in Hend by assumption.
  cbn [fst] in Hend.
  destruct (lookup_lt_is_Some_2 (jobs it) (i it) Hlt) as [v Hv].
  rewrite Hv in Hend. cbn in Hend.
  apply Hnil. apply list_elem_of_lookup. exists (i it).
  unfold end_marker in Hend. injection Hend as ->. exact Hv.
Qed.

(** C10, the claim as stated fails: over the slice [[nil; a]] the first
    call returns the end marker and the second call returns the job
    [a]. *)
Lemma InMemoryJobIterator_end_marker_then_job :
  let a := {| GetId := "a"; GetQueue := "q";
              GetSchedulingKey := (0%N, false) |} in
  let it0 := NewInMemoryJobIterator [None; Some a] in
  let '(r1, it1) := InMemoryJobIterator_Next it0 in
  let '(r2, _) := InMemoryJobIterator_Next it1 in
  r1 = end_marker /\ r2 = (Some a, None).
Proof. cbn. split; reflexivity. Qed.

(** C10 (amended): for every InMemoryJobIterator, [Next] never returns a
    non-null error; and when the slice holds no nil job, once [Next] has
    returned the end marker every later call returns the end marker. *)
Theorem InMemoryJobIterator_Next_end_sticky (it : InMemoryJobIterator) :
  (forall n, snd (fst (InMemoryJobIterator_Next (after n it))) = None)
  /\ (None ∉ jobs it ->
      forall n m,
        fst (InMemoryJobIterator_Next (after n it)) = end_marker ->
        n <= m ->
        fst (InMemoryJobIterator_Next (after m it)) = end_marker).
Proof.
  split.
  - intros n. apply InMemoryJobIterator_Next_no_error.
  - intros Hnil n m Hend Hnm.
    assert (Hle : length (jobs (after n it)) <= i (after n it)).
    { apply end_marker_exhausted; [| assumption].
      rewrite after_jobs. assumption. }
    replace m with (n + (m - n)) by lia.
    rewrite after_add, (after_exhausted _ _ Hle). assumption.
Qed.

Lemma InMemoryJobIterator_Next_end_sticky_witness :
  let a := {| GetId := "a"; GetQueue := "q";
              GetSchedulingKey := (0%N, false) |} in
  let it0 := NewInMemoryJobIterator [Some a] in
  fst (InMemoryJobIterator_Next (after 3 it0)) = end_marker.
Proof.
  intros a it0.
  refine (proj2 (InMemoryJobIterator_Next_end_sticky it0) _ 1 3 _ _).
  - intros Hin. apply list_elem_of_In in Hin. cbn in Hin.
    destruct Hin as [Hin | []]. discriminate Hin.
  - reflexivity.
  - lia.
Defined.

(** ** MultiJobsIterator *)

(** [MultiJobsIterator_Next] in the form of the source: the end marker
    at or past the end of [its]; otherwise one call on the member at [i],
    and then the error returned, or the job returned, or the field [i]
    advanced and [Next] called again. *)
Lemma MultiJobsIterator_Next_unfold {I : Type} (next : I -> NextResult * I)
    (its : list I) (i : nat) :
  MultiJobsIterator_Next next its i =
  match its !! i with
  | None => (end_marker, i, its)
  | Some x =>
      match next x with
      | ((_, Some err), x') => ((None, Some err), i, <[i:=x']> its)
      | ((None, None), x') => MultiJobsIterator_Next next (<[i:=x']> its) (S i)
      | ((Some v, None), x') => ((Some v, None), i, <[i:=x']> its)
      end
  end.
Proof.
  revert i. induction its as [|x rest IH]; intros i.
  - reflexivity.
  - destruct i as [|i'].
    + cbn [MultiJobsIterator_Next lookup list_lookup insert list_insert].
      destruct (next x) as [[[v|] [e|]] x']; reflexivity.
    + cbn [MultiJobsIterator_Next]. rewrite IH.
      change ((x :: rest) !! S i') with (rest !! i').
      destruct (rest !! i') as [y|]; [| reflexivity].
      change (<[S i':=?z]> (x :: rest)) with (x :: <[i':=z]> rest).
      destruct (next y) as [[[v|] [e|]] y']; reflexivity.
Qed.

Lemma Next_ItMulti (i : nat) (its : list JobIterator) :
  Next (ItMulti i its) =
  match its !! i with
  | None => (end_marker, ItMulti i its)
  | Some x =>
      match Next x with
      | ((_, Some err), x') => ((None, Some err), ItMulti i (<[i:=x']> its))
      | ((None, None), x') => Next (ItMulti (S i) (<[i:=x']> its))
      | ((Some v, None), x') => ((Some v, None), ItMulti i (<[i:=x']> its))
      end
  end.
Proof.
  change (Next (ItMulti i its))
    with (let '(r, i', its') := MultiJobsIterator_Next Next its i in (r, ItMulti i' its')).
  rewrite MultiJobsIterator_Next_unfold.
  destruct (its !! i) as [x|]; [| reflexivity].
  destruct (Next x) as [[[v|] [e|]] x']; reflexivity.
Qed.

#[local] Hint Constructors assoc_sim : core.

Ltac case_Next :=
  repeat match goal with
    | |- context [Next ?x] =>
        is_var x; destruct (Next x) as [[[?|] [?|]] ?];
        cbn [Next MultiJobsIterator_Next fst snd end_marker]
    end.

Lemma assoc_sim_step (l r : JobIterator) :
  assoc_sim l r ->
  fst (Next l) = fst (Next r) /\ assoc_sim (snd (Next l)) (snd (Next r)).
Proof.
  intros [a b c | a b c | a b c | a b c];
    cbn [Next MultiJobsIterator_Next fst snd end_marker]; case_Next; split; auto.
Qed.

Lemma assoc_sim_run (n : nat) (l r : JobIterator) :
  assoc_sim l r -> run n l = run n r.
Proof.
  revert l r. induction n as [|n IH]; intros l r Hsim; cbn [run].
  - reflexivity.
  - destruct (assoc_sim_step l r Hsim) as [Hres Hnext].
    destruct (Next l) as [rl l'], (Next r) as [rr r'].
    cbn [fst snd] in Hres, Hnext. subst rr. f_equal. apply IH, Hnext.
Qed.

(** C9: chaining job iterators is associative: for all iterators [a], [b]
    and [c], the chain of [a] with the chain of [b] and [c] yields the same
    sequence of [Next] results (jobs, end markers and errors, in order) as
    the chain of the chain of [a] and [b] with [c]. *)
Theorem NewMultiJobsIterator_assoc (a b c : JobIterator) (n : nat) :
  run n (NewMultiJobsIterator [a; NewMultiJobsIterator [b; c]]) =
  run n (NewMultiJobsIterator [NewMultiJobsIterator [a; b]; c]).
Proof. apply assoc_sim_run. constructor. Qed.


(** ** QueuedJobsIterator *)

(** Receiving from the channel never yields an error; an error comes from
    the field [err] or from the context, and is then stored in the
    field. *)
Lemma QueuedJobsIterator_Next_error_stored (pick : bool) (st st' : QueuedJobs)
    (j : option LegacySchedulerJob) (e : error) :
  QueuedJobsIterator_Next pick st = Some ((j, Some e), st') ->
  j = None /\ it_err st' = Some e.
Proof.
  unfold QueuedJobsIterator_Next. intros H.
  destruct (it_err st) as [e0|] eqn:Herr.
  - injection H as <- <- <-. auto.
  - destruct (ctx st) as [e1|].
    + destruct (buffer (c st)) as [|job rest]; [destruct (closed (c st)) |];
        cbn in H; destruct pick; cbn in H;
        try discriminate H; try (injection H as <- <- <-; auto).
    + destruct (buffer (c st)) as [|job rest]; [destruct (closed (c st)) |];
        discriminate H.
Qed.

(** Once [Next] has returned a non-null error, every later call returns
    that error. *)
Lemma QueuedJobsIterator_Next_error_sticky (pick pick' : bool)
    (st st' : QueuedJobs) (j : option LegacySchedulerJob) (e : error) :
  QueuedJobsIterator_Next pick st = Some ((j, Some e), st') ->
  QueuedJobsIterator_Next pick' st' = Some ((None, Some e), st').
Proof.
  intros H. apply QueuedJobsIterator_Next_error_stored in H as [_ Herr].
  unfold QueuedJobsIterator_Next. rewrite Herr. reflexivity.
Qed.

(** C3, where the code departs from the claim: the repository lists the
    job [a] and its fetch fails.  The loader's first step makes the fetch,
    closes the channel and returns the error.  A call of [Next] made then
    returns the end marker whatever the [select] picks, and so does a call
    made after the error group has cancelled the context when the [select]
    picks the closed channel. *)
Theorem QueuedJobsIterator_loader_error_lost :
  exists st0 st1 st2,
    NewQueuedJobsIterator None "q" failing_repo = (Some st0, None)
    /\ queuedJobsIteratorLoader_step false st0 = Some st1
    /\ loader st1 = Returned (Some "connection refused")
    /\ (forall pick,
          QueuedJobsIterator_Next pick st1 = Some (end_marker, st1))
    /\ errgroup_step st1 = Some st2
    /\ QueuedJobsIterator_Next false st2 = Some (end_marker, st2).
Proof.
  eexists _, _, _.
  split; [reflexivity |]. split; [reflexivity |]. split; [reflexivity |].
  split; [intros []; reflexivity |]. split; reflexivity.
Qed.

(** ** The iterators on small inputs *)

Example InMemoryJobIterator_run :
  let a := {| GetId := "a"; GetQueue := "q";
              GetSchedulingKey := (0%N, false) |} in
  let b := {| GetId := "b"; GetQueue := "q";
              GetSchedulingKey := (0%N, false) |} in
  run 4 (ItInMemory (NewInMemoryJobIterator [Some a; Some b]))
  = [(Some a, None); (Some b, None); end_marker; end_marker].
Proof. reflexivity. Qed.

(** A chain drains its members in order, and stays on a member that
    returns an error. *)
Example MultiJobsIterator_run :
  let a := {| GetId := "a"; GetQueue := "q";
              GetSchedulingKey := (0%N, false) |} in
  let b := {| GetId := "b"; GetQueue := "q";
              GetSchedulingKey := (0%N, false) |} in
  let failing :=
    ItOther 0 (fun n => match n with
                        | 0 => ((None, Some "boom"), 1)
                        | _ => (end_marker, n)
                        end) in
  run 5 (NewMultiJobsIterator
           [ItInMemory (NewInMemoryJobIterator [Some a]); failing;
            ItInMemory (NewInMemoryJobIterator [Some b])])
  = [(Some a, None); (None, Some "boom"); (Some b, None); end_marker;
     end_marker].
Proof. reflexivity. Qed.

(** With a repository that answers, the loader fills the channel and the
    iterator yields the job and then the end marker. *)
Example QueuedJobsIterator_run :
  let a := {| GetId := "a"; GetQueue := "q";
              GetSchedulingKey := (0%N, false) |} in
  let repo := {| GetQueueJobIds := fun _ => (["a"], None);
                 GetExistingJobsByIds := fun _ => ([None; Some a], None) |} in
  exists st0 st1 st2 st3 st4 st5 st6,
    NewQueuedJobsIterator None "q" repo = (Some st0, None)
    /\ QueuedJobsIterator_Next false st0 = None
    /\ queuedJobsIteratorLoader_step false st0 = Some st1
    /\ queuedJobsIteratorLoader_step false st1 = Some st2
    /\ queuedJobsIteratorLoader_step false st2 = Some st3
    /\ QueuedJobsIterator_Next false st3 = Some ((Some a, None), st4)
    /\ queuedJobsIteratorLoader_step false st4 = Some st5
    /\ queuedJobsIteratorLoader_step false st5 = Some st6
    /\ loader st6 = Returned None
    /\ QueuedJobsIterator_Next false st6 = Some (end_marker, st6).
Proof.
  eexists _, _, _, _, _, _, _. repeat (split; [reflexivity |]). reflexivity.
Qed.

End JobIterationFacts.

(** * Properties of the gang scheduler *)

Module GangSchedulerFacts.

Import GangScheduler.

(** ** Loops over the job scheduling contexts of a gang *)

Lemma for_each_jctx_snoc f (refs : list jctx_ref) (r : jctx_ref) (s : Store) :
  for_each_jctx f (refs ++ [r]) s = store_update r f (for_each_jctx f refs s).
Proof. unfold for_each_jctx. rewrite foldl_app. reflexivity. Qed.

(** What [f] establishes holds of every context the loop visits. *)
Lemma for_each_jctx_post (P : JobSchedulingContext -> Prop) f
    (refs : list jctx_ref) (s : Store) (r : jctx_ref) :
  (forall jctx, P (f jctx)) ->
  r ∈ refs -> P (for_each_jctx f refs s r).
Proof.
  intros Hf. induction refs as [|x refs IH] using rev_ind; intros Hin.
  - inversion Hin.
  - rewrite for_each_jctx_snoc. unfold store_update.
    destruct (Nat.eqb_spec r x) as [-> | Hne]; [apply Hf |].
    apply IH. apply elem_of_app in Hin as [Hin | Hin]; [assumption |].
    apply list_elem_of_singleton in Hin. contradiction.
Qed.

(** What [f] preserves is preserved by the loop. *)
Lemma for_each_jctx_inv (Q : JobSchedulingContext -> Prop) f
    (refs : list jctx_ref) (s : Store) (r : jctx_ref) :
  (forall jctx, Q jctx -> Q (f jctx)) ->
  Q (s r) -> Q (for_each_jctx f refs s r).
Proof.
  intros Hf Hs. induction refs as [|x refs IH] using rev_ind.
  - exact Hs.
  - rewrite for_each_jctx_snoc. unfold store_update.
    destruct (r =? x)%nat; [apply Hf |]; exact IH.
Qed.

Lemma clearNodeBindings_NodeId (jctx : JobSchedulingContext) pctx :
  PodSchedulingContext (clearNodeBindings jctx) = Some pctx ->
  NodeId pctx = "".
Proof.
  unfold clearNodeBindings.
  destruct (PodSchedulingContext jctx) as [p|] eqn:Hp; cbn.
  - intros [= <-]. reflexivity.
  - rewrite Hp. discriminate.
Qed.

Section Facts.

Context {D : Type} (E : Env D) (sch : GangScheduler).

Lemma bind_inv {A B : Type} (m : M D A) (f : A -> M D B) (w w' : World D)
    (y : B) :
  (m ≫= f) w = (y, w') ->
  exists x w1, m w = (x, w1) /\ f x w1 = (y, w').
Proof.
  unfold mbind, M_bind. destruct (m w) as [x w1]. intros H.
  exists x, w1. split; [reflexivity | exact H].
Qed.

(** ** Transactions *)

Lemma no_commit_since_refl (db : NodeDb D) : no_commit_since db db.
Proof.
  split; [reflexivity |]. split; [reflexivity |].
  intros txn t Hle Ht. apply lookup_lt_Some in Ht. lia.
Qed.

Lemma no_commit_since_open (db0 db : NodeDb D) (t : Txn D) :
  status t <> TxnCommitted ->
  no_commit_since db0 db ->
  no_commit_since db0 {| content := content db; txns := txns db ++ [t] |}.
Proof.
  intros Hopen (Hc & Hlen & Hst). unfold no_commit_since. cbn [content txns].
  split; [assumption |]. split; [rewrite length_app; lia |].
  intros txn t' Hle Ht'.
  apply lookup_app_Some in Ht' as [Ht' | [_ Ht']]; [eauto |].
  apply list_lookup_singleton_Some in Ht' as [_ <-]. congruence.
Qed.

Lemma no_commit_since_update (db0 db : NodeDb D) (txn : nat) (t : Txn D) :
  status t <> TxnCommitted ->
  no_commit_since db0 db ->
  no_commit_since db0
    {| content := content db; txns := <[txn := t]> (txns db) |}.
Proof.
  intros Hopen (Hc & Hlen & Hst). unfold no_commit_since. cbn [content txns].
  split; [assumption |]. split; [rewrite length_insert; lia |].
  intros txn' t' Hle Ht'.
  destruct (decide (txn = txn')) as [<- | Hne].
  - apply list_lookup_insert_Some in Ht' as [(_ & <- & _) | [? _]];
      [assumption | congruence].
  - rewrite list_lookup_insert_ne in Ht' by assumption. eauto.
Qed.

Lemma no_commit_since_abort (db0 db : NodeDb D) (txn : nat) :
  no_commit_since db0 db -> no_commit_since db0 (abort_txn txn db).
Proof.
  intros H. unfold abort_txn.
  destruct (txns db !! txn) as [t|]; [| assumption].
  destruct (status t); try assumption.
  apply no_commit_since_update; [discriminate | assumption].
Qed.

Lemma abort_txn_open (db : NodeDb D) (txn : nat) (t : Txn D) :
  txns db !! txn = Some t -> status t = TxnOpen ->
  abort_txn txn db =
    {| content := content db;
       txns := <[txn := {| view := view t; status := TxnAborted |}]>
                 (txns db) |}.
Proof. intros Ht Hs. unfold abort_txn. rewrite Ht, Hs. reflexivity. Qed.

Lemma commit_txn_open (db : NodeDb D) (txn : nat) (t : Txn D) :
  txns db !! txn = Some t -> status t = TxnOpen ->
  commit_txn txn db =
    {| content := view t;
       txns := <[txn := {| view := view t; status := TxnCommitted |}]>
                 (txns db) |}.
Proof. intros Ht Hs. unfold commit_txn. rewrite Ht, Hs. reflexivity. Qed.

Lemma Txn_Abort_after_txn (w : World D) (s : Store) (v c : D) :
  Txn_Abort (length (txns (nodeDb w))) (after_txn w s v TxnOpen c) =
    (tt, after_txn w s v TxnAborted c).
Proof.
  unfold Txn_Abort, put_nodeDb, after_txn. cbn [nodeDb jctxs sctx].
  rewrite (abort_txn_open _ _ {| view := v; status := TxnOpen |});
    [| cbn [txns]; apply list_lookup_middle; reflexivity | reflexivity].
  cbn [txns content view].
  rewrite insert_app_r_alt by reflexivity. rewrite Nat.sub_diag. reflexivity.
Qed.

Lemma Txn_Commit_after_txn (w : World D) (s : Store) (v c : D) :
  Txn_Commit (length (txns (nodeDb w))) (after_txn w s v TxnOpen c) =
    (tt, after_txn w s v TxnCommitted v).
Proof.
  unfold Txn_Commit, put_nodeDb, after_txn. cbn [nodeDb jctxs sctx].
  rewrite (commit_txn_open _ _ {| view := v; status := TxnOpen |});
    [| cbn [txns]; apply list_lookup_middle; reflexivity | reflexivity].
  cbn [txns content view].
  rewrite insert_app_r_alt by reflexivity. rewrite Nat.sub_diag. reflexivity.
Qed.

(** [Abort] after [Commit] does nothing. *)
Lemma Txn_Abort_committed (w : World D) (s : Store) (v c : D) :
  Txn_Abort (length (txns (nodeDb w))) (after_txn w s v TxnCommitted c) =
    (tt, after_txn w s v TxnCommitted c).
Proof.
  unfold Txn_Abort, put_nodeDb, after_txn, abort_txn.
  cbn [nodeDb jctxs sctx txns].
  rewrite list_lookup_middle by reflexivity. reflexivity.
Qed.

(** A transaction is opened on the world [w] with store [s0] and the gang
    is placed in it. *)
Lemma placement_in_new_txn (gctx : GangSchedulingContext) (w : World D)
    (s0 : Store) :
  exists ok err v s,
    ScheduleManyWithTxn E (content (nodeDb w)) (JobSchedulingContexts gctx)
      s0 = ((ok, err), (v, s))
    /\ tryScheduleGangWithTxn E (length (txns (nodeDb w))) gctx
         (after_txn w s0 (content (nodeDb w)) TxnOpen (content (nodeDb w)))
       = ((ok, placement_reason gctx ok err, err),
          after_txn w (placement_store gctx ok err s) v TxnOpen
            (content (nodeDb w))).
Proof.
  destruct (ScheduleManyWithTxn E (content (nodeDb w))
              (JobSchedulingContexts gctx) s0) as [[ok err] [v s]] eqn:Hplace.
  exists ok, err, v, s. split; [reflexivity |].
  unfold tryScheduleGangWithTxn, nodeDb_ScheduleManyWithTxn, modify_jctxs,
    put_jctxs, mbind, mret, M_bind, M_ret, after_txn.
  cbn [nodeDb txns content jctxs sctx].
  rewrite list_lookup_middle by reflexivity.
  cbn [view status]. rewrite Hplace.
  rewrite insert_app_r_alt by reflexivity. rewrite Nat.sub_diag.
  cbn [insert list_insert].
  destruct err as [e|]; [reflexivity |]. destruct ok; reflexivity.
Qed.

Lemma NodeDb_Txn_after_txn (w : World D) (b : bool) :
  NodeDb_Txn b w =
    (length (txns (nodeDb w)),
     after_txn w (jctxs w) (content (nodeDb w)) TxnOpen (content (nodeDb w))).
Proof. reflexivity. Qed.

Lemma tryScheduleGang_spec (gctx : GangSchedulingContext) (w : World D) :
  exists ok err v s,
    ScheduleManyWithTxn E (content (nodeDb w)) (JobSchedulingContexts gctx)
      (jctxs w) = ((ok, err), (v, s))
    /\ tryScheduleGang E gctx w =
       ((ok, placement_reason gctx ok err, err),
        if ok && is_nil err then
          after_txn w (placement_store gctx ok err s) v TxnCommitted v
        else
          after_txn w (placement_store gctx ok err s) v TxnAborted
            (content (nodeDb w))).
Proof.
  destruct (placement_in_new_txn gctx w (jctxs w))
    as (ok & err & v & s & Hplace & Htry).
  exists ok, err, v, s. split; [exact Hplace |].
  unfold tryScheduleGang, mbind, mret, M_bind, M_ret.
  rewrite NodeDb_Txn_after_txn, Htry. cbn [res_ok res_err fst snd].
  destruct (ok && is_nil err).
  - rewrite Txn_Commit_after_txn, Txn_Abort_committed. reflexivity.
  - rewrite Txn_Abort_after_txn. reflexivity.
Qed.

Lemma attempt_spec (gctx : GangSchedulingContext) (value : string)
    (w : World D) :
  exists ok err v s,
    ScheduleManyWithTxn E (content (nodeDb w)) (JobSchedulingContexts gctx)
      (for_each_jctx (add_selector (NodeUniformityLabel gctx) value)
         (JobSchedulingContexts gctx) (jctxs w)) = ((ok, err), (v, s))
    /\ attempt E gctx value w =
       ((length (txns (nodeDb w)), (ok, placement_reason gctx ok err, err)),
        after_txn w (placement_store gctx ok err s) v TxnOpen
          (content (nodeDb w))).
Proof.
  destruct (placement_in_new_txn gctx w
              (for_each_jctx (add_selector (NodeUniformityLabel gctx) value)
                 (JobSchedulingContexts gctx) (jctxs w)))
    as (ok & err & v & s & Hplace & Htry).
  exists ok, err, v, s. split; [exact Hplace |].
  unfold attempt, addNodeSelectorToGctx, modify_jctxs, put_jctxs,
    mbind, mret, M_bind, M_ret.
  rewrite NodeDb_Txn_after_txn. cbn [nodeDb jctxs sctx].
  unfold after_txn in *. cbn [nodeDb jctxs sctx] in *.
  rewrite Htry. reflexivity.
Qed.

(** ** The uniformity search *)

Lemma trySchedule_iteration_spec (gctx : GangSchedulingContext)
    (total i : nat) (bestValue : string) (minMean : float64)
    (value : string) (w : World D) :
  trySchedule_iteration E gctx total i bestValue minMean value w =
  if String.eqb value "" then (inr (bestValue, minMean), w)
  else
    let '((txn, r), w1) := attempt E gctx value w in
    let aborted := snd (Txn_Abort txn w1) in
    let committed := snd (Txn_Commit txn w1) in
    if negb (is_nil (res_err r)) then (inl r, aborted)
    else if res_ok r then
      let '(mean, ok) := meanScheduledAtPriorityFromGctx gctx (jctxs w1) in
      if negb ok then (inr (bestValue, minMean), aborted)
      else if float64_eqb mean (float64_of_int32 (MinPriority E)) then
        (inl (true, "", None), committed)
      else if String.eqb bestValue "" || float64_leb mean minMean then
        if (i =? total)%nat then (inl (true, "", None), committed)
        else (inr (value, mean), aborted)
      else (inr (bestValue, minMean), aborted)
    else (inr (bestValue, minMean), aborted).
Proof.
  unfold trySchedule_iteration, attempt, mbind, mret, M_bind, M_ret.
  destruct (String.eqb value ""); [reflexivity |].
  destruct (addNodeSelectorToGctx gctx (NodeUniformityLabel gctx) value w)
    as [[] w0].
  destruct (NodeDb_Txn true w0) as [txn w1].
  destruct (tryScheduleGangWithTxn E txn gctx w1) as [r w2].
  unfold get_jctxs, Txn_Abort, Txn_Commit, put_nodeDb. cbn [snd].
  repeat match goal with
    | |- context [match ?x with _ => _ end] => destruct x
    end; reflexivity.
Qed.

(** The outcomes of one iteration: the value is skipped; or the gang is
    placed in a transaction that is then aborted, and the iteration returns
    an error or goes on; or it is placed in a transaction that is then
    committed, and the search returns success. *)
Lemma trySchedule_iteration_cases (gctx : GangSchedulingContext)
    (total i : nat) (bestValue : string) (minMean : float64)
    (value : string) (w w' : World D) (out : Result + string * float64) :
  trySchedule_iteration E gctx total i bestValue minMean value w = (out, w') ->
  (out = inr (bestValue, minMean) /\ w' = w)
  \/ exists ok err v s,
       ScheduleManyWithTxn E (content (nodeDb w)) (JobSchedulingContexts gctx)
         (for_each_jctx (add_selector (NodeUniformityLabel gctx) value)
            (JobSchedulingContexts gctx) (jctxs w)) = ((ok, err), (v, s))
       /\ ((w' = after_txn w (placement_store gctx ok err s) v TxnAborted
                   (content (nodeDb w))
            /\ match out with
               | inl r => res_err r <> None
               | inr _ => True
               end)
           \/ (w' = after_txn w (placement_store gctx ok err s) v
                      TxnCommitted v
               /\ ok = true /\ err = None /\ out = inl (true, "", None))).
Proof.
  rewrite trySchedule_iteration_spec.
  destruct (String.eqb value ""); [intros [= <- <-]; left; auto |].
  destruct (attempt_spec gctx value w) as (ok & err & v & s & Hplace & Hatt).
  rewrite Hatt. cbn [res_ok res_err fst snd].
  rewrite Txn_Abort_after_txn, Txn_Commit_after_txn. cbn [snd jctxs after_txn].
  intros H. right. exists ok, err, v, s. split; [exact Hplace |].
  destruct err as [e|]; cbn [is_nil negb] in H.
  { injection H as <- <-. left. split; [reflexivity | discriminate]. }
  destruct ok.
  2:{ injection H as <- <-. left. auto. }
  destruct (meanScheduledAtPriorityFromGctx gctx _) as [mean okm].
  destruct okm; cbn [negb] in H.
  2:{ injection H as <- <-. left. auto. }
  destruct (float64_eqb mean _).
  { injection H as <- <-. right. auto. }
  destruct (String.eqb bestValue "" || float64_leb mean minMean).
  2:{ injection H as <- <-. left. auto. }
  destruct (i =? total)%nat; injection H as <- <-; [right | left]; auto.
Qed.

Lemma placement_frame_refl (w : World D) : placement_frame E w w.
Proof. split; [reflexivity | intros _ ref; reflexivity]. Qed.

(** A placement on [w], from a store with the jobs of [w], leaves a world
    in the frame of [w0]. *)
Lemma placement_frame_after_txn (gctx : GangSchedulingContext)
    (w0 w : World D) (s0 s : Store) (ok : bool) (err : option error)
    (v c : D) (st : TxnStatus) :
  placement_frame E w0 w ->
  (forall ref, Job (s0 ref) = Job (jctxs w ref)) ->
  ScheduleManyWithTxn E (content (nodeDb w)) (JobSchedulingContexts gctx) s0
    = ((ok, err), (v, s)) ->
  placement_frame E w0 (after_txn w (placement_store gctx ok err s) v st c).
Proof.
  intros [Hsc Hjobs] Hs0 Hplace. split; [exact Hsc |].
  intros Hkeep ref. cbn [after_txn jctxs].
  rewrite <- (Hjobs Hkeep ref), <- (Hs0 ref),
    <- (Hkeep _ _ _ _ _ _ Hplace ref).
  unfold placement_store. destruct err as [e|]; [reflexivity |].
  destruct ok;
    apply (for_each_jctx_inv (fun jctx => Job jctx = Job (s ref)));
    try reflexivity; intros jctx <-.
  - destruct (ShouldFail jctx); [| reflexivity].
    unfold clearNodeBindings.
    destruct (PodSchedulingContext jctx); reflexivity.
  - unfold clearNodeBindings.
    destruct (PodSchedulingContext jctx); reflexivity.
Qed.

Lemma add_selector_jobs (gctx : GangSchedulingContext) (value : string)
    (s : Store) (ref : jctx_ref) :
  Job (for_each_jctx (add_selector (NodeUniformityLabel gctx) value)
         (JobSchedulingContexts gctx) s ref) = Job (s ref).
Proof.
  apply (for_each_jctx_inv (fun jctx => Job jctx = Job (s ref)));
    [intros jctx <- |]; reflexivity.
Qed.

Lemma no_commit_since_aborted (w0 w : World D) (s : Store) (v : D) :
  no_commit_since (nodeDb w0) (nodeDb w) ->
  no_commit_since (nodeDb w0)
    (nodeDb (after_txn w s v TxnAborted (content (nodeDb w)))).
Proof.
  intros H. cbn [after_txn nodeDb].
  apply (no_commit_since_open _ _ {| view := v; status := TxnAborted |});
    [discriminate | exact H].
Qed.

Lemma placement_store_recorded (gctx : GangSchedulingContext) (s : Store)
    (ref : jctx_ref) :
  ref ∈ JobSchedulingContexts gctx ->
  recorded_as_failed (placement_store gctx true None s ref).
Proof.
  apply for_each_jctx_post. intros jctx. unfold recorded_as_failed.
  destruct (ShouldFail jctx) eqn:Hfail.
  - intros _. split; [reflexivity |].
    intros pctx. cbn [set_UnschedulableReason PodSchedulingContext].
    apply clearNodeBindings_NodeId.
  - congruence.
Qed.

Lemma trySchedule_loop_outcome (gctx : GangSchedulingContext) (total : nat)
    (values : list string) :
  forall (i : nat) (bestValue : string) (minMean : float64)
         (w0 w w' : World D) (out : Result + string * float64),
    trySchedule_loop E gctx total values i bestValue minMean w = (out, w') ->
    placement_frame E w0 w ->
    no_commit_since (nodeDb w0) (nodeDb w) ->
    placement_outcome E gctx w0 w'
      match out with
      | inl r => res_ok r && is_nil (res_err r)
      | inr _ => false
      end.
Proof.
  induction values as [|value rest IH];
    intros i bestValue minMean w0 w w' out Hloop Hframe Hdb.
  - injection Hloop as <- <-. split; assumption.
  - cbn [trySchedule_loop] in Hloop.
    apply bind_inv in Hloop as (out1 & w1 & Hiter & Hloop).
    apply trySchedule_iteration_cases in Hiter
      as [[-> ->] | (ok & err & v & s & Hplace & Hiter)].
    { eapply IH; eassumption. }
    assert (Hframe1 : forall st c,
               placement_frame E w0
                 (after_txn w (placement_store gctx ok err s) v st c)).
    { intros st c.
      eapply placement_frame_after_txn; [exact Hframe | | exact Hplace].
      intros ref. apply add_selector_jobs. }
    destruct Hiter as [[-> Hout] | (-> & -> & -> & ->)].
    + pose proof (no_commit_since_aborted w0 w
                    (placement_store gctx ok err s) v Hdb) as Hdb1.
      destruct out1 as [r | [b m]].
      * injection Hloop as <- <-. split; [apply Hframe1 |].
        destruct (res_err r); [| congruence].
        rewrite andb_false_r. exact Hdb1.
      * eapply IH; [exact Hloop | apply Hframe1 | exact Hdb1].
    + injection Hloop as <- <-. split; [apply Hframe1 |].
      cbn. intros ref Hin. apply placement_store_recorded, Hin.
Qed.

Lemma tryScheduleGang_outcome (gctx : GangSchedulingContext)
    (w0 w w' : World D) (r : Result) :
  tryScheduleGang E gctx w = (r, w') ->
  placement_frame E w0 w ->
  no_commit_since (nodeDb w0) (nodeDb w) ->
  placement_outcome E gctx w0 w' (res_ok r && is_nil (res_err r)).
Proof.
  intros Htry Hframe Hdb.
  destruct (tryScheduleGang_spec gctx w) as (ok & err & v & s & Hplace & Hspec).
  rewrite Hspec in Htry. injection Htry as <- <-.
  cbn [res_ok res_err fst snd].
  assert (Hframe1 : forall st c,
             placement_frame E w0
               (after_txn w (placement_store gctx ok err s) v st c)).
  { intros st c.
    eapply placement_frame_after_txn; [exact Hframe | | exact Hplace].
    reflexivity. }
  destruct ok, err as [e|]; cbn [andb is_nil];
    (split; [apply Hframe1 |]);
    try (apply no_commit_since_aborted; exact Hdb).
  intros ref Hin. apply placement_store_recorded, Hin.
Qed.

Lemma trySchedule_outcome (gctx : GangSchedulingContext) (w w' : World D)
    (r : Result) :
  trySchedule E gctx w = (r, w') ->
  placement_outcome E gctx w w' (res_ok r && is_nil (res_err r)).
Proof.
  unfold trySchedule.
  destruct (String.eqb (NodeUniformityLabel gctx) "").
  { intros H. eapply tryScheduleGang_outcome;
      [exact H | apply placement_frame_refl | apply no_commit_since_refl]. }
  destruct (IndexedNodeLabelValues E _ _) as [values ok].
  assert (Hquiet : placement_outcome E gctx w w false).
  { split; [apply placement_frame_refl | apply no_commit_since_refl]. }
  destruct ok; cbn [negb]; [| intros [= <- <-]; exact Hquiet].
  destruct (length values =? 0)%nat; [intros [= <- <-]; exact Hquiet |].
  intros H. apply bind_inv in H as (out & w1 & Hloop & H).
  pose proof (trySchedule_loop_outcome gctx _ _ _ _ _ w w w1 out Hloop
                (placement_frame_refl w) (no_commit_since_refl _))
    as [Hframe1 Hout].
  destruct out as [r1 | [bestValue m]].
  - injection H as <- <-. split; assumption.
  - destruct (String.eqb bestValue "").
    + injection H as <- <-. split; assumption.
    + apply bind_inv in H as ([] & w2 & Hsel & H).
      injection Hsel as <-.
      eapply tryScheduleGang_outcome; [exact H | |].
      * destruct Hframe1 as [Hsc Hjobs]. split; [exact Hsc |].
        intros Hkeep ref. cbn [jctxs snd put_jctxs].
        rewrite add_selector_jobs. apply Hjobs, Hkeep.
      * exact Hout.
Qed.

(** ** Bookkeeping in the scheduling context *)

Lemma same_outside_accounting_refl (sc : SchedulingContext) :
  same_outside_accounting sc sc.
Proof. repeat split. Qed.

Lemma same_outside_accounting_trans (sc1 sc2 sc3 : SchedulingContext) :
  same_outside_accounting sc1 sc2 -> same_outside_accounting sc2 sc3 ->
  same_outside_accounting sc1 sc3.
Proof.
  intros (H1 & H2 & H3 & H4) (H1' & H2' & H3' & H4').
  repeat split; congruence.
Qed.

Lemma sctx_AddGangSchedulingContext_inv (gctx : GangSchedulingContext)
    (w w' : World D) (err : option error) :
  sctx_AddGangSchedulingContext E gctx w = (err, w') ->
  jctxs w' = jctxs w /\ nodeDb w' = nodeDb w
  /\ exists delta,
       AddGangSchedulingContext E (sctx w) gctx (jctxs w)
         = ((delta, err), sctx w').
Proof.
  unfold sctx_AddGangSchedulingContext.
  destruct (AddGangSchedulingContext E _ _ _) as [[delta e] sc].
  intros [= <- <-]. cbn. eauto.
Qed.

Lemma sctx_EvictJob_inv (job : LegacySchedulerJob) (w w' : World D)
    (err : option error) :
  sctx_EvictJob E job w = (err, w') ->
  jctxs w' = jctxs w /\ nodeDb w' = nodeDb w
  /\ exists delta, EvictJob E (sctx w) job = ((delta, err), sctx w').
Proof.
  unfold sctx_EvictJob. destruct (EvictJob E _ _) as [[delta e] sc].
  intros [= <- <-]. cbn. eauto.
Qed.

Lemma sctx_EvictGang_inv (jobs : list LegacySchedulerJob) (w w' : World D)
    (err : option error) :
  sctx_EvictGang E jobs w = (err, w') ->
  jctxs w' = jctxs w /\ nodeDb w' = nodeDb w
  /\ exists delta, EvictGang E (sctx w) jobs = ((delta, err), sctx w').
Proof.
  unfold sctx_EvictGang. destruct (EvictGang E _ _) as [[delta e] sc].
  intros [= <- <-]. cbn. eauto.
Qed.

Lemma evict_unsuccessful_inv (s : Store) (refs : list jctx_ref) :
  forall (w w' : World D) (err : option error),
    evict_unsuccessful E refs w = (err, w') ->
    jctxs w = s ->
    jctxs w' = s /\ nodeDb w' = nodeDb w
    /\ (SctxFrame E -> same_outside_accounting (sctx w) (sctx w'))
    /\ (SctxTracking E -> err = None ->
        TrackedJobs (sctx w') =
        TrackedJobs (sctx w)
        ∖ list_to_set
            (map (fun r => GetId (Job (s r)))
               (filter (fun r => IsSuccessful (s r) = false) refs))).
Proof.
  induction refs as [|r rest IH]; intros w w' err Hev Hs.
  - injection Hev as <- <-.
    split; [exact Hs |]. split; [reflexivity |]. split.
    + intros _. apply same_outside_accounting_refl.
    + intros _ _. cbn [filter list_filter map list_to_set].
      rewrite difference_empty_L. reflexivity.
  - cbn [evict_unsuccessful] in Hev.
    unfold mbind, M_bind, get_jctxs in Hev. rewrite Hs in Hev.
    rewrite filter_cons.
    destruct (IsSuccessful (s r)) eqn:Hsucc; cbn [negb] in Hev.
    + rewrite decide_False by discriminate. eapply IH; eassumption.
    + rewrite decide_True by reflexivity.
      destruct (sctx_EvictJob E (Job (s r)) w) as [e w1] eqn:Hevict.
      apply sctx_EvictJob_inv in Hevict as (Hs1 & Hdb1 & delta & Hevict).
      destruct e as [e|].
      * injection Hev as <- <-.
        split; [congruence |]. split; [congruence |]. split; [| discriminate].
        intros HF. eapply EvictJob_frame; eassumption.
      * apply IH in Hev as (Hs' & Hdb' & Hfr & Htr); [| congruence].
        split; [congruence |]. split; [congruence |]. split.
        -- intros HF. eapply same_outside_accounting_trans; [| auto].
           eapply EvictJob_frame; eassumption.
        -- intros HT ->. rewrite (Htr HT eq_refl).
           rewrite (EvictJob_untracks E HT _ _ _ _ Hevict).
           cbn [map list_to_set].
           rewrite difference_difference_l_L. reflexivity.
Qed.

Lemma updateGangSchedulingContextOnSuccess_inv (gctx : GangSchedulingContext)
    (w w' : World D) (err : option error) :
  updateGangSchedulingContextOnSuccess E gctx true w = (err, w') ->
  jctxs w' = jctxs w /\ nodeDb w' = nodeDb w
  /\ (SctxFrame E -> same_outside_accounting (sctx w) (sctx w'))
  /\ (SctxTracking E -> err = None ->
      TrackedJobs (sctx w') =
      TrackedJobs (sctx w) ∖ unsuccessful_job_ids gctx (jctxs w)).
Proof.
  intros H. cbn in H.
  apply (evict_unsuccessful_inv (jctxs w)) in H; [| reflexivity].
  exact H.
Qed.

Lemma register_unfeasible_key_inv (gctx : GangSchedulingContext)
    (w w' : World D) :
  register_unfeasible_key E sch gctx w = (tt, w') ->
  jctxs w' = jctxs w /\ nodeDb w' = nodeDb w
  /\ Limiter (sctx w') = Limiter (sctx w)
  /\ QueueSchedulingContexts (sctx w') = QueueSchedulingContexts (sctx w)
  /\ Started (sctx w') = Started (sctx w)
  /\ TrackedJobs (sctx w') = TrackedJobs (sctx w)
  /\ unfeasible_keys_step E sch gctx (jctxs w)
       (UnfeasibleSchedulingKeys (sctx w))
       (UnfeasibleSchedulingKeys (sctx w')).
Proof.
  unfold register_unfeasible_key, unfeasible_keys_step,
    derived_scheduling_key.
  destruct (skipUnsuccessfulSchedulingKeyCheck sch) eqn:Hskip; cbn [negb andb].
  { intros [= <-]. repeat split; auto. }
  destruct (Cardinality gctx =? 1)%nat eqn:Hcard;
    [| intros [= <-]; repeat split; auto].
  apply Nat.eqb_eq in Hcard. unfold Cardinality in Hcard.
  destruct (JobSchedulingContexts gctx) as [|ref [|]] eqn:Hrefs;
    try discriminate Hcard.
  unfold mbind, mret, M_bind, M_ret, get_jctxs, get_sctx, put_sctx.
  destruct (GetSchedulingKey (Job (jctxs w ref))) as [key ok] eqn:Hget.
  set (schedulingKey :=
         if ok then key
         else SchedulingKeyFromLegacySchedulerJob E (sctx w)
                (Job (jctxs w ref))).
  destruct (N.eqb_spec schedulingKey EmptySchedulingKey) as [Hk | Hk];
    cbn [negb]; [intros [= <-]; repeat split; auto |].
  destruct (UnfeasibleSchedulingKeys (sctx w) !! schedulingKey) as [old|]
    eqn:Hold; intros [= <-]; cbn; repeat split; auto.
  right. split; [reflexivity |].
  exists ref, schedulingKey. split; [reflexivity |].
  split; [exists (sctx w); rewrite Hget; reflexivity | auto].
Qed.

Lemma updateGangSchedulingContextOnFailure_inv (gctx : GangSchedulingContext)
    (reason : string) (w w' : World D) (err : option error) :
  updateGangSchedulingContextOnFailure E sch gctx true reason w = (err, w') ->
  nodeDb w' = nodeDb w
  /\ (SctxFrame E ->
      Limiter (sctx w') = Limiter (sctx w)
      /\ QueueSchedulingContexts (sctx w') = QueueSchedulingContexts (sctx w)
      /\ Started (sctx w') = Started (sctx w)
      /\ unfeasible_keys_step E sch gctx (jctxs w')
           (UnfeasibleSchedulingKeys (sctx w))
           (UnfeasibleSchedulingKeys (sctx w')))
  /\ (UnfeasibleSchedulingKeys (sctx w')
        <> UnfeasibleSchedulingKeys (sctx w) -> SctxFrame E -> err = None)
  /\ (err = None ->
      jctxs w' =
        for_each_jctx (set_UnschedulableReason reason)
          (JobSchedulingContexts gctx) (jctxs w)
      /\ (SctxTracking E ->
          TrackedJobs (sctx w') =
          (TrackedJobs (sctx w) ∖ gang_job_ids gctx (jctxs w))
          ∪ gang_job_ids gctx (jctxs w'))).
Proof.
  unfold updateGangSchedulingContextOnFailure. intros H.
  apply bind_inv in H as (err1 & w1 & Hevict & H).
  apply bind_inv in Hevict as (s & w0 & Hget & Hevict).
  injection Hget as <- <-.
  apply sctx_EvictGang_inv in Hevict as (Hs1 & Hdb1 & delta1 & Hevict).
  assert (Hstay : forall s sc, same_outside_accounting (sctx w) sc ->
            Limiter sc = Limiter (sctx w)
            /\ QueueSchedulingContexts sc = QueueSchedulingContexts (sctx w)
            /\ Started sc = Started (sctx w)
            /\ unfeasible_keys_step E sch gctx s
                 (UnfeasibleSchedulingKeys (sctx w))
                 (UnfeasibleSchedulingKeys sc)).
  { intros s sc (H1 & H2 & H3 & H4). repeat split; auto. left. exact H4. }
  destruct err1 as [e1|].
  { injection H as <- <-. split; [exact Hdb1 |].
    split; [intros HF; apply Hstay; eapply EvictGang_frame; eassumption |].
    split; [| discriminate].
    intros Hne HF. exfalso. apply Hne.
    apply (EvictGang_frame E HF _ _ _ _ Hevict). }
  apply bind_inv in H as ([] & w2 & Hset & H). injection Hset as <-.
  apply bind_inv in H as (err2 & w3 & Hadd & H).
  apply sctx_AddGangSchedulingContext_inv in Hadd
    as (Hs3 & Hdb3 & delta3 & Hadd).
  cbn [jctxs sctx nodeDb snd put_jctxs] in Hs3, Hdb3, Hadd.
  assert (Hframe3 : SctxFrame E -> same_outside_accounting (sctx w) (sctx w3)).
  { intros HF. eapply same_outside_accounting_trans.
    - eapply EvictGang_frame; eassumption.
    - eapply AddGangSchedulingContext_frame; eassumption. }
  destruct err2 as [e2|].
  { injection H as <- <-. split; [congruence |].
    split; [intros HF; apply Hstay, Hframe3, HF |].
    split; [| discriminate].
    intros Hne HF. exfalso. apply Hne. apply (Hframe3 HF). }
  apply bind_inv in H as ([] & w4 & Hreg & H). injection H as <- <-.
  apply register_unfeasible_key_inv in Hreg
    as (Hs4 & Hdb4 & Hl4 & Hq4 & Hst4 & Ht4 & Hk4).
  split; [congruence |]. split; [| split; [reflexivity |]].
  - intros HF. destruct (Hframe3 HF) as (H1 & H2 & H3 & H4).
    rewrite Hs4. rewrite <- H4. repeat split; congruence.
  - intros _. split; [congruence |].
    intros HT. rewrite Ht4.
    rewrite (AddGangSchedulingContext_tracks E HT _ _ _ _ _ Hadd).
    rewrite (EvictGang_untracks E HT _ _ _ _ Hevict).
    rewrite Hs4, Hs3. unfold gang_job_ids.
    rewrite map_map. reflexivity.
Qed.

Lemma reserve_limiters_inv (gctx : GangSchedulingContext) (w : World D) :
  exists w',
    reserve_limiters gctx w = (tt, w')
    /\ jctxs w' = jctxs w /\ nodeDb w' = nodeDb w
    /\ reserved gctx (sctx w) (sctx w')
    /\ Started (sctx w') = Started (sctx w)
    /\ UnfeasibleSchedulingKeys (sctx w') = UnfeasibleSchedulingKeys (sctx w)
    /\ TrackedJobs (sctx w') = TrackedJobs (sctx w).
Proof.
  unfold reserve_limiters, mbind, M_bind, get_sctx, put_sctx.
  eexists. split; [reflexivity |]. unfold reserved.
  cbn [jctxs nodeDb sctx snd Limiter QueueSchedulingContexts Started
         UnfeasibleSchedulingKeys TrackedJobs].
  repeat split. intros queue.
  destruct (String.eqb_spec queue (Queue gctx)) as [-> | Hne].
  - destruct (QueueSchedulingContexts (sctx w) !! Queue gctx) as [qctx|]
      eqn:Hq.
    + rewrite lookup_insert_eq. reflexivity.
    + rewrite Hq. reflexivity.
  - destruct (QueueSchedulingContexts (sctx w) !! Queue gctx) as [qctx|].
    + rewrite lookup_insert_ne by congruence.
      destruct (QueueSchedulingContexts (sctx w) !! queue); reflexivity.
    + destruct (QueueSchedulingContexts (sctx w) !! queue); reflexivity.
Qed.

(** ** The single transactional attempt *)

(** C4: when the placement of a single transactional attempt returns
    [ok=false] with no error, the attempt returns the reason for the
    gang's cardinality, its transaction is aborted and nothing is
    published, and the NodeId is cleared on the PodSchedulingContext of
    every job scheduling context of the gang. *)
Theorem tryScheduleGang_not_ok (gctx : GangSchedulingContext) (w : World D)
    (v : D) (s : Store) :
  ScheduleManyWithTxn E (content (nodeDb w)) (JobSchedulingContexts gctx)
    (jctxs w) = ((false, None), (v, s)) ->
  let '(r, w') := tryScheduleGang E gctx w in
  r = (false,
       if (1 <? Cardinality gctx)%nat then min_cardinality_reason
       else fit_reason,
       None)
  /\ (exists t, txns (nodeDb w') !! length (txns (nodeDb w)) = Some t
                /\ status t = TxnAborted)
  /\ content (nodeDb w') = content (nodeDb w)
  /\ forall ref pctx,
       ref ∈ JobSchedulingContexts gctx ->
       PodSchedulingContext (jctxs w' ref) = Some pctx ->
       NodeId pctx = "".
Proof.
  intros Hplace.
  unfold tryScheduleGang, tryScheduleGangWithTxn, nodeDb_ScheduleManyWithTxn,
    NodeDb_Txn, Txn_Abort, Txn_Commit, modify_jctxs, put_jctxs, put_nodeDb,
    mbind, mret, M_bind, M_ret.
  cbn [nodeDb txns content jctxs sctx].
  rewrite list_lookup_middle by reflexivity.
  cbn [view status]. rewrite Hplace.
  cbn [negb res_ok res_err fst snd andb is_nil nodeDb txns content jctxs].
  assert (Hlt : length (txns (nodeDb w)) <
                length (txns (nodeDb w) ++
                        [{| view := content (nodeDb w);
                            status := TxnOpen |}])).
  { rewrite length_app. cbn. lia. }
  rewrite (abort_txn_open _ _ {| view := v; status := TxnOpen |});
    [| cbn [txns]; apply list_lookup_insert_eq, Hlt | reflexivity].
  cbn [txns content view].
  split; [reflexivity |]. split; [| split; [reflexivity |]].
  - eexists. split.
    + apply list_lookup_insert_eq. rewrite length_insert. exact Hlt.
    + reflexivity.
  - intros ref pctx Hin.
    apply (for_each_jctx_post
             (fun jctx => PodSchedulingContext jctx = Some pctx ->
                          NodeId pctx = "")); [| exact Hin].
    intros jctx. apply clearNodeBindings_NodeId.
Qed.

(** ** The structure of [Schedule] *)

Lemma Schedule_deferred_inv (gctx : GangSchedulingContext) (rb r : Result)
    (wb w' : World D) :
  Schedule_deferred E sch gctx true rb wb = (r, w') ->
  res_ok r = res_ok rb /\ res_reason r = res_reason rb
  /\ match res_err rb with
     | Some _ => r = rb /\ w' = wb
     | None =>
         exists w2,
           (if res_ok rb && negb (AllJobsEvicted gctx) then
              reserve_limiters gctx wb = (tt, w2)
            else w2 = wb)
           /\ (if res_ok rb then
                 updateGangSchedulingContextOnSuccess E gctx true w2
               else
                 updateGangSchedulingContextOnFailure E sch gctx true
                   (res_reason rb) w2)
              = (res_err r, w')
     end.
Proof.
  destruct rb as [[ok reason] err]. unfold Schedule_deferred.
  cbn [res_ok res_reason res_err fst snd].
  destruct err as [e|]; cbn [is_nil negb].
  { intros [= <- <-]. auto. }
  intros H. apply bind_inv in H as ([] & w2 & Hres & H).
  apply bind_inv in H as (err & w3 & Hupd & H). injection H as <- <-.
  cbn [res_ok res_reason res_err fst snd].
  split; [reflexivity |]. split; [reflexivity |].
  exists w2. split; [| destruct ok; exact Hupd].
  destruct (ok && negb (AllJobsEvicted gctx)); [exact Hres |].
  injection Hres as <-. reflexivity.
Qed.

(** The ways through [Schedule]: turned away at the round gate; stopped by
    an error of [AddGangSchedulingContext]; or let in, placed or not, and
    then through the deferred function. *)
Lemma Schedule_cases (gctx : GangSchedulingContext) (w w' : World D)
    (r : Result) :
  Schedule E sch gctx w = (r, w') ->
  (AllJobsEvicted gctx = false
   /\ r = CheckRoundConstraints E (sctx w) (Queue gctx)
   /\ res_ok r && is_nil (res_err r) = false
   /\ w' = w)
  \/ (round_gate_rejects E gctx w = false
      /\ ((exists e, sctx_AddGangSchedulingContext E gctx w = (Some e, w')
                     /\ res_err r = Some e)
          \/ exists w1 rb wb,
               sctx_AddGangSchedulingContext E gctx w = (None, w1)
               /\ placement_outcome E gctx w1 wb
                    (res_ok rb && is_nil (res_err rb))
               /\ Schedule_deferred E sch gctx true rb wb = (r, w'))).
Proof.
  unfold Schedule, round_gate_rejects.
  assert (Hgo : forall r0,
             Schedule_after_gate E sch gctx r0 w = (r, w') ->
             (exists e, sctx_AddGangSchedulingContext E gctx w = (Some e, w')
                        /\ res_err r = Some e)
             \/ exists w1 rb wb,
                  sctx_AddGangSchedulingContext E gctx w = (None, w1)
                  /\ placement_outcome E gctx w1 wb
                       (res_ok rb && is_nil (res_err rb))
                  /\ Schedule_deferred E sch gctx true rb wb = (r, w')).
  { intros [[ok0 reason0] err0] H. unfold Schedule_after_gate in H.
    apply bind_inv in H as (err & w1 & Hadd & H).
    destruct err as [e|]; cbn [is_nil negb] in H.
    { injection H as <- <-. left. exists e. auto. }
    right. apply bind_inv in H as (rb & wb & Hbody & H).
    exists w1, rb, wb. split; [exact Hadd |]. split; [| exact H].
    assert (Hquiet : placement_outcome E gctx w1 w1 false).
    { split; [apply placement_frame_refl | apply no_commit_since_refl]. }
    destruct (AllJobsEvicted gctx); cbn [negb] in Hbody.
    - apply trySchedule_outcome, Hbody.
    - apply bind_inv in Hbody as (sc & w2 & Hget & Hbody).
      injection Hget as <- <-.
      apply bind_inv in Hbody as (s & w2 & Hget & Hbody).
      injection Hget as <- <-.
      destruct (negb (is_nil (res_err (CheckConstraints E (sctx w1) gctx
                                         (jctxs w1))))
                || negb (res_ok (CheckConstraints E (sctx w1) gctx
                                   (jctxs w1)))) eqn:Hcheck.
      + injection Hbody as <- <-.
        replace (_ && _) with false; [exact Hquiet |].
        destruct (res_ok _), (res_err _); cbn in *; congruence.
      + apply trySchedule_outcome, Hbody. }
  destruct (AllJobsEvicted gctx); cbn [negb andb].
  { intros H. right. split; [reflexivity |]. apply Hgo in H. exact H. }
  intros H. apply bind_inv in H as (sc & w0 & Hget & H).
  injection Hget as <- <-.
  destruct (negb (is_nil (res_err (CheckRoundConstraints E (sctx w)
                                     (Queue gctx))))
            || negb (res_ok (CheckRoundConstraints E (sctx w) (Queue gctx))))
    eqn:Hgate.
  - injection H as <- <-. left. repeat split.
    destruct (res_ok _), (res_err _); cbn in *; congruence.
  - right. split; [| apply Hgo in H; exact H].
    destruct (res_ok _); [reflexivity |].
    rewrite orb_true_r in Hgate. discriminate.
Qed.

Lemma gang_job_ids_ext (gctx : GangSchedulingContext) (s s' : Store) :
  (forall ref, Job (s' ref) = Job (s ref)) ->
  gang_job_ids gctx s' = gang_job_ids gctx s.
Proof.
  intros H. unfold gang_job_ids. f_equal.
  apply map_ext. intros ref. rewrite H. reflexivity.
Qed.

(** ** Properties of [Schedule] *)

(** C8: for every [Schedule] call that returns [ok=false] and [err=null],
    no node database transaction opened by the call is committed, and the
    published contents of the database are what they were. *)
Theorem Schedule_not_ok_commits_nothing (gctx : GangSchedulingContext)
    (w w' : World D) (reason : string) :
  Schedule E sch gctx w = ((false, reason, None), w') ->
  content (nodeDb w') = content (nodeDb w)
  /\ forall txn t,
       length (txns (nodeDb w)) <= txn ->
       txns (nodeDb w') !! txn = Some t ->
       status t <> TxnCommitted.
Proof.
  intros H.
  cut (no_commit_since (nodeDb w) (nodeDb w')).
  { intros (Hc & _ & Hst). auto. }
  apply Schedule_cases in H
    as [(_ & _ & _ & ->) | [_ [(e & _ & He)
                              | (w1 & rb & wb & Hadd & Hout & Hdef)]]].
  - apply no_commit_since_refl.
  - discriminate He.
  - apply sctx_AddGangSchedulingContext_inv in Hadd as (_ & Hdb1 & _).
    apply Schedule_deferred_inv in Hdef as (Hok & _ & Hdef).
    cbn [res_ok fst] in Hok. rewrite <- Hok in Hout, Hdef.
    destruct Hout as [_ Hout]. cbn [andb] in Hout.
    rewrite Hdb1 in Hout.
    destruct (res_err rb).
    + destruct Hdef as [_ ->]. exact Hout.
    + destruct Hdef as (w2 & Hres & Hupd). cbn [andb] in Hres. subst w2.
      apply updateGangSchedulingContextOnFailure_inv in Hupd as (Hdb & _).
      rewrite Hdb. exact Hout.
Qed.

(** C2 (amended): for every [Schedule] call that returns [ok=true] with
    [err=null], every job scheduling context of the gang whose [ShouldFail]
    flag is true ends with an empty [NodeId] on its PodSchedulingContext
    (when one exists) and with [UnschedulableReason] equal to "job does not
    fit on any node". *)
Theorem Schedule_ok_records_ShouldFail (gctx : GangSchedulingContext)
    (w w' : World D) (reason : string) (ref : jctx_ref) :
  Schedule E sch gctx w = ((true, reason, None), w') ->
  ref ∈ JobSchedulingContexts gctx ->
  ShouldFail (jctxs w' ref) = true ->
  UnschedulableReason (jctxs w' ref) = fit_reason
  /\ forall pctx,
       PodSchedulingContext (jctxs w' ref) = Some pctx -> NodeId pctx = "".
Proof.
  intros H Hin.
  change (recorded_as_failed (jctxs w' ref)).
  apply Schedule_cases in H
    as [(_ & _ & Hgate & _) | [_ [(e & _ & He)
                                 | (w1 & rb & wb & Hadd & Hout & Hdef)]]].
  - discriminate Hgate.
  - discriminate He.
  - apply Schedule_deferred_inv in Hdef as (Hok & _ & Hdef).
    cbn [res_ok fst] in Hok. rewrite <- Hok in Hout, Hdef.
    destruct (res_err rb) eqn:Herr.
    { destruct Hdef as [Hr _]. subst rb. discriminate Herr. }
    destruct Hdef as (w2 & Hres & Hupd).
    destruct Hout as [_ Hout]. cbn [andb is_nil] in Hout.
    apply updateGangSchedulingContextOnSuccess_inv in Hupd as (Hs & _).
    rewrite Hs.
    destruct (negb (AllJobsEvicted gctx)); cbn [andb] in Hres.
    + destruct (reserve_limiters_inv gctx wb) as (w2' & Hres' & Hs2 & _).
      rewrite Hres' in Hres. injection Hres as <-.
      rewrite Hs2. apply Hout, Hin.
    + subst w2. apply Hout, Hin.
Qed.

(** C6 (amended): a [Schedule] call that returns [err=null] reserves
    [Cardinality()] tokens on the global rate limiter, and on the queue's
    limiter when one is present, at the round's start timestamp, if the
    call returns [ok=true] and the gang's [AllJobsEvicted] flag is false;
    otherwise it leaves the limiters as they were. *)
Theorem Schedule_reserves_iff_ok_and_new (gctx : GangSchedulingContext)
    (w w' : World D) (ok : bool) (reason : string) :
  SctxFrame E ->
  Schedule E sch gctx w = ((ok, reason, None), w') ->
  if ok && negb (AllJobsEvicted gctx) then
    reserved gctx (sctx w) (sctx w')
  else not_reserved (sctx w) (sctx w').
Proof.
  intros HF H.
  apply Schedule_cases in H
    as [(_ & _ & Hgate & ->) | [_ [(e & _ & He)
                                  | (w1 & rb & wb & Hadd & Hout & Hdef)]]].
  - cbn in Hgate. rewrite andb_true_r in Hgate. subst ok.
    split; reflexivity.
  - discriminate He.
  - apply sctx_AddGangSchedulingContext_inv in Hadd as (_ & _ & delta & Hadd).
    apply (AddGangSchedulingContext_frame E HF) in Hadd
      as (Hl1 & Hq1 & Hst1 & _).
    destruct Hout as [[Hsc _] _].
    apply Schedule_deferred_inv in Hdef as (Hok & _ & Hdef).
    cbn [res_ok fst] in Hok. rewrite <- Hok in Hdef.
    destruct (res_err rb) eqn:Herr.
    { destruct Hdef as [Hr _]. subst rb. discriminate Herr. }
    destruct Hdef as (w2 & Hres & Hupd). cbn [res_err snd] in Hupd.
    assert (Hkeep : Limiter (sctx w') = Limiter (sctx w2)
                    /\ QueueSchedulingContexts (sctx w')
                       = QueueSchedulingContexts (sctx w2)).
    { destruct ok.
      - apply updateGangSchedulingContextOnSuccess_inv in Hupd
          as (_ & _ & Hfr & _).
        destruct (Hfr HF) as (? & ? & _). auto.
      - apply updateGangSchedulingContextOnFailure_inv in Hupd
          as (_ & Hfr & _).
        destruct (Hfr HF) as (? & ? & _). auto. }
    destruct Hkeep as [Hl Hq].
    destruct (ok && negb (AllJobsEvicted gctx)).
    + destruct (reserve_limiters_inv gctx wb)
        as (w2' & Hres' & _ & _ & [Hrl Hrq] & _).
      rewrite Hres' in Hres. injection Hres as <-.
      unfold reserved. rewrite Hl, Hq, Hrl, Hsc, Hl1, Hst1.
      split; [reflexivity |].
      intros queue. rewrite Hrq, Hsc, Hq1, Hst1. reflexivity.
    + subst w2. unfold not_reserved. rewrite Hl, Hq, Hsc. auto.
Qed.

(** C7: across any [Schedule] call the map of unfeasible scheduling keys
    only grows, and no entry already present is overwritten; an entry is
    added only when the call fails with [err=null] for a gang of
    cardinality 1 while [skipUnsuccessfulSchedulingKeyCheck] is false, and
    the key added is not the empty key. *)
Theorem Schedule_UnfeasibleSchedulingKeys_grow (gctx : GangSchedulingContext)
    (w w' : World D) (r : Result) :
  SctxFrame E ->
  Schedule E sch gctx w = (r, w') ->
  UnfeasibleSchedulingKeys (sctx w) ⊆ UnfeasibleSchedulingKeys (sctx w')
  /\ (UnfeasibleSchedulingKeys (sctx w') <> UnfeasibleSchedulingKeys (sctx w) ->
      res_ok r = false /\ res_err r = None
      /\ skipUnsuccessfulSchedulingKeyCheck sch = false
      /\ Cardinality gctx = 1
      /\ exists ref key,
           JobSchedulingContexts gctx = [ref]
           /\ (exists sc,
                 key = derived_scheduling_key E sc (Job (jctxs w' ref)))
           /\ key <> EmptySchedulingKey
           /\ UnfeasibleSchedulingKeys (sctx w) !! key = None
           /\ UnfeasibleSchedulingKeys (sctx w')
              = <[key := ref]> (UnfeasibleSchedulingKeys (sctx w))).
Proof.
  intros HF H.
  cut (unfeasible_keys_step E sch gctx (jctxs w')
         (UnfeasibleSchedulingKeys (sctx w))
         (UnfeasibleSchedulingKeys (sctx w'))
       /\ (UnfeasibleSchedulingKeys (sctx w')
             <> UnfeasibleSchedulingKeys (sctx w) ->
           res_ok r = false /\ res_err r = None)).
  { intros [[Heq | (Hskip & ref & key & Hrefs & Hder & Hkey & Hnew & Hins)]
              Hres].
    - rewrite Heq. split; [reflexivity | intros Hne; contradiction].
    - split; [rewrite Hins; apply insert_subseteq, Hnew |].
      intros Hne. destruct (Hres Hne) as [Hok Herr].
      repeat split; try assumption.
      + unfold Cardinality. rewrite Hrefs. reflexivity.
      + exists ref, key. auto. }
  apply Schedule_cases in H
    as [(_ & _ & _ & ->) | [_ [(e & Hadd & _)
                              | (w1 & rb & wb & Hadd & Hout & Hdef)]]].
  - split; [left; reflexivity | intros Hne; contradiction].
  - apply sctx_AddGangSchedulingContext_inv in Hadd as (_ & _ & delta & Hadd).
    apply (AddGangSchedulingContext_frame E HF) in Hadd as (_ & _ & _ & Hk).
    split; [left; exact Hk | intros Hne; contradiction].
  - apply sctx_AddGangSchedulingContext_inv in Hadd as (_ & _ & delta & Hadd).
    apply (AddGangSchedulingContext_frame E HF) in Hadd as (_ & _ & _ & Hk1).
    destruct Hout as [[Hsc _] _]. rewrite <- Hk1, <- Hsc.
    apply Schedule_deferred_inv in Hdef as (Hok & _ & Hdef).
    destruct (res_err rb).
    { destruct Hdef as [_ ->].
      split; [left; reflexivity | intros Hne; contradiction]. }
    destruct Hdef as (w2 & Hres & Hupd).
    assert (Hk2 : UnfeasibleSchedulingKeys (sctx w2)
                  = UnfeasibleSchedulingKeys (sctx wb)).
    { destruct (res_ok rb && negb (AllJobsEvicted gctx)).
      - destruct (reserve_limiters_inv gctx wb)
          as (w2' & Hres' & _ & _ & _ & _ & Hk & _).
        rewrite Hres' in Hres. injection Hres as <-. exact Hk.
      - subst w2. reflexivity. }
    rewrite <- Hk2. rewrite Hok.
    destruct (res_ok rb).
    + apply updateGangSchedulingContextOnSuccess_inv in Hupd
        as (_ & _ & Hfr & _).
      destruct (Hfr HF) as (_ & _ & _ & Hk).
      split; [left; exact Hk | intros Hne; contradiction].
    + apply updateGangSchedulingContextOnFailure_inv in Hupd
        as (_ & Hfr & Herr & _).
      destruct (Hfr HF) as (_ & _ & _ & Hstep).
      split; [exact Hstep |]. intros Hne. split; [reflexivity | auto].
Qed.

(** C1 (amended): for every [Schedule] call that returns [err=null]: when
    the round gate turns the gang away, the call returns [ok=false] and
    changes nothing; otherwise, if [ok=false] the jobs tracked by the
    scheduling context are those tracked before the call plus the jobs of
    this gang, and every job scheduling context of the gang carries the
    returned reason as its [UnschedulableReason]; and if [ok=true] the jobs
    tracked are those tracked before the call plus the jobs of this gang,
    less the jobs of its members that are not successful. *)
Theorem Schedule_tracks_gang (gctx : GangSchedulingContext)
    (w w' : World D) (ok : bool) (reason : string) :
  SctxTracking E -> PlacementKeepsJobs E ->
  Schedule E sch gctx w = ((ok, reason, None), w') ->
  if round_gate_rejects E gctx w then ok = false /\ w' = w
  else
    (ok = false ->
     TrackedJobs (sctx w')
       = TrackedJobs (sctx w) ∪ gang_job_ids gctx (jctxs w)
     /\ forall ref,
          ref ∈ JobSchedulingContexts gctx ->
          UnschedulableReason (jctxs w' ref) = reason)
    /\ (ok = true ->
        TrackedJobs (sctx w')
          = (TrackedJobs (sctx w) ∪ gang_job_ids gctx (jctxs w))
            ∖ unsuccessful_job_ids gctx (jctxs w')).
Proof.
  intros HT Hkeep H.
  apply Schedule_cases in H
    as [(Hev & Hr & Hgate & ->) | [Hpass [(e & _ & He)
                                      | (w1 & rb & wb & Hadd & Hout & Hdef)]]].
  - cbn in Hgate. rewrite andb_true_r in Hgate. subst ok.
    unfold round_gate_rejects. rewrite Hev, <- Hr. cbn. auto.
  - discriminate He.
  - rewrite Hpass.
    apply sctx_AddGangSchedulingContext_inv in Hadd as (Hs1 & _ & delta & Hadd).
    apply (AddGangSchedulingContext_tracks E HT) in Hadd as Ht1.
    destruct Hout as [[Hsc Hjobs] _]. specialize (Hjobs Hkeep).
    apply Schedule_deferred_inv in Hdef as (Hok & Hreason & Hdef).
    cbn [res_ok res_reason fst snd] in Hok, Hreason.
    rewrite <- Hok, <- Hreason in Hdef.
    destruct (res_err rb) eqn:Herr.
    { destruct Hdef as [Hr _]. subst rb. discriminate Herr. }
    destruct Hdef as (w2 & Hres & Hupd). cbn [res_err snd] in Hupd.
    assert (Hw2 : jctxs w2 = jctxs wb
                  /\ TrackedJobs (sctx w2) = TrackedJobs (sctx wb)).
    { destruct (ok && negb (AllJobsEvicted gctx)).
      - destruct (reserve_limiters_inv gctx wb)
          as (w2' & Hres' & Hs & _ & _ & _ & _ & Ht).
        rewrite Hres' in Hres. injection Hres as <-. auto.
      - subst w2. auto. }
    destruct Hw2 as [Hs2 Ht2].
    assert (Hids : gang_job_ids gctx (jctxs w2) = gang_job_ids gctx (jctxs w)).
    { apply gang_job_ids_ext. intros ref. rewrite Hs2, Hjobs, Hs1.
      reflexivity. }
    destruct ok; (split; [intros Hb | intros Hb]; try discriminate Hb).
    + apply updateGangSchedulingContextOnSuccess_inv in Hupd
        as (Hs & _ & _ & Htr).
      rewrite (Htr HT eq_refl), Ht2, Hsc, Ht1, Hs. reflexivity.
    + apply updateGangSchedulingContextOnFailure_inv in Hupd
        as (_ & _ & _ & Hdone).
      destruct (Hdone eq_refl) as [Hs Htr].
      split.
      * rewrite (Htr HT), Ht2, Hsc, Ht1.
        assert (Hids' : gang_job_ids gctx (jctxs w')
                        = gang_job_ids gctx (jctxs w2)).
        { apply gang_job_ids_ext. intros ref. rewrite Hs.
          apply (for_each_jctx_inv
                   (fun jctx => Job jctx = Job (jctxs w2 ref)));
            [intros jctx <- |]; reflexivity. }
        rewrite Hids', Hids.
        generalize (gang_job_ids gctx (jctxs w)) (TrackedJobs (sctx w)).
        clear. intros ids tracked. apply set_eq. intros id.
        rewrite !elem_of_union, elem_of_difference, elem_of_union.
        destruct (decide (id ∈ ids)); tauto.
      * intros ref Hin. rewrite Hs.
        apply (for_each_jctx_post
                 (fun jctx => UnschedulableReason jctx = reason));
          [intros jctx; reflexivity | exact Hin].
Qed.

(** ** The search commits the earliest value of minimal priority *)

Lemma trySchedule_loop_app (gctx : GangSchedulingContext) (total : nat)
    (l1 l2 : list string) :
  forall (i : nat) (bestValue : string) (minMean : float64) (w : World D),
    trySchedule_loop E gctx total (l1 ++ l2) i bestValue minMean w =
    match trySchedule_loop E gctx total l1 i bestValue minMean w with
    | (inl r, w1) => (inl r, w1)
    | (inr (b, m), w1) =>
        trySchedule_loop E gctx total l2 (i + length l1) b m w1
    end.
Proof.
  induction l1 as [|value rest IH]; intros i bestValue minMean w.
  - cbn. rewrite Nat.add_0_r. reflexivity.
  - cbn [app trySchedule_loop length]. unfold mbind, M_bind.
    destruct (trySchedule_iteration E gctx total (S i) bestValue minMean
                value w) as [[r | [b m]] w1].
    + reflexivity.
    + rewrite IH. rewrite Nat.add_succ_r. reflexivity.
Qed.

Lemma trySchedule_iteration_yields_MinPriority (gctx : GangSchedulingContext)
    (total i : nat) (bestValue : string) (minMean : float64)
    (value : string) (w : World D) :
  value <> "" ->
  yields_MinPriority E gctx value w = true ->
  let '((txn, _), w2) := attempt E gctx value w in
  trySchedule_iteration E gctx total i bestValue minMean value w =
    (inl (true, "", None), snd (Txn_Commit txn w2)).
Proof.
  intros Hvalue. rewrite trySchedule_iteration_spec.
  apply String.eqb_neq in Hvalue. rewrite Hvalue.
  unfold yields_MinPriority.
  destruct (attempt E gctx value w) as [[txn r] w2].
  destruct (meanScheduledAtPriorityFromGctx gctx (jctxs w2)) as [mean ok].
  intros H. apply andb_prop in H as [H Hmin].
  apply andb_prop in H as [H Hok]. apply andb_prop in H as [Herr Hrok].
  rewrite Herr, Hrok, Hok, Hmin. reflexivity.
Qed.

(** C5: in the uniformity-label search, if the search reaches a label
    value whose attempt places the gang at a mean scheduled-at-priority
    equal to [MinPriority], then the search returns success having
    committed the transaction of that attempt, and no value earlier in the
    iteration order had such an attempt. *)
Theorem trySchedule_commits_earliest_MinPriority
    (gctx : GangSchedulingContext) (w w1 : World D)
    (pre post : list string) (value : string) (st : string * float64) :
  NodeUniformityLabel gctx <> "" ->
  IndexedNodeLabelValues E (content (nodeDb w)) (NodeUniformityLabel gctx)
    = ((pre ++ value :: post)%list, true) ->
  value <> "" ->
  trySchedule_loop E gctx (length (pre ++ value :: post)%list) pre 0 ""
    (float64_of_int32 0) w = (inr st, w1) ->
  yields_MinPriority E gctx value w1 = true ->
  (let '((txn, _), w2) := attempt E gctx value w1 in
   let w' := snd (Txn_Commit txn w2) in
   trySchedule E gctx w = ((true, "", None), w')
   /\ txns (nodeDb w') !! txn
      = Some {| view := content (nodeDb w'); status := TxnCommitted |})
  /\ forall pre1 pre2 u st' w1',
       pre = (pre1 ++ u :: pre2)%list ->
       u <> "" ->
       trySchedule_loop E gctx (length (pre ++ value :: post)%list) pre1 0 ""
         (float64_of_int32 0) w = (inr st', w1') ->
       yields_MinPriority E gctx u w1' = false.
Proof.
  intros Hlabel Hvalues Hvalue Hpre Hmin. split.
  - pose proof (trySchedule_iteration_yields_MinPriority gctx
                  (length (pre ++ value :: post)%list) (S (0 + length pre))
                  (fst st) (snd st) value w1 Hvalue Hmin) as Hiter.
    destruct (attempt_spec gctx value w1) as (ok & err & v & s & _ & Hatt).
    rewrite Hatt in *. rewrite Txn_Commit_after_txn in *.
    cbn [snd] in *. split.
    + unfold trySchedule. apply String.eqb_neq in Hlabel. rewrite Hlabel.
      rewrite Hvalues. cbn [negb].
      replace (length (pre ++ value :: post) =? 0)%nat with false
        by (rewrite length_app; cbn; symmetry; apply Nat.eqb_neq; lia).
      unfold mbind, M_bind at 1.
      rewrite trySchedule_loop_app, Hpre. destruct st as [b m].
      cbn [trySchedule_loop fst snd] in *. unfold mbind, M_bind at 1.
      rewrite Hiter. reflexivity.
    + cbn [after_txn nodeDb txns content].
      apply list_lookup_middle. reflexivity.
  - intros pre1 pre2 u st' w1' Hsplit Hu Hpre1.
    destruct (yields_MinPriority E gctx u w1') eqn:Hyields; [| reflexivity].
    exfalso. subst pre. rewrite trySchedule_loop_app, Hpre1 in Hpre.
    destruct st' as [b m]. cbn [trySchedule_loop] in Hpre.
    unfold mbind, M_bind at 1 in Hpre.
    pose proof (trySchedule_iteration_yields_MinPriority gctx
                  (length ((pre1 ++ u :: pre2) ++ value :: post)%list)
                  (S (0 + length pre1)) b m u w1' Hu Hyields) as Hiter.
    destruct (attempt E gctx u w1') as [[txn r] w2].
    rewrite Hiter in Hpre. discriminate Hpre.
Qed.

End Facts.

(** ** The properties on the small instance *)

Section Instance.

Import Fixture.

Lemma run_eq {A : Type} (m : M (list node) A) (w : World (list node)) (x : A) :
  fst (m w) = x -> m w = (x, snd (m w)).
Proof. intros <-. destruct (m w); reflexivity. Qed.

Lemma env_frame (round_cap : nat) : SctxFrame (env round_cap).
Proof.
  split.
  - intros sc gctx s r sc'. cbn.
    destruct (QueueSchedulingContexts sc !! Queue gctx);
      intros [= <- <-]; repeat split.
  - intros sc j r sc'. cbn. intros [= <- <-]. repeat split.
  - intros sc js r sc'. cbn. intros [= <- <-]. repeat split.
Qed.

Lemma env_tracking (round_cap : nat) : SctxTracking (env round_cap).
Proof.
  split.
  - intros sc gctx s delta sc'. cbn.
    destruct (QueueSchedulingContexts sc !! Queue gctx);
      intros [= <- <-]. reflexivity.
  - intros sc j delta sc'. cbn. intros [= <- <-]. reflexivity.
  - intros sc js delta sc'. cbn. intros [= <- <-]. reflexivity.
Qed.

Lemma place_many_jobs (refs : list jctx_ref) :
  forall (d d' : list node) (s s' : Store) (ok : bool) (ref : jctx_ref),
    place_many d refs s = (ok, (d', s')) -> Job (s' ref) = Job (s ref).
Proof.
  induction refs as [|r rest IH]; intros d d' s s' ok ref H.
  - injection H as <- <- <-. reflexivity.
  - cbn [place_many] in H.
    destruct (take_slot _ d) as [[n d1]|].
    + apply (IH _ _ _ _ _ ref) in H. rewrite H. unfold store_update.
      destruct (ref =? r)%nat; reflexivity.
    + injection H as <- <- <-. reflexivity.
Qed.

Lemma env_keeps_jobs (round_cap : nat) : PlacementKeepsJobs (env round_cap).
Proof.
  intros d refs s r d' s' H ref. cbn in H.
  destruct (place_many d refs s) as [ok [d1 s1]] eqn:Hplace.
  injection H as <- <- <-. eapply place_many_jobs, Hplace.
Qed.

End Instance.

(** The job [a] alone, with no node to take it. *)
Lemma tryScheduleGang_not_ok_witness :
  fst (tryScheduleGang (Fixture.env 10) (Fixture.gang [0] "" false)
         (Fixture.world0 ["q"] [])) = (false, fit_reason, None).
Proof.
  pose proof (tryScheduleGang_not_ok (Fixture.env 10)
                (Fixture.gang [0] "" false) (Fixture.world0 ["q"] [])
                [] Fixture.store0 eq_refl) as H.
  destruct (tryScheduleGang _ _ _) as [r w']. exact (proj1 H).
Defined.

Lemma Schedule_not_ok_commits_nothing_witness :
  content (nodeDb (snd (Schedule (Fixture.env 10) NewGangScheduler
                          (Fixture.gang [0] "" false)
                          (Fixture.world0 ["q"] []))))
  = [].
Proof.
  exact (proj1 (Schedule_not_ok_commits_nothing (Fixture.env 10)
                  NewGangScheduler (Fixture.gang [0] "" false)
                  (Fixture.world0 ["q"] []) _ fit_reason
                  (run_eq _ _ _ ltac:(vm_compute; reflexivity)))).
Defined.

(** C2, the claim as stated fails: the gang of [a] and [b], where [b] is
    marked to fail, finds no node.  The call returns [ok=false] with the
    reason of the gang, and that reason, not "job does not fit on any
    node", is what [b] carries. *)
Lemma Schedule_ShouldFail_carries_gang_reason :
  let '(r, w') :=
    Schedule (Fixture.env 10) NewGangScheduler (Fixture.gang [0; 1] "" false)
      (Fixture.world0 ["q"] []) in
  r = (false, min_cardinality_reason, None)
  /\ ShouldFail (jctxs w' 1) = true
  /\ UnschedulableReason (jctxs w' 1) = min_cardinality_reason
  /\ min_cardinality_reason <> fit_reason.
Proof. vm_compute. repeat split. discriminate. Qed.

(** The gang of [a] and [b] on a node with two slots. *)
Lemma Schedule_ok_records_ShouldFail_witness :
  UnschedulableReason
    (jctxs (snd (Schedule (Fixture.env 10) NewGangScheduler
                   (Fixture.gang [0; 1] "" false)
                   (Fixture.world0 ["q"] [Fixture.node_in "n1" "A" 2 0]))) 1)
  = fit_reason.
Proof.
  refine (proj1 (Schedule_ok_records_ShouldFail (Fixture.env 10)
                   NewGangScheduler (Fixture.gang [0; 1] "" false)
                   (Fixture.world0 ["q"] [Fixture.node_in "n1" "A" 2 0])
                   _ "" 1 (run_eq _ _ _ _) _ _)).
  - vm_compute. reflexivity.
  - apply list_elem_of_In. cbn. auto.
  - vm_compute. reflexivity.
Defined.

(** C6, the claim as stated fails: the queue of the gang has no
    sub-context, so [AddGangSchedulingContext] returns an error after the
    round gate has set [ok] to true.  The call returns [ok=true] for a gang
    that is not evicted, and no token is reserved. *)
Lemma Schedule_ok_without_reservation :
  let gctx := Fixture.gang [0] "" false in
  let '(r, w') :=
    Schedule (Fixture.env 10) NewGangScheduler gctx
      (Fixture.world0 [] [Fixture.node_in "n1" "A" 1 0]) in
  r = (true, "", Some "no context for queue")
  /\ AllJobsEvicted gctx = false
  /\ reservations (Limiter (sctx w')) = [].
Proof. vm_compute. repeat split. Qed.

Lemma Schedule_reserves_iff_ok_and_new_witness :
  reservations
    (Limiter (sctx (snd (Schedule (Fixture.env 10) NewGangScheduler
                           (Fixture.gang [0] "" false)
                           (Fixture.world0 ["q"]
                              [Fixture.node_in "n1" "A" 1 0])))))
  = [(1000%Z, 1)].
Proof.
  pose proof (Schedule_reserves_iff_ok_and_new (Fixture.env 10)
                NewGangScheduler (Fixture.gang [0] "" false)
                (Fixture.world0 ["q"] [Fixture.node_in "n1" "A" 1 0])
                _ true "" (env_frame 10)
                (run_eq _ _ _ ltac:(vm_compute; reflexivity))) as H.
  cbn [andb negb AllJobsEvicted Fixture.gang] in H.
  destruct H as [H _]. rewrite H. reflexivity.
Defined.

Lemma Schedule_UnfeasibleSchedulingKeys_grow_witness :
  UnfeasibleSchedulingKeys (sctx (Fixture.world0 ["q"] []))
  ⊆ UnfeasibleSchedulingKeys
      (sctx (snd (Schedule (Fixture.env 10) NewGangScheduler
                    (Fixture.gang [0] "" false) (Fixture.world0 ["q"] [])))).
Proof.
  exact (proj1 (Schedule_UnfeasibleSchedulingKeys_grow (Fixture.env 10)
                  NewGangScheduler (Fixture.gang [0] "" false)
                  (Fixture.world0 ["q"] []) _ _ (env_frame 10)
                  (run_eq _ _ _ eq_refl))).
Defined.

(** C1, the claim as stated fails: the round accepts no job, so the round
    gate turns the gang of [a] away.  The call returns [ok=false] with no
    error and leaves the world as it was: no job is tracked, and [a] does
    not carry the returned reason. *)
Lemma Schedule_round_gate_leaves_gang_untracked :
  let w := Fixture.world0 ["q"] [Fixture.node_in "n1" "A" 1 0] in
  let '(r, w') :=
    Schedule (Fixture.env 0) NewGangScheduler (Fixture.gang [0] "" false) w in
  r = (false, "maximum number of jobs scheduled", None)
  /\ w' = w
  /\ (GetId (Job (jctxs w' 0)) ∉ TrackedJobs (sctx w'))
  /\ UnschedulableReason (jctxs w' 0) <> res_reason r.
Proof.
  intros w.
  assert (H : Schedule (Fixture.env 0) NewGangScheduler
                (Fixture.gang [0] "" false) w
              = ((false, "maximum number of jobs scheduled", None), w))
    by reflexivity.
  rewrite H. split; [reflexivity |]. split; [reflexivity |].
  split; [apply not_elem_of_empty | discriminate].
Qed.

Lemma Schedule_tracks_gang_witness :
  let w := Fixture.world0 ["q"] [] in
  let gctx := Fixture.gang [0] "" false in
  TrackedJobs (sctx (snd (Schedule (Fixture.env 10) NewGangScheduler gctx w)))
  = TrackedJobs (sctx w) ∪ gang_job_ids gctx (jctxs w).
Proof.
  intros w gctx.
  pose proof (Schedule_tracks_gang (Fixture.env 10) NewGangScheduler gctx w
                _ false fit_reason (env_tracking 10) (env_keeps_jobs 10)
                (run_eq _ _ _ ltac:(vm_compute; reflexivity))) as H.
  replace (round_gate_rejects (Fixture.env 10) gctx w) with false in H
    by (vm_compute; reflexivity).
  exact (proj1 (proj1 H eq_refl)).
Defined.

(** Two zones: pods land at priority 0 in [A] and at [MinPriority] in
    [B]. *)
Lemma trySchedule_commits_earliest_MinPriority_witness :
  fst (trySchedule (Fixture.env 10) (Fixture.gang [0] "zone" false)
         (Fixture.world0 ["q"]
            [Fixture.node_in "n1" "A" 1 0;
             Fixture.node_in "n2" "B" 1 (-1)]))
  = (true, "", None).
Proof.
  set (gctx := Fixture.gang [0] "zone" false).
  set (w := Fixture.world0 ["q"]
              [Fixture.node_in "n1" "A" 1 0;
               Fixture.node_in "n2" "B" 1 (-1)]).
  destruct (trySchedule_loop (Fixture.env 10) gctx 2 ["A"] 0 ""
              (float64_of_int32 0) w) as [out w1] eqn:Hloop.
  assert (Hout : exists st, out = inr st).
  { apply (f_equal fst) in Hloop. vm_compute in Hloop. subst out. eauto. }
  destruct Hout as [st ->].
  assert (Hw1 : w1 = snd (trySchedule_loop (Fixture.env 10) gctx 2 ["A"] 0 ""
                            (float64_of_int32 0) w))
    by (rewrite Hloop; reflexivity).
  pose proof (trySchedule_commits_earliest_MinPriority (Fixture.env 10) gctx
                w w1 ["A"] [] "B" st
                ltac:(discriminate) eq_refl ltac:(discriminate) Hloop
                ltac:(rewrite Hw1; vm_compute; reflexivity)) as [H _].
  destruct (attempt (Fixture.env 10) gctx "B" w1) as [[txn r] w2].
  destruct H as [H _]. rewrite H. reflexivity.
Defined.

(** ** The scenarios of the spec, run on the small instance *)

Section Scenarios.

Import Fixture.

(** Single-job fit: one job, one node with room. *)
Example scenario_single_job_fit :
  let '(r, w') :=
    Schedule (env 10) NewGangScheduler (gang [0] "" false)
      (world0 ["q"] [node_in "n1" "A" 1 0]) in
  r = (true, "", None)
  /\ TrackedJobs (sctx w') = {["a"]}
  /\ reservations (Limiter (sctx w')) = [(1000%Z, 1)]
  /\ (NodeId <$> PodSchedulingContext (jctxs w' 0)) = Some "n1".
Proof. vm_compute. repeat split. Qed.

(** Single-job no-fit: the key of the job is recorded as unfeasible. *)
Example scenario_single_job_no_fit :
  let '(r, w') :=
    Schedule (env 10) NewGangScheduler (gang [0] "" false)
      (world0 ["q"] []) in
  r = (false, "job does not fit on any node", None)
  /\ UnfeasibleSchedulingKeys (sctx w') !! 7%N = Some 0
  /\ reservations (Limiter (sctx w')) = [].
Proof. vm_compute. repeat split. Qed.

(** Gang-min-cardinality miss: three jobs, two slots; no key is recorded. *)
Example scenario_gang_min_cardinality_miss :
  let '(r, w') :=
    Schedule (env 10) NewGangScheduler (gang [0; 1; 2] "" false)
      (world0 ["q"] [node_in "n1" "A" 2 0]) in
  r = (false, "unable to schedule gang since minimum cardinality not met",
       None)
  /\ UnfeasibleSchedulingKeys (sctx w') = ∅
  /\ content (nodeDb w') = [node_in "n1" "A" 2 0].
Proof. vm_compute. repeat split. Qed.

(** Uniformity label missing from the index. *)
Example scenario_label_not_indexed :
  fst (Schedule (env 10) NewGangScheduler (gang [0] "rack" false)
         (world0 ["q"] [node_in "n1" "A" 1 0]))
  = (false, "uniformity label rack is not indexed", None).
Proof. vm_compute. reflexivity. Qed.

(** Uniformity search picks the best: both zones fit, at mean priority 0
    in [A] and 5 in [B]; the jobs are bound to the node of zone [A]. *)
Example scenario_uniformity_picks_best :
  let '(r, w') :=
    Schedule (env 10) NewGangScheduler (gang [0; 2] "zone" false)
      (world0 ["q"] [node_in "n1" "A" 2 0; node_in "n2" "B" 2 5]) in
  r = (true, "", None)
  /\ (NodeId <$> PodSchedulingContext (jctxs w' 0)) = Some "n1"
  /\ (NodeId <$> PodSchedulingContext (jctxs w' 2)) = Some "n1"
  /\ (NodeSelector (PodRequirements (jctxs w' 0)) ≫= (.!! "zone"))
     = Some "A"
  /\ status <$> txns (nodeDb w') = [TxnAborted; TxnAborted; TxnCommitted].
Proof. vm_compute. repeat split. Qed.

(** Evicted replay: the round gate is not consulted (the round accepts no
    job here) and no token is reserved, even on success. *)
Example scenario_evicted_replay :
  let '(r, w') :=
    Schedule (env 0) NewGangScheduler (gang [0] "" true)
      (world0 ["q"] [node_in "n1" "A" 1 0]) in
  r = (true, "", None) /\ reservations (Limiter (sctx w')) = [].
Proof. vm_compute. repeat split. Qed.

(** A member marked to fail in a gang that is placed: it is recorded as
    failed and evicted from the scheduling context again. *)
Example scenario_member_marked_to_fail :
  let '(r, w') :=
    Schedule (env 10) NewGangScheduler (gang [0; 1] "" false)
      (world0 ["q"] [node_in "n1" "A" 2 0]) in
  r = (true, "", None)
  /\ TrackedJobs (sctx w') = {["a"]}
  /\ UnschedulableReason (jctxs w' 1) = "job does not fit on any node"
  /\ (NodeId <$> PodSchedulingContext (jctxs w' 1)) = Some "".
Proof. vm_compute. repeat split. Qed.

End Scenarios.

End GangSchedulerFacts.

(** * Further properties of the job iterators *)

Module JobIterationMore.

Import JobIteration JobIterationFacts MoreNotions.

(** ** InMemoryJobIterator *)

Lemma InMemoryJobIterator_run_from (js : list (option LegacySchedulerJob)) :
  forall (n k : nat),
    run n (ItInMemory {| i := k; jobs := js |}) =
    (map (fun j => (j, None)) (take n (drop k js))
     ++ replicate (n - (length js - k)) end_marker)%list.
Proof.
  induction n as [|n IH]; intros k; [reflexivity |].
  cbn [run Next].
  destruct (Nat.le_gt_cases (length js) k) as [Hle | Hlt].
  - rewrite InMemoryJobIterator_Next_exhausted by exact Hle.
    rewrite IH. rewrite drop_ge by exact Hle.
    replace (S n - (length js - k)) with (S (n - (length js - k))) by lia.
    rewrite !take_nil. reflexivity.
  - rewrite InMemoryJobIterator_Next_in_range by exact Hlt.
    cbn [i jobs]. rewrite IH.
    destruct (lookup_lt_is_Some_2 js k Hlt) as [x Hx].
    rewrite (drop_S _ _ _ Hx), Hx. cbn [take map default from_option app].
    replace (S n - (length js - k)) with (n - (length js - S k)) by lia.
    reflexivity.
Qed.

(** X1: an InMemoryJobIterator returns the elements of its slice in order,
    each with a nil error, and the end marker on every call after the
    last element. *)
Theorem InMemoryJobIterator_yields_slice
    (js : list (option LegacySchedulerJob)) (n : nat) :
  run n (ItInMemory (NewInMemoryJobIterator js)) =
  (map (fun j => (j, None)) (take n js)
   ++ replicate (n - length js) end_marker)%list.
Proof.
  unfold NewInMemoryJobIterator. rewrite InMemoryJobIterator_run_from.
  rewrite drop_0, Nat.sub_0_r. reflexivity.
Qed.

(** ** MultiJobsIterator *)

Lemma MultiJobsIterator_Next_past_end {I : Type}
    (next : I -> NextResult * I) (its : list I) (i : nat) :
  length its <= i ->
  MultiJobsIterator_Next next its i = (end_marker, i, its).
Proof.
  intros Hle. rewrite MultiJobsIterator_Next_unfold.
  rewrite lookup_ge_None_2 by exact Hle. reflexivity.
Qed.

(** What one call does to the position and to the members. *)
Lemma MultiJobsIterator_Next_spec {I : Type} (next : I -> NextResult * I)
    (its : list I) :
  forall (i i' : nat) (its' : list I) (r : NextResult),
    MultiJobsIterator_Next next its i = (r, i', its') ->
    i <= i' /\ length its' = length its
    /\ take i its' = take i its
    /\ drop (S i') its' = drop (S i') its
    /\ (r = end_marker -> length its <= i')
    /\ (forall j e, r = (j, Some e) -> j = None).
Proof.
  induction its as [|x rest IH]; intros i i' its' r H.
  - injection H as <- <- <-. repeat split; cbn; auto with lia.
    intros j e [=].
  - destruct i as [|k]; cbn [MultiJobsIterator_Next] in H.
    + destruct (next x) as [[[v|] [e|]] x'].
      * injection H as <- <- <-. repeat split; cbn; auto with lia.
        -- intros [=].
        -- intros j e' [= <- _]. reflexivity.
      * injection H as <- <- <-. repeat split; cbn; auto with lia.
        -- intros [=].
        -- intros j e' [=].
      * injection H as <- <- <-. repeat split; cbn; auto with lia.
        -- intros [=].
        -- intros j e' [= <- _]. reflexivity.
      * destruct (MultiJobsIterator_Next next rest 0) as [[r1 n1] rest1]
          eqn:Hrest.
        injection H as <- <- <-.
        destruct (IH _ _ _ _ Hrest) as (_ & Hlen & _ & Hdrop & Hend & Herr).
        repeat split; cbn; auto with lia.
        intros Hr. specialize (Hend Hr). lia.
    + destruct (MultiJobsIterator_Next next rest k) as [[r1 n1] rest1]
        eqn:Hrest.
      injection H as <- <- <-.
      destruct (IH _ _ _ _ Hrest) as (Hle & Hlen & Htake & Hdrop & Hend & Herr).
      repeat split; cbn; auto with lia.
      * f_equal. exact Htake.
      * intros Hr. specialize (Hend Hr). lia.
Qed.

(** X2: one call of [Next] on a chain never returns a job together with
    an error, never moves the position back, keeps the number of members,
    and leaves alone the members before the position and those after the
    new position. *)
Theorem MultiJobsIterator_Next_frame (i : nat) (its : list JobIterator) :
  exists i' its',
    snd (Next (ItMulti i its)) = ItMulti i' its'
    /\ i <= i' /\ length its' = length its
    /\ take i its' = take i its
    /\ drop (S i') its' = drop (S i') its
    /\ forall j e, fst (Next (ItMulti i its)) = (j, Some e) -> j = None.
Proof.
  cbn [Next].
  destruct (MultiJobsIterator_Next Next its i) as [[r i'] its'] eqn:H.
  exists i', its'. split; [reflexivity |].
  destruct (MultiJobsIterator_Next_spec Next its _ _ _ _ H)
    as (Hle & Hlen & Htake & Hdrop & _ & Herr).
  repeat split; auto.
Qed.

Lemma run_exhausted (n i : nat) (its : list JobIterator) :
  length its <= i -> run n (ItMulti i its) = replicate n end_marker.
Proof.
  intros Hle. induction n as [|n IH]; [reflexivity |].
  cbn [run Next]. rewrite MultiJobsIterator_Next_past_end by exact Hle.
  cbn [replicate]. f_equal. exact IH.
Qed.

(** X3: once a chain has returned the end marker it returns the end marker
    on every later call, whatever its members are and do: a chain returns
    the end marker only when its position has passed its last member. *)
Theorem MultiJobsIterator_end_sticky (i : nat) (its : list JobIterator)
    (it' : JobIterator) (n : nat) :
  Next (ItMulti i its) = (end_marker, it') ->
  run n it' = replicate n end_marker.
Proof.
  cbn [Next].
  destruct (MultiJobsIterator_Next Next its i) as [[r i'] its'] eqn:H.
  intros [= -> <-].
  destruct (MultiJobsIterator_Next_spec Next its _ _ _ _ H)
    as (_ & Hlen & _ & _ & Hend & _).
  apply run_exhausted. rewrite Hlen. apply Hend. reflexivity.
Qed.

Lemma MultiJobsIterator_end_sticky_witness :
  run 3 (snd (Next (ItMulti 0 [ItInMemory (NewInMemoryJobIterator []);
                               ItInMemory (NewInMemoryJobIterator [None])])))
  = replicate 3 end_marker.
Proof.
  apply (MultiJobsIterator_end_sticky 0
           [ItInMemory (NewInMemoryJobIterator []);
            ItInMemory (NewInMemoryJobIterator [None])]).
  reflexivity.
Defined.

Lemma chain_in_memory_Next (ms : list (nat * list LegacySchedulerJob)) :
  forall (i i' : nat) (its' : list JobIterator) (r : NextResult),
    MultiJobsIterator_Next Next (map in_memory_at ms) i = (r, i', its') ->
    exists ms',
      its' = map in_memory_at ms'
      /\ match remaining_jobs i ms with
         | [] => r = end_marker /\ remaining_jobs i' ms' = []
         | j :: tl => r = (Some j, None) /\ remaining_jobs i' ms' = tl
         end.
Proof.
  induction ms as [|[k l] ms IH]; intros i i' its' r H.
  - injection H as <- <- <-. exists []. split; [reflexivity |].
    unfold remaining_jobs. rewrite drop_nil. cbn. auto.
  - destruct i as [|i0]; cbn [map MultiJobsIterator_Next] in H.
    + unfold in_memory_at at 1 in H. cbn [Next fst snd] in H.
      destruct (Nat.le_gt_cases (length (map Some l)) k) as [Hle | Hlt].
      * rewrite InMemoryJobIterator_Next_exhausted in H by exact Hle.
        cbn [end_marker] in H.
        destruct (MultiJobsIterator_Next Next (map in_memory_at ms) 0)
          as [[r1 n1] rest1] eqn:Hrest.
        injection H as <- <- <-.
        destruct (IH _ _ _ _ Hrest) as (ms1 & -> & Hrem).
        exists ((k, l) :: ms1). split; [reflexivity |].
        rewrite length_map in Hle.
        unfold remaining_jobs in *. cbn [drop map concat fst snd].
        rewrite drop_ge by exact Hle. cbn [app].
        rewrite drop_0 in Hrem. exact Hrem.
      * rewrite InMemoryJobIterator_Next_in_range in H by exact Hlt.
        cbn [i jobs] in H. rewrite length_map in Hlt.
        destruct (lookup_lt_is_Some_2 l k Hlt) as [j Hj].
        rewrite list_lookup_fmap, Hj in H. cbn in H.
        injection H as <- <- <-.
        exists ((S k, l) :: ms). split; [reflexivity |].
        unfold remaining_jobs. cbn [drop map concat fst snd].
        rewrite (drop_S _ _ _ Hj). cbn [app]. auto.
    + destruct (MultiJobsIterator_Next Next (map in_memory_at ms) i0)
        as [[r1 n1] rest1] eqn:Hrest.
      injection H as <- <- <-.
      destruct (IH _ _ _ _ Hrest) as (ms1 & -> & Hrem).
      exists ((k, l) :: ms1). split; [reflexivity |]. exact Hrem.
Qed.

Lemma chain_in_memory_run (n : nat) :
  forall (i : nat) (ms : list (nat * list LegacySchedulerJob)),
    run n (ItMulti i (map in_memory_at ms)) =
    (map (fun j => (Some j, None)) (take n (remaining_jobs i ms))
     ++ replicate (n - length (remaining_jobs i ms)) end_marker)%list.
Proof.
  induction n as [|n IH]; intros i ms; [reflexivity |].
  cbn [run Next].
  destruct (MultiJobsIterator_Next Next (map in_memory_at ms) i)
    as [[r i'] its'] eqn:H.
  destruct (chain_in_memory_Next ms _ _ _ _ H) as (ms' & -> & Hrem).
  rewrite IH.
  destruct (remaining_jobs i ms) as [|j tl]; destruct Hrem as [-> ->].
  - rewrite !take_nil. cbn [map app length]. rewrite !Nat.sub_0_r.
    reflexivity.
  - cbn [take map app length]. reflexivity.
Qed.

(** X4: a chain of in-memory iterators over non-nil jobs returns the jobs
    of the first slice, then those of the second, and so on to the last,
    and then the end marker on every call: chaining is concatenation. *)
Theorem MultiJobsIterator_in_memory_concat
    (ls : list (list LegacySchedulerJob)) (n : nat) :
  run n (NewMultiJobsIterator
           (map (fun l => ItInMemory (NewInMemoryJobIterator (map Some l)))
              ls)) =
  (map (fun j => (Some j, None)) (take n (concat ls))
   ++ replicate (n - length (concat ls)) end_marker)%list.
Proof.
  pose proof (chain_in_memory_run n 0 (map (fun l => (0, l)) ls)) as H.
  rewrite map_map in H. unfold remaining_jobs in H.
  rewrite drop_0, map_map in H. cbn [fst snd] in H.
  rewrite (map_ext _ id) in H by (intros l; apply drop_0).
  rewrite map_id in H. exact H.
Qed.

(** ** QueuedJobsIterator *)

(** Where the next index falls in its batch of 16. *)
Lemma mod16_succ (i : nat) :
  ((i + 1) mod 16 = 0 /\ S i mod 16 = 0)
  \/ (S i mod 16 = i mod 16 + 1 /\ S i - S i mod 16 = i - i mod 16).
Proof.
  pose proof (Nat.div_mod_eq i 16). pose proof (Nat.div_mod_eq (S i) 16).
  pose proof (Nat.mod_upper_bound i 16).
  pose proof (Nat.mod_upper_bound (S i) 16).
  replace (i + 1) with (S i) by lia.
  assert (S i / 16 = i / 16 \/ S i / 16 = i / 16 + 1) by nia.
  lia.
Qed.

(** A new iterator satisfies the invariant. *)
Lemma queued_inv_new (ctx0 : option error) (queue : string)
    (r : JobRepository) (st0 : QueuedJobs) :
  NewQueuedJobsIterator ctx0 queue r = (Some st0, None) -> queued_inv st0.
Proof.
  unfold NewQueuedJobsIterator.
  destruct (GetQueueJobIds r queue) as [ids [e|]]; [discriminate |].
  intros [= <-]. unfold queued_inv, loader_batch_ok.
  cbn [c capacity buffer it_err ctx closed loader jobIds length].
  split; [reflexivity |]. split; [lia |]. split; [discriminate |].
  split.
  - split; [discriminate | intros [e [=]]].
  - split; [reflexivity |]. intros k Hk. rewrite Nat.Div0.mod_0_l in Hk. lia.
Qed.

(** The batch array after the write of iteration [i]. *)
Lemma batch_after_write (ids : list string) (i : nat) (batch : list string)
    (jobId : string) :
  length batch = 16 ->
  (forall k, k < i mod 16 -> batch !! k = ids !! (i - i mod 16 + k)) ->
  ids !! i = Some jobId ->
  forall k, k < i mod 16 + 1 ->
    <[i mod 16 := jobId]> batch !! k = ids !! (i - i mod 16 + k).
Proof.
  intros Hlen Hbatch Hid k Hk.
  pose proof (Nat.mod_upper_bound i 16 ltac:(lia)) as Hlt.
  pose proof (Nat.Div0.mod_le i 16) as Hle.
  destruct (decide (k = i mod 16)) as [-> | Hne].
  - rewrite list_lookup_insert_eq by lia.
    replace (i - i mod 16 + i mod 16) with i by lia. symmetry. exact Hid.
  - rewrite list_lookup_insert_ne by congruence. apply Hbatch. lia.
Qed.

(** The shapes of a step of the loader. *)
Lemma loader_step_shape (pick : bool) (st st' : QueuedJobs) :
  queuedJobsIteratorLoader_step pick st = Some st' ->
  (forall e, loader st <> Returned e)
  /\ exists ch pc,
       st' = with_loader st ch pc
       /\ ((ch = close (c st) /\ exists e, pc = Returned e)
           \/ ((forall e, pc <> Returned e)
               /\ (ch = c st
                   \/ exists job,
                        ch = {| buffer := buffer (c st) ++ [job];
                                capacity := capacity (c st);
                                closed := closed (c st) |}
                        /\ length (buffer (c st)) < capacity (c st)))).
Proof.
  unfold queuedJobsIteratorLoader_step. intros Hstep.
  destruct (loader st) as [i batch | i batch jobs | e] eqn:Hpc;
    [| | discriminate].
  - split; [discriminate |].
    destruct (jobIds st !! i) as [jobId|].
    + destruct (_ || _).
      * destruct (GetExistingJobsByIds (repo st) _) as [jobs [e|]];
          injection Hstep as <-; eexists _, _; (split; [reflexivity |]).
        -- left. eauto.
        -- right. split; [discriminate | auto].
      * injection Hstep as <-. eexists _, _. split; [reflexivity |].
        right. split; [discriminate | auto].
    + injection Hstep as <-. eexists _, _. split; [reflexivity |].
      left. eauto.
  - split; [discriminate |].
    destruct jobs as [|[job|] jobs].
    + injection Hstep as <-. eexists _, _. split; [reflexivity |].
      right. split; [discriminate | auto].
    + destruct (ctx st) as [e|].
      * destruct ((length (buffer (c st)) <? capacity (c st))%nat && negb pick)
          eqn:Hsend; injection Hstep as <-; eexists _, _;
          (split; [reflexivity |]).
        -- right. split; [discriminate |]. right. exists job.
           split; [reflexivity |].
           apply andb_prop in Hsend as [Hsend _].
           apply Nat.ltb_lt in Hsend. exact Hsend.
        -- left. eauto.
      * destruct (length (buffer (c st)) <? capacity (c st))%nat eqn:Hsend;
          [| discriminate].
        injection Hstep as <-. eexists _, _. split; [reflexivity |].
        right. split; [discriminate |]. right. exists job.
        split; [reflexivity |]. apply Nat.ltb_lt in Hsend. exact Hsend.
    + injection Hstep as <-. eexists _, _. split; [reflexivity |].
      right. split; [discriminate | auto].
Qed.

(** A step of the loader keeps the batch array in step with the ids. *)
Lemma loader_step_batch (pick : bool) (st st' : QueuedJobs) :
  queuedJobsIteratorLoader_step pick st = Some st' ->
  loader_batch_ok st -> loader_batch_ok st'.
Proof.
  unfold queuedJobsIteratorLoader_step, loader_batch_ok. intros Hstep Hbatch.
  destruct (loader st) as [i batch | i batch jobs | e] eqn:Hpc;
    [| | discriminate].
  - destruct Hbatch as [Hlen Hbatch].
    destruct (jobIds st !! i) as [jobId|] eqn:Hid.
    + pose proof (batch_after_write _ i batch jobId Hlen Hbatch Hid) as Hw.
      assert (Hnext : forall k, k < S i mod 16 ->
                <[i mod 16 := jobId]> batch !! k
                = jobIds st !! (S i - S i mod 16 + k)).
      { intros k Hk.
        destruct (mod16_succ i) as [[_ H0] | [H1 H2]]; [lia |].
        rewrite H2. apply Hw. lia. }
      rewrite length_insert, Hlen in Hstep.
      destruct (_ || _).
      * destruct (GetExistingJobsByIds (repo st) _) as [jobs [e|]];
          injection Hstep as <-; cbn [loader with_loader jobIds];
          [exact I |].
        split; [rewrite length_insert; exact Hlen | exact Hnext].
      * injection Hstep as <-. cbn [loader with_loader jobIds].
        split; [rewrite length_insert; exact Hlen | exact Hnext].
    + injection Hstep as <-. exact I.
  - destruct jobs as [|[job|] jobs].
    + injection Hstep as <-. exact Hbatch.
    + destruct (ctx st) as [e|].
      * destruct (_ && _); injection Hstep as <-;
          cbn [loader with_loader jobIds]; [exact Hbatch | exact I].
      * destruct (_ <? _)%nat; [| discriminate].
        injection Hstep as <-. exact Hbatch.
    + injection Hstep as <-. exact Hbatch.
Qed.

(** The invariant is kept by the steps of the loader, of [Next], of the
    error group and by a cancellation. *)
Lemma queued_inv_loader (pick : bool) (st st' : QueuedJobs) :
  queuedJobsIteratorLoader_step pick st = Some st' ->
  queued_inv st -> queued_inv st'.
Proof.
  intros Hstep (Hcap & Hbuf & Herr & Hclosed & Hbatch).
  pose proof (loader_step_batch _ _ _ Hstep Hbatch) as Hbatch'.
  destruct (loader_step_shape _ _ _ Hstep) as (Hrun & ch & pc & -> & Hshape).
  assert (Hnot : closed (c st) = false).
  { destruct (closed (c st)); [| reflexivity].
    destruct (proj1 Hclosed eq_refl) as [e He]. destruct (Hrun e He). }
  unfold queued_inv. cbn [with_loader c it_err ctx loader] in *.
  destruct Hshape as [[-> [e ->]] | [Hpc [-> | (job & -> & Hlt)]]];
    cbn [close capacity buffer closed].
  - repeat split; auto. eauto.
  - repeat split; auto.
    + intros Hc. congruence.
    + intros [e He]. destruct (Hpc e He).
  - repeat split; auto.
    + rewrite length_app. cbn [length]. lia.
    + intros Hc. congruence.
    + intros [e He]. destruct (Hpc e He).
Qed.

(** The shapes of a call of [Next]. *)
Lemma Next_shape (pick : bool) (st st' : QueuedJobs) (r : NextResult) :
  QueuedJobsIterator_Next pick st = Some (r, st') ->
  (exists e, r = (None, Some e) /\ st' = st /\ it_err st = Some e)
  \/ (it_err st = None
      /\ ((exists e, r = (None, Some e) /\ ctx st = Some e
                     /\ st' = {| it_err := Some e; ctx := ctx st; c := c st;
                                 repo := repo st; jobIds := jobIds st;
                                 loader := loader st |})
          \/ (r = end_marker /\ st' = st /\ buffer (c st) = []
              /\ closed (c st) = true)
          \/ exists job rest,
               r = (Some job, None) /\ buffer (c st) = job :: rest
               /\ st' = with_loader st
                          {| buffer := rest; capacity := capacity (c st);
                             closed := closed (c st) |} (loader st))).
Proof.
  unfold QueuedJobsIterator_Next. intros H.
  destruct (it_err st) as [e0|] eqn:He0.
  { injection H as <- <-. left. eauto. }
  right. split; [reflexivity |].
  assert (Hrecv : match buffer (c st) with
                  | job :: rest =>
                      Some ((Some job, None),
                            with_loader st
                              {| buffer := rest; capacity := capacity (c st);
                                 closed := closed (c st) |} (loader st))
                  | [] => if closed (c st) then Some (end_marker, st) else None
                  end = Some (r, st') ->
                  (r = end_marker /\ st' = st /\ buffer (c st) = []
                   /\ closed (c st) = true)
                  \/ exists job rest,
                       r = (Some job, None) /\ buffer (c st) = job :: rest
                       /\ st' = with_loader st
                                  {| buffer := rest;
                                     capacity := capacity (c st);
                                     closed := closed (c st) |} (loader st)).
  { destruct (buffer (c st)) as [|job rest].
    - destruct (closed (c st)); [| discriminate].
      intros [= <- <-]. left. auto.
    - intros [= <- <-]. right. eauto. }
  destruct (ctx st) as [e|]; [| right; exact (Hrecv H)].
  destruct (bool_decide _ && negb pick); [right; exact (Hrecv H) |].
  injection H as <- <-. left. eauto.
Qed.

Lemma queued_inv_Next (pick : bool) (st st' : QueuedJobs) (r : NextResult) :
  QueuedJobsIterator_Next pick st = Some (r, st') ->
  queued_inv st -> queued_inv st'.
Proof.
  intros Hstep Hinv.
  destruct (Next_shape _ _ _ _ Hstep)
    as [(e & _ & -> & _)
       | (He0 & [(e & _ & Hctx & ->)
                | [(_ & -> & _) | (job & rest & _ & Hbuf & ->)]])];
    try exact Hinv.
  - destruct Hinv as (Hcap & Hb & Herr & Hclosed & Hbatch).
    unfold queued_inv, loader_batch_ok in *.
    cbn [it_err ctx c loader jobIds].
    repeat split; auto; try apply Hclosed. intros e' [= <-]. exact Hctx.
  - destruct Hinv as (Hcap & Hb & Herr & Hclosed & Hbatch).
    unfold queued_inv, loader_batch_ok in *.
    cbn [with_loader it_err ctx c loader jobIds capacity buffer closed].
    rewrite Hbuf in Hb. cbn [length] in Hb.
    repeat split; auto with lia; apply Hclosed.
Qed.

Lemma queued_inv_step (st st' : QueuedJobs) :
  queued_step st st' -> queued_inv st -> queued_inv st'.
Proof.
  intros [pick s s' H | s s' H | e s H | pick s r s' H].
  - eapply queued_inv_loader, H.
  - unfold errgroup_step in H.
    destruct (loader s) as [| |[e0|]] eqn:Hpc; try discriminate.
    destruct (ctx s) eqn:Hctx; [discriminate |]. injection H as <-.
    unfold queued_inv, loader_batch_ok. cbn [it_err ctx c loader jobIds].
    rewrite Hpc.
    intros (Hcap & Hbuf & Herr & Hclosed & Hbatch). repeat split; auto;
      try apply Hclosed.
    intros e He. apply Herr in He. congruence.
  - unfold queued_inv, loader_batch_ok. cbn [it_err ctx c loader jobIds].
    intros (Hcap & Hbuf & Herr & Hclosed & Hbatch). repeat split; auto;
      try apply Hclosed.
    intros e0 He. apply Herr in He. congruence.
  - eapply queued_inv_Next, H.
Qed.

Lemma queued_inv_reach (st0 st : QueuedJobs) :
  queued_reach st0 st -> queued_inv st0 -> queued_inv st.
Proof.
  induction 1 as [| st st' _ IH Hstep]; intros H0; [exact H0 |].
  eapply queued_inv_step; eauto.
Qed.

(** X5: in every execution of a queued iterator (steps of the loader and
    of the error group, cancellations, calls of [Next], in any order) the
    channel holds at most 32 jobs, twice the batch size: the loader never
    runs further ahead of the consumer. *)
Theorem QueuedJobsIterator_buffer_bounded (ctx0 : option error)
    (queue : string) (r : JobRepository) (st0 st : QueuedJobs) :
  NewQueuedJobsIterator ctx0 queue r = (Some st0, None) ->
  queued_reach st0 st ->
  length (buffer (c st)) <= 32.
Proof.
  intros Hnew Hreach.
  apply (queued_inv_reach st0 st Hreach (queued_inv_new _ _ _ _ Hnew)).
Qed.

(** X6: in every execution, an error returned by [Next] is the error of
    the context ([ctx.Err()]), and it comes without a job; an error of the
    repository is never what [Next] returns. *)
Theorem QueuedJobsIterator_Next_error_is_ctx_error (ctx0 : option error)
    (queue : string) (r : JobRepository) (st0 st st' : QueuedJobs)
    (pick : bool) (j : option LegacySchedulerJob) (e : error) :
  NewQueuedJobsIterator ctx0 queue r = (Some st0, None) ->
  queued_reach st0 st ->
  QueuedJobsIterator_Next pick st = Some ((j, Some e), st') ->
  ctx st = Some e /\ j = None.
Proof.
  intros Hnew Hreach HNext.
  destruct (queued_inv_reach st0 st Hreach (queued_inv_new _ _ _ _ Hnew))
    as (_ & _ & Herr & _).
  destruct (Next_shape _ _ _ _ HNext)
    as [(e' & [= -> ->] & _ & He)
       | (_ & [(e' & [= -> ->] & Hctx & _)
              | [([=] & _) | (job & rest & [=] & _)]])]; auto.
Qed.

(** X7: in every execution, [Next] returns the end marker only once the
    loader has returned and the channel is drained, and such a call leaves
    the iterator as it was. *)
Theorem QueuedJobsIterator_end_marker_after_loader (ctx0 : option error)
    (queue : string) (r : JobRepository) (st0 st st' : QueuedJobs)
    (pick : bool) :
  NewQueuedJobsIterator ctx0 queue r = (Some st0, None) ->
  queued_reach st0 st ->
  QueuedJobsIterator_Next pick st = Some (end_marker, st') ->
  (exists e, loader st = Returned e) /\ buffer (c st) = [] /\ st' = st.
Proof.
  intros Hnew Hreach HNext.
  destruct (queued_inv_reach st0 st Hreach (queued_inv_new _ _ _ _ Hnew))
    as (_ & _ & _ & Hclosed & _).
  destruct (Next_shape _ _ _ _ HNext)
    as [(e' & [=] & _)
       | (_ & [(e' & [=] & _)
              | [(_ & -> & Hbuf & Hc) | (job & rest & [=] & _)]])].
  split; [apply Hclosed, Hc | auto].
Qed.

(** X8: in every execution, when the loader reaches the last id of a
    batch of 16 or the last id of the queue, at index [i], it asks the
    repository for exactly the ids from the last multiple of 16 up to [i],
    in order; an error of the fetch makes it return that error and close
    the channel. *)
Theorem queuedJobsIteratorLoader_fetches_window (ctx0 : option error)
    (queue : string) (r : JobRepository) (st0 st : QueuedJobs)
    (pick : bool) (i : nat) (batch : list string) (jobId : string) :
  NewQueuedJobsIterator ctx0 queue r = (Some st0, None) ->
  queued_reach st0 st ->
  loader st = AtLoop i batch ->
  jobIds st !! i = Some jobId ->
  (i + 1) mod 16 = 0 \/ i = length (jobIds st) - 1 ->
  queuedJobsIteratorLoader_step pick st =
  let '(jobs, err) :=
    GetExistingJobsByIds (repo st) (batch_window 16 (jobIds st) i) in
  match err with
  | Some e => Some (with_loader st (close (c st)) (Returned (Some e)))
  | None =>
      Some (with_loader st (c st)
              (AtSend i (<[i mod 16 := jobId]> batch) jobs))
  end.
Proof.
  intros Hnew Hreach Hpc Hid Hfetch.
  destruct (queued_inv_reach st0 st Hreach (queued_inv_new _ _ _ _ Hnew))
    as (_ & _ & _ & _ & Hbatch).
  unfold loader_batch_ok in Hbatch. rewrite Hpc in Hbatch.
  destruct Hbatch as [Hlen Hbatch].
  unfold queuedJobsIteratorLoader_step. rewrite Hpc, Hid.
  rewrite length_insert, Hlen.
  replace ((((i + 1) mod 16 =? 0)%nat || (i =? length (jobIds st) - 1)%nat))
    with true.
  2:{ symmetry. apply orb_true_iff.
      destruct Hfetch as [H | H]; [left | right]; apply Nat.eqb_eq; exact H. }
  replace (take (i mod 16 + 1) (<[i mod 16 := jobId]> batch))
    with (batch_window 16 (jobIds st) i); [reflexivity |].
  pose proof (batch_after_write _ i batch jobId Hlen Hbatch Hid) as Hw.
  pose proof (Nat.mod_upper_bound i 16 ltac:(lia)) as Hlt.
  unfold batch_window. apply list_eq. intros k.
  destruct (decide (k < i mod 16 + 1)) as [Hk | Hk].
  - rewrite !lookup_take_lt by exact Hk. rewrite lookup_drop.
    symmetry. apply Hw, Hk.
  - rewrite !lookup_take_ge by lia. reflexivity.
Qed.

Lemma QueuedJobsIterator_buffer_bounded_witness :
  exists st0 st,
    NewQueuedJobsIterator None "q" failing_repo = (Some st0, None)
    /\ queued_reach st0 st
    /\ loader st = Returned (Some "connection refused")
    /\ length (buffer (c st)) <= 32.
Proof.
  eexists _, _. split; [reflexivity |].
  assert (Hreach : queued_reach
            {| it_err := None; ctx := None;
               c := {| buffer := []; capacity := 32; closed := false |};
               repo := failing_repo; jobIds := ["a"];
               loader := AtLoop 0 (replicate 16 "") |}
            {| it_err := None; ctx := None;
               c := {| buffer := []; capacity := 32; closed := true |};
               repo := failing_repo; jobIds := ["a"];
               loader := Returned (Some "connection refused") |}).
  { eapply reach_step; [apply reach_refl |].
    apply (step_loader false). reflexivity. }
  split; [exact Hreach |]. split; [reflexivity |].
  exact (QueuedJobsIterator_buffer_bounded None "q" failing_repo _ _
           eq_refl Hreach).
Defined.

Lemma QueuedJobsIterator_Next_error_is_ctx_error_witness :
  exists st0 st',
    NewQueuedJobsIterator (Some "deadline exceeded") "q" failing_repo
    = (Some st0, None)
    /\ QueuedJobsIterator_Next true st0
       = Some ((None, Some "deadline exceeded"), st')
    /\ ctx st0 = Some "deadline exceeded".
Proof.
  eexists _, _. split; [reflexivity |]. split; [reflexivity |].
  exact (proj1 (QueuedJobsIterator_Next_error_is_ctx_error
                  (Some "deadline exceeded") "q" failing_repo _ _ _ true
                  None "deadline exceeded" eq_refl (reach_refl _) eq_refl)).
Defined.

Lemma QueuedJobsIterator_end_marker_after_loader_witness :
  exists st0 st,
    NewQueuedJobsIterator None "q" failing_repo = (Some st0, None)
    /\ queued_reach st0 st
    /\ QueuedJobsIterator_Next false st = Some (end_marker, st)
    /\ (exists e, loader st = Returned e) /\ buffer (c st) = [].
Proof.
  eexists _, _. split; [reflexivity |].
  assert (Hreach : queued_reach
            {| it_err := None; ctx := None;
               c := {| buffer := []; capacity := 32; closed := false |};
               repo := failing_repo; jobIds := ["a"];
               loader := AtLoop 0 (replicate 16 "") |}
            {| it_err := None; ctx := None;
               c := {| buffer := []; capacity := 32; closed := true |};
               repo := failing_repo; jobIds := ["a"];
               loader := Returned (Some "connection refused") |}).
  { eapply reach_step; [apply reach_refl |].
    apply (step_loader false). reflexivity. }
  split; [exact Hreach |]. split; [reflexivity |].
  destruct (QueuedJobsIterator_end_marker_after_loader None "q" failing_repo
              _ _ _ false eq_refl Hreach eq_refl) as (H1 & H2 & _).
  exact (conj H1 H2).
Defined.

Lemma queuedJobsIteratorLoader_fetches_window_witness :
  exists st0,
    NewQueuedJobsIterator None "q" failing_repo = (Some st0, None)
    /\ queuedJobsIteratorLoader_step false st0
       = Some (with_loader st0 (close (c st0))
                 (Returned (Some "connection refused"))).
Proof.
  eexists. split; [reflexivity |].
  exact (queuedJobsIteratorLoader_fetches_window None "q" failing_repo _ _
           false 0 (replicate 16 "") "a" eq_refl (reach_refl _) eq_refl
           eq_refl (or_intror eq_refl)).
Defined.

End JobIterationMore.


(** * Properties of the in-memory job repository *)

Module InMemoryRepositoryFacts.

Import JobIteration JobIterationFacts JobIterationMore InMemoryRepository.

Section Facts.

Context
  (cmp : LegacySchedulerJob -> LegacySchedulerJob -> Z)
  (sort :
     (LegacySchedulerJob -> LegacySchedulerJob -> bool) ->
     list LegacySchedulerJob -> list LegacySchedulerJob).


(** *** The two maps under the operations *)

Lemma jobsById_sortQueue (repo : InMemoryJobRepository) (queue : string) :
  jobsById (sortQueue cmp sort repo queue) = jobsById repo.
Proof.
  unfold sortQueue.
  destruct (jobsByQueue repo !! queue); reflexivity.
Qed.

Lemma queue_jobs_sortQueue_ne (repo : InMemoryJobRepository)
    (queue q : string) :
  q <> queue -> queue_jobs (sortQueue cmp sort repo queue) q = queue_jobs repo q.
Proof.
  intros Hne. unfold sortQueue, queue_jobs.
  destruct (jobsByQueue repo !! queue); [| reflexivity].
  cbn [jobsByQueue]. rewrite lookup_insert_ne by congruence. reflexivity.
Qed.

Lemma queue_jobs_sortQueue_eq (repo : InMemoryJobRepository)
    (queue : string) :
  queue_jobs (sortQueue cmp sort repo queue) queue = queue_jobs repo queue
  \/ queue_jobs (sortQueue cmp sort repo queue) queue
     = sort (less cmp) (queue_jobs repo queue).
Proof.
  unfold sortQueue, queue_jobs.
  destruct (jobsByQueue repo !! queue) as [l|] eqn:Hl.
  - right. cbn [jobsByQueue]. rewrite lookup_insert_eq. reflexivity.
  - left. rewrite Hl. reflexivity.
Qed.

Lemma queue_jobs_sortQueue_perm (repo : InMemoryJobRepository)
    (queue q : string) :
  sort_permutes sort ->
  queue_jobs (sortQueue cmp sort repo queue) q ≡ₚ queue_jobs repo q.
Proof.
  intros Hperm. destruct (decide (q = queue)) as [-> | Hne].
  - destruct (queue_jobs_sortQueue_eq repo queue) as [-> | ->];
      [reflexivity | apply Hperm].
  - rewrite queue_jobs_sortQueue_ne by exact Hne. reflexivity.
Qed.

Lemma queue_jobs_append_job (repo : InMemoryJobRepository)
    (job : LegacySchedulerJob) (q : string) :
  queue_jobs (append_job repo job) q =
  if decide (GetQueue job = q) then (queue_jobs repo q ++ [job])%list
  else queue_jobs repo q.
Proof.
  unfold append_job, queue_jobs at 1. cbn [jobsByQueue].
  destruct (decide (GetQueue job = q)) as [<- | Hne].
  - rewrite lookup_insert_eq. reflexivity.
  - rewrite lookup_insert_ne by exact Hne. reflexivity.
Qed.

Lemma foldl_sortQueue_jobsById (qs : list string) :
  forall repo, jobsById (foldl (sortQueue cmp sort) repo qs) = jobsById repo.
Proof.
  induction qs as [|q qs IH]; intros repo; [reflexivity |].
  cbn [foldl]. rewrite IH. apply jobsById_sortQueue.
Qed.


Lemma foldl_sortQueue_perm (qs : list string) (q : string) :
  sort_permutes sort ->
  forall repo, queue_jobs (foldl (sortQueue cmp sort) repo qs) q ≡ₚ queue_jobs repo q.
Proof.
  intros Hperm. induction qs as [|q0 qs IH]; intros repo; [reflexivity |].
  cbn [foldl]. rewrite IH. apply queue_jobs_sortQueue_perm, Hperm.
Qed.

Lemma foldl_append_job_queue (jobs : list LegacySchedulerJob) (q : string) :
  forall repo,
    queue_jobs (foldl append_job repo jobs) q =
    (queue_jobs repo q ++ filter (fun j => GetQueue j = q) jobs)%list.
Proof.
  induction jobs as [|job jobs IH]; intros repo.
  - cbn. rewrite app_nil_r. reflexivity.
  - cbn [foldl]. rewrite IH, queue_jobs_append_job, filter_cons.
    destruct (decide (GetQueue job = q)); [| reflexivity].
    rewrite <- app_assoc. reflexivity.
Qed.

Lemma foldl_append_job_jobsById (jobs : list LegacySchedulerJob) :
  forall repo,
    jobsById (foldl append_job repo jobs) =
    foldl (fun m j => <[GetId j := j]> m) (jobsById repo) jobs.
Proof.
  induction jobs as [|job jobs IH]; intros repo; [reflexivity |].
  cbn [foldl]. rewrite IH. reflexivity.
Qed.

Lemma foldl_Enqueue_queue (jobs : list LegacySchedulerJob) (q : string) :
  sort_permutes sort ->
  forall repo,
    queue_jobs (foldl (Enqueue cmp sort) repo jobs) q ≡ₚ
    (queue_jobs repo q ++ filter (fun j => GetQueue j = q) jobs)%list.
Proof.
  intros Hperm. induction jobs as [|job jobs IH]; intros repo.
  - cbn. rewrite app_nil_r. reflexivity.
  - cbn [foldl]. rewrite IH. unfold Enqueue.
    rewrite queue_jobs_sortQueue_perm by exact Hperm.
    rewrite queue_jobs_append_job, filter_cons.
    destruct (decide (GetQueue job = q)); [| reflexivity].
    rewrite <- app_assoc. reflexivity.
Qed.

Lemma foldl_Enqueue_jobsById (jobs : list LegacySchedulerJob) :
  forall repo,
    jobsById (foldl (Enqueue cmp sort) repo jobs) =
    foldl (fun m j => <[GetId j := j]> m) (jobsById repo) jobs.
Proof.
  induction jobs as [|job jobs IH]; intros repo; [reflexivity |].
  cbn [foldl]. rewrite IH. unfold Enqueue.
  rewrite jobsById_sortQueue. reflexivity.
Qed.

Lemma Enqueue_queue_perm (repo : InMemoryJobRepository)
    (job : LegacySchedulerJob) (q : string) :
  sort_permutes sort ->
  queue_jobs (Enqueue cmp sort repo job) q ≡ₚ
  if decide (GetQueue job = q) then job :: queue_jobs repo q
  else queue_jobs repo q.
Proof.
  intros Hperm. unfold Enqueue.
  rewrite queue_jobs_sortQueue_perm by exact Hperm.
  rewrite queue_jobs_append_job.
  destruct (decide (GetQueue job = q)); [| reflexivity].
  symmetry. apply Permutation_cons_append.
Qed.

(** X9: [Enqueue] files the job under its id, replacing a job filed under
    that id before, and adds it to its queue, whose other jobs are kept (in
    some order); the other queues are left as they were. *)
Theorem Enqueue_effect (repo : InMemoryJobRepository)
    (job : LegacySchedulerJob) :
  sort_permutes sort ->
  jobsById (Enqueue cmp sort repo job) = <[GetId job := job]> (jobsById repo)
  /\ queue_jobs (Enqueue cmp sort repo job) (GetQueue job)
     ≡ₚ job :: queue_jobs repo (GetQueue job)
  /\ forall q, q <> GetQueue job ->
       queue_jobs (Enqueue cmp sort repo job) q = queue_jobs repo q.
Proof.
  intros Hperm. unfold Enqueue. split; [| split].
  - rewrite jobsById_sortQueue. reflexivity.
  - rewrite queue_jobs_sortQueue_perm by exact Hperm.
    rewrite queue_jobs_append_job, decide_True by reflexivity.
    symmetry. apply Permutation_cons_append.
  - intros q Hne. rewrite queue_jobs_sortQueue_ne by exact Hne.
    rewrite queue_jobs_append_job, decide_False by congruence. reflexivity.
Qed.

(** X10: [EnqueueMany] leaves the repository as enqueuing the jobs one by
    one does: the same jobs by id, and in every queue the same jobs up to
    order, namely those the queue held followed by the new jobs of that
    queue. *)
Theorem EnqueueMany_as_Enqueue (repo : InMemoryJobRepository)
    (jobs : list LegacySchedulerJob) :
  sort_permutes sort ->
  jobsById (EnqueueMany cmp sort repo jobs) = jobsById (foldl (Enqueue cmp sort) repo jobs)
  /\ forall q,
       queue_jobs (EnqueueMany cmp sort repo jobs) q
       ≡ₚ (queue_jobs repo q ++ filter (fun j => GetQueue j = q) jobs)%list
       /\ queue_jobs (foldl (Enqueue cmp sort) repo jobs) q
          ≡ₚ queue_jobs (EnqueueMany cmp sort repo jobs) q.
Proof.
  intros Hperm. unfold EnqueueMany. split.
  - rewrite foldl_sortQueue_jobsById, foldl_append_job_jobsById,
      foldl_Enqueue_jobsById. reflexivity.
  - intros q.
    assert (H : queue_jobs
                  (foldl (sortQueue cmp sort) (foldl append_job repo jobs)
                     (elements (list_to_set (map GetQueue jobs) : gset string)))
                  q
                ≡ₚ (queue_jobs repo q
                    ++ filter (fun j => GetQueue j = q) jobs)%list).
    { rewrite foldl_sortQueue_perm by exact Hperm.
      rewrite foldl_append_job_queue. reflexivity. }
    split; [exact H |]. rewrite H. apply foldl_Enqueue_queue, Hperm.
Qed.


(** *** Fetching by id *)

Lemma GetExistingJobsByIds_foldl (repo : InMemoryJobRepository)
    (ids : list string) :
  forall acc,
    foldl (fun rv jobId =>
             match jobsById repo !! jobId with
             | Some job => (rv ++ [job])%list
             | None => rv
             end) acc ids
    = (acc ++ omap (fun id => jobsById repo !! id) ids)%list.
Proof.
  induction ids as [|id ids IH]; intros acc.
  - cbn. rewrite app_nil_r. reflexivity.
  - cbn [foldl omap list_omap]. rewrite IH.
    destruct (jobsById repo !! id); [| reflexivity].
    rewrite <- app_assoc. reflexivity.
Qed.

Lemma GetExistingJobsByIds_omap (repo : InMemoryJobRepository)
    (ids : list string) :
  fst (InMemoryJobRepository_GetExistingJobsByIds repo ids)
  = omap (fun id => jobsById repo !! id) ids.
Proof.
  unfold InMemoryJobRepository_GetExistingJobsByIds. cbn [fst].
  rewrite GetExistingJobsByIds_foldl. reflexivity.
Qed.

(** X11: fetching by id in batches and joining the results gives what
    one fetch of all the ids gives. *)
Theorem GetExistingJobsByIds_batches (repo : InMemoryJobRepository)
    (batches : list (list string)) :
  fst (InMemoryJobRepository_GetExistingJobsByIds repo (concat batches))
  = concat (map (fun batch =>
                   fst (InMemoryJobRepository_GetExistingJobsByIds repo batch))
              batches).
Proof.
  rewrite GetExistingJobsByIds_omap.
  induction batches as [|b bs IH]; [reflexivity |].
  cbn [concat map]. rewrite omap_app, IH, GetExistingJobsByIds_omap.
  reflexivity.
Qed.

(** *** What holds of every repository a program builds *)

Lemma ids_match_insert (m : gmap string LegacySchedulerJob)
    (job : LegacySchedulerJob) :
  (forall id j, m !! id = Some j -> GetId j = id) ->
  forall id j, <[GetId job := job]> m !! id = Some j -> GetId j = id.
Proof.
  intros Hm id j. destruct (decide (id = GetId job)) as [-> | Hne].
  - rewrite lookup_insert_eq. intros [= <-]. reflexivity.
  - rewrite lookup_insert_ne by congruence. apply Hm.
Qed.

Lemma ids_match_foldl (jobs : list LegacySchedulerJob) :
  forall m : gmap string LegacySchedulerJob,
    (forall id j, m !! id = Some j -> GetId j = id) ->
    forall id j,
      foldl (fun m j => <[GetId j := j]> m) m jobs !! id = Some j ->
      GetId j = id.
Proof.
  induction jobs as [|job jobs IH]; intros m Hm; [exact Hm |].
  cbn [foldl]. apply IH, ids_match_insert, Hm.
Qed.

(** Every job is filed under its own id. *)
Lemma built_ids_match (repo : InMemoryJobRepository) :
  built cmp sort repo ->
  forall id job, jobsById repo !! id = Some job -> GetId job = id.
Proof.
  induction 1 as [| repo job _ IH | repo jobs _ IH].
  - intros id job. cbn. rewrite lookup_empty. discriminate.
  - unfold Enqueue. rewrite jobsById_sortQueue. cbn [append_job jobsById].
    apply ids_match_insert, IH.
  - unfold EnqueueMany.
    rewrite foldl_sortQueue_jobsById, foldl_append_job_jobsById.
    apply ids_match_foldl, IH.
Qed.

Lemma foldl_insert_is_Some (jobs : list LegacySchedulerJob) :
  forall (m : gmap string LegacySchedulerJob) (id : string),
    is_Some (m !! id) \/ id ∈ map GetId jobs ->
    is_Some (foldl (fun m j => <[GetId j := j]> m) m jobs !! id).
Proof.
  induction jobs as [|job jobs IH]; intros m id H.
  - destruct H as [H | H]; [exact H |]. cbn in H. inversion H.
  - cbn [foldl]. apply IH. cbn [map] in H.
    destruct (decide (id = GetId job)) as [-> | Hne].
    + left. rewrite lookup_insert_eq. eauto.
    + rewrite lookup_insert_ne by congruence.
      destruct H as [H | H]; [left; exact H |].
      apply elem_of_cons in H as [H | H]; [congruence | right; exact H].
Qed.

(** The jobs of a queue belong to it, and their ids are known. *)
Lemma built_queue_members (repo : InMemoryJobRepository) :
  sort_permutes sort ->
  built cmp sort repo ->
  forall queue job,
    job ∈ queue_jobs repo queue ->
    GetQueue job = queue /\ is_Some (jobsById repo !! GetId job).
Proof.
  intros Hperm. induction 1 as [| repo job0 _ IH | repo jobs _ IH];
    intros queue job Hin.
  - unfold queue_jobs in Hin. cbn in Hin. rewrite lookup_empty in Hin.
    cbn in Hin. inversion Hin.
  - rewrite (Enqueue_queue_perm repo job0 queue Hperm) in Hin.
    unfold Enqueue. rewrite jobsById_sortQueue. cbn [append_job jobsById].
    assert (Hold : job ∈ queue_jobs repo queue ->
                   GetQueue job = queue
                   /\ is_Some (<[GetId job0 := job0]> (jobsById repo)
                               !! GetId job)).
    { intros Hj. destruct (IH _ _ Hj) as [Hq Hid]. split; [exact Hq |].
      destruct (decide (GetId job = GetId job0)) as [-> | Hne].
      - rewrite lookup_insert_eq. eauto.
      - rewrite lookup_insert_ne by congruence. exact Hid. }
    destruct (decide (GetQueue job0 = queue)) as [Hq | Hq];
      [| exact (Hold Hin)].
    apply elem_of_cons in Hin as [-> | Hin]; [| exact (Hold Hin)].
    split; [exact Hq |]. rewrite lookup_insert_eq. eauto.
  - unfold EnqueueMany in *.
    rewrite (foldl_sortQueue_perm _ queue Hperm) in Hin.
    rewrite foldl_append_job_queue in Hin.
    rewrite foldl_sortQueue_jobsById, foldl_append_job_jobsById.
    apply elem_of_app in Hin as [Hin | Hin].
    + destruct (IH _ _ Hin) as [Hq Hid]. split; [exact Hq |].
      apply foldl_insert_is_Some. left. exact Hid.
    + apply list_elem_of_filter in Hin as [Hq Hin]. split; [exact Hq |].
      apply foldl_insert_is_Some. right.
      apply list_elem_of_fmap. exists job. auto.
Qed.

Lemma omap_known_ids (m : gmap string LegacySchedulerJob)
    (ids : list string) :
  (forall id j, m !! id = Some j -> GetId j = id) ->
  map GetId (omap (fun id => m !! id) ids)
  = filter (fun id => is_Some (m !! id)) ids.
Proof.
  intros Hm. induction ids as [|id ids IH]; [reflexivity |].
  cbn [omap list_omap]. rewrite filter_cons.
  destruct (m !! id) as [j|] eqn:Hj.
  - rewrite decide_True by eauto. cbn [map]. rewrite IH.
    f_equal. apply Hm, Hj.
  - rewrite decide_False by (intros [? [=]]). exact IH.
Qed.

(** X12: in a repository built with [NewInMemoryJobRepository],
    [Enqueue] and [EnqueueMany], [GetExistingJobsByIds] never fails and
    returns one job for each id it knows, in the order of the ids asked for
    and with that id; the ids it does not know are skipped. *)
Theorem GetExistingJobsByIds_known_ids (repo : InMemoryJobRepository)
    (ids : list string) :
  built cmp sort repo ->
  snd (InMemoryJobRepository_GetExistingJobsByIds repo ids) = None
  /\ map GetId (fst (InMemoryJobRepository_GetExistingJobsByIds repo ids))
     = filter (fun id => is_Some (jobsById repo !! id)) ids.
Proof.
  intros Hb. split; [reflexivity |].
  rewrite GetExistingJobsByIds_omap.
  apply omap_known_ids, built_ids_match, Hb.
Qed.

(** X13: in a repository so built, every id that [GetQueueJobIds] lists
    for a queue is known to [GetExistingJobsByIds]: fetching the listed ids
    returns as many jobs, with those ids in that order. *)
Theorem GetQueueJobIds_all_resolve (repo : InMemoryJobRepository)
    (queue : string) :
  sort_permutes sort ->
  built cmp sort repo ->
  exists ids jobs,
    InMemoryJobRepository_GetQueueJobIds repo queue = (ids, None)
    /\ InMemoryJobRepository_GetExistingJobsByIds repo ids = (jobs, None)
    /\ map GetId jobs = ids.
Proof.
  intros Hperm Hb. eexists _, _. split; [reflexivity |].
  split; [reflexivity |].
  rewrite GetExistingJobsByIds_foldl. cbn [app].
  rewrite omap_known_ids by (apply built_ids_match, Hb).
  pose proof (built_queue_members repo Hperm Hb queue) as Hmem.
  induction (queue_jobs repo queue) as [|j l IH]; [reflexivity |].
  cbn [map]. rewrite filter_cons, decide_True.
  - f_equal. apply IH. intros job Hin. apply Hmem. right. exact Hin.
  - apply (Hmem j). left.
Qed.

(** X14: a job enqueued under the id of another job does not replace it
    in its queue but does so by id: the earlier job stays listed in its
    queue and no fetch returns it any more; a fetch of the id returns the
    later job. *)
Theorem Enqueue_same_id_shadows (repo : InMemoryJobRepository)
    (j1 j2 : LegacySchedulerJob) (ids : list string) :
  sort_permutes sort ->
  built cmp sort repo ->
  GetId j1 = GetId j2 -> j1 <> j2 ->
  j1 ∈ queue_jobs (Enqueue cmp sort (Enqueue cmp sort repo j1) j2)
         (GetQueue j1)
  /\ (j1 ∉ fst (InMemoryJobRepository_GetExistingJobsByIds
                  (Enqueue cmp sort (Enqueue cmp sort repo j1) j2) ids))
  /\ InMemoryJobRepository_GetExistingJobsByIds
       (Enqueue cmp sort (Enqueue cmp sort repo j1) j2) [GetId j1]
     = ([j2], None).
Proof.
  intros Hperm Hb Hid Hne. split; [| split].
  - rewrite (Enqueue_queue_perm _ j2 _ Hperm).
    assert (H1 : j1 ∈ queue_jobs (Enqueue cmp sort repo j1) (GetQueue j1)).
    { rewrite (Enqueue_queue_perm _ j1 _ Hperm).
      rewrite decide_True by reflexivity. left. }
    destruct (decide (GetQueue j2 = GetQueue j1)); [right |]; exact H1.
  - rewrite GetExistingJobsByIds_omap. intros Hin.
    apply list_elem_of_omap in Hin as (id & _ & Hlook).
    pose proof (built_ids_match _
                  (built_Enqueue cmp sort _ j2 (built_Enqueue cmp sort _ j1 Hb))
                  _ _ Hlook) as Hk.
    subst id. unfold Enqueue in Hlook.
    rewrite jobsById_sortQueue in Hlook. cbn [append_job jobsById] in Hlook.
    rewrite Hid, lookup_insert_eq in Hlook. congruence.
  - unfold InMemoryJobRepository_GetExistingJobsByIds, Enqueue at 1.
    rewrite jobsById_sortQueue. cbn [append_job jobsById foldl].
    rewrite Hid, lookup_insert_eq. reflexivity.
Qed.

(** *** Scheduling order *)






Lemma GetJobIterator_run (repo : InMemoryJobRepository) (queue : string)
    (n : nat) :
  run n (fst (GetJobIterator repo queue)) =
  (map (fun j => (Some j, None)) (take n (queue_jobs repo queue))
   ++ replicate (n - length (queue_jobs repo queue)) end_marker)%list.
Proof.
  unfold GetJobIterator, NewInMemoryJobIterator. cbn [fst].
  rewrite InMemoryJobIterator_run_from.
  rewrite drop_0, Nat.sub_0_r, length_map, <- (fmap_take Some), map_map.
  reflexivity.
Qed.


(** X16: after [EnqueueMany] on a new repository the iterator of a queue
    returns exactly the jobs of the input that name this queue, each as
    often as the input holds it, and then the end marker on every call. *)
Theorem EnqueueMany_GetJobIterator (jobs : list LegacySchedulerJob)
    (queue : string) :
  sort_permutes sort ->
  exists l,
    l ≡ₚ filter (fun j => GetQueue j = queue) jobs
    /\ forall n,
         run n (fst (GetJobIterator
                       (EnqueueMany cmp sort NewInMemoryJobRepository jobs)
                       queue)) =
         (map (fun j => (Some j, None)) (take n l)
          ++ replicate (n - length l) end_marker)%list.
Proof.
  intros Hperm. eexists. split; [| apply GetJobIterator_run].
  unfold EnqueueMany. rewrite foldl_sortQueue_perm by exact Hperm.
  rewrite foldl_append_job_queue. unfold queue_jobs at 1. cbn.
  rewrite lookup_empty. reflexivity.
Qed.

End Facts.

(** *** Insertion sort by id is a sort *)

Lemma insert_sorted_perm
    (f : LegacySchedulerJob -> LegacySchedulerJob -> bool)
    (x : LegacySchedulerJob) (l : list LegacySchedulerJob) :
  insert_sorted f x l ≡ₚ x :: l.
Proof.
  induction l as [|y l IH]; [reflexivity |].
  cbn [insert_sorted]. destruct (f y x); [| reflexivity].
  rewrite IH. apply Permutation_swap.
Qed.

Lemma insertion_sort_permutes : sort_permutes insertion_sort.
Proof.
  intros f l. unfold insertion_sort.
  induction l as [|x l IH]; [reflexivity |].
  cbn [foldr]. rewrite insert_sorted_perm, IH. reflexivity.
Qed.







(** *** The properties on a small repository *)

Lemma Enqueue_effect_witness :
  queue_jobs
    (Enqueue compare_by_id insertion_sort
       (Enqueue compare_by_id insertion_sort NewInMemoryJobRepository
          (job_in "q" "b"))
       (job_in "q" "a")) "q"
  ≡ₚ [job_in "q" "a"; job_in "q" "b"].
Proof.
  exact (proj1 (proj2 (Enqueue_effect compare_by_id insertion_sort
                         (Enqueue compare_by_id insertion_sort
                            NewInMemoryJobRepository (job_in "q" "b"))
                         (job_in "q" "a") insertion_sort_permutes))).
Defined.

Lemma EnqueueMany_as_Enqueue_witness :
  jobsById (EnqueueMany compare_by_id insertion_sort NewInMemoryJobRepository
              [job_in "q" "b"; job_in "r" "c"; job_in "q" "a"])
  = jobsById (foldl (Enqueue compare_by_id insertion_sort)
                NewInMemoryJobRepository
                [job_in "q" "b"; job_in "r" "c"; job_in "q" "a"]).
Proof.
  exact (proj1 (EnqueueMany_as_Enqueue compare_by_id insertion_sort
                  NewInMemoryJobRepository
                  [job_in "q" "b"; job_in "r" "c"; job_in "q" "a"]
                  insertion_sort_permutes)).
Defined.

Lemma GetExistingJobsByIds_known_ids_witness :
  map GetId
    (fst (InMemoryJobRepository_GetExistingJobsByIds
            (Enqueue compare_by_id insertion_sort NewInMemoryJobRepository
               (job_in "q" "a"))
            ["x"; "a"; "y"; "a"]))
  = ["a"; "a"].
Proof.
  exact (proj2 (GetExistingJobsByIds_known_ids compare_by_id insertion_sort
                  (Enqueue compare_by_id insertion_sort
                     NewInMemoryJobRepository (job_in "q" "a"))
                  ["x"; "a"; "y"; "a"]
                  (built_Enqueue _ _ _ _ (built_new _ _)))).
Defined.

Lemma GetQueueJobIds_all_resolve_witness :
  exists ids jobs,
    InMemoryJobRepository_GetQueueJobIds
      (EnqueueMany compare_by_id insertion_sort NewInMemoryJobRepository
         [job_in "q" "b"; job_in "r" "c"; job_in "q" "a"]) "q"
    = (ids, None)
    /\ InMemoryJobRepository_GetExistingJobsByIds
         (EnqueueMany compare_by_id insertion_sort NewInMemoryJobRepository
            [job_in "q" "b"; job_in "r" "c"; job_in "q" "a"]) ids
       = (jobs, None)
    /\ map GetId jobs = ids.
Proof.
  exact (GetQueueJobIds_all_resolve compare_by_id insertion_sort
           (EnqueueMany compare_by_id insertion_sort NewInMemoryJobRepository
              [job_in "q" "b"; job_in "r" "c"; job_in "q" "a"]) "q"
           insertion_sort_permutes
           (built_EnqueueMany _ _ _ _ (built_new _ _))).
Defined.

Lemma Enqueue_same_id_shadows_witness :
  job_in "q" "a"
  ∈ queue_jobs
      (Enqueue compare_by_id insertion_sort
         (Enqueue compare_by_id insertion_sort NewInMemoryJobRepository
            (job_in "q" "a"))
         (job_in "r" "a")) "q"
  /\ InMemoryJobRepository_GetExistingJobsByIds
       (Enqueue compare_by_id insertion_sort
          (Enqueue compare_by_id insertion_sort NewInMemoryJobRepository
             (job_in "q" "a"))
          (job_in "r" "a")) ["a"]
     = ([job_in "r" "a"], None).
Proof.
  destruct (Enqueue_same_id_shadows compare_by_id insertion_sort
              NewInMemoryJobRepository (job_in "q" "a") (job_in "r" "a")
              ["a"] insertion_sort_permutes (built_new _ _) eq_refl
              ltac:(discriminate)) as (H1 & _ & H3).
  exact (conj H1 H3).
Defined.


Lemma EnqueueMany_GetJobIterator_witness :
  exists l,
    l ≡ₚ [job_in "q" "b"; job_in "q" "a"]
    /\ forall n,
         run n (fst (GetJobIterator
                       (EnqueueMany compare_by_id insertion_sort
                          NewInMemoryJobRepository
                          [job_in "q" "b"; job_in "r" "c"; job_in "q" "a"])
                       "q")) =
         (map (fun j => (Some j, None)) (take n l)
          ++ replicate (n - length l) end_marker)%list.
Proof.
  exact (EnqueueMany_GetJobIterator compare_by_id insertion_sort
           [job_in "q" "b"; job_in "r" "c"; job_in "q" "a"] "q"
           insertion_sort_permutes).
Defined.

(** The repository on a small input: the queue is kept in order of id. *)
Example InMemoryJobRepository_run :
  let repo :=
    EnqueueMany compare_by_id insertion_sort NewInMemoryJobRepository
      [job_in "q" "b"; job_in "r" "c"; job_in "q" "a"] in
  InMemoryJobRepository_GetQueueJobIds repo "q" = (["a"; "b"], None)
  /\ InMemoryJobRepository_GetQueueJobIds repo "r" = (["c"], None)
  /\ InMemoryJobRepository_GetQueueJobIds repo "s" = ([], None)
  /\ InMemoryJobRepository_GetExistingJobsByIds repo ["c"; "x"; "a"]
     = ([job_in "r" "c"; job_in "q" "a"], None).
Proof. vm_compute. repeat split. Qed.

End InMemoryRepositoryFacts.


(** * Further properties of the gang scheduler *)

Module GangSchedulerMore.

Import GangScheduler MoreNotions GangSchedulerFacts.

(** ** Loops over the job scheduling contexts of a gang *)

(** The loop leaves alone the contexts it does not visit. *)
Lemma for_each_jctx_notin f (refs : list jctx_ref) (s : Store)
    (r : jctx_ref) :
  r ∉ refs -> for_each_jctx f refs s r = s r.
Proof.
  induction refs as [|x refs IH] using rev_ind; intros Hr; [reflexivity |].
  rewrite for_each_jctx_snoc. unfold store_update.
  apply not_elem_of_app in Hr as [Hr Hx].
  destruct (Nat.eqb_spec r x) as [-> | Hne].
  - exfalso. apply Hx. left.
  - apply IH, Hr.
Qed.

(** A context visited twice is changed as by one visit when the change is
    idempotent. *)
Lemma for_each_jctx_idem f (refs : list jctx_ref) (s : Store)
    (r : jctx_ref) :
  (forall jctx, f (f jctx) = f jctx) ->
  r ∈ refs -> for_each_jctx f refs s r = f (s r).
Proof.
  intros Hf. induction refs as [|x refs IH] using rev_ind; intros Hr.
  - inversion Hr.
  - rewrite for_each_jctx_snoc. unfold store_update.
    destruct (Nat.eqb_spec r x) as [-> | Hne].
    + destruct (decide (x ∈ refs)) as [Hin | Hnotin].
      * rewrite IH by exact Hin. apply Hf.
      * rewrite for_each_jctx_notin by exact Hnotin. reflexivity.
    + apply IH. apply elem_of_app in Hr as [Hr | Hr]; [exact Hr |].
      apply list_elem_of_singleton in Hr. contradiction.
Qed.

Section More.

Context {D : Type} (E : Env D) (sch : GangScheduler).

(** ** Transactions opened and closed *)

Lemma all_aborted_since_refl (db : NodeDb D) : all_aborted_since db db.
Proof.
  split; [reflexivity |]. exists []. rewrite app_nil_r. split; constructor.
Qed.

Lemma all_aborted_since_trans (db0 db1 db2 : NodeDb D) :
  all_aborted_since db0 db1 -> all_aborted_since db1 db2 ->
  all_aborted_since db0 db2.
Proof.
  intros (Hc1 & new1 & Ht1 & Hf1) (Hc2 & new2 & Ht2 & Hf2).
  split; [congruence |]. exists (new1 ++ new2)%list.
  split; [rewrite Ht2, Ht1, app_assoc; reflexivity |].
  apply Forall_app. auto.
Qed.

Lemma all_aborted_then_committed (db0 db1 db2 : NodeDb D) :
  all_aborted_since db0 db1 -> committed_last_since db1 db2 ->
  committed_last_since db0 db2.
Proof.
  intros (Hc1 & new1 & Ht1 & Hf1) (ab & t & Ht2 & Hf2 & Hst & Hc2).
  exists (new1 ++ ab)%list, t.
  split; [rewrite Ht2, Ht1, !app_assoc; reflexivity |].
  split; [apply Forall_app; auto | auto].
Qed.

Lemma all_aborted_since_after_txn (w : World D) (s : Store) (v : D) :
  all_aborted_since (nodeDb w)
    (nodeDb (after_txn w s v TxnAborted (content (nodeDb w)))).
Proof.
  split; [reflexivity |]. eexists. split; [reflexivity |].
  repeat constructor.
Qed.

Lemma committed_last_since_after_txn (w : World D) (s : Store) (v : D) :
  committed_last_since (nodeDb w)
    (nodeDb (after_txn w s v TxnCommitted v)).
Proof.
  exists [], {| view := v; status := TxnCommitted |}.
  split; [reflexivity |]. split; [constructor |]. split; reflexivity.
Qed.

(** ** The selector of the uniformity label *)

Lemma add_selector_selects (gctx : GangSchedulingContext)
    (label value : string) (s : Store) :
  selects gctx label value
    (for_each_jctx (add_selector label value) (JobSchedulingContexts gctx) s).
Proof.
  intros ref Hin.
  apply (for_each_jctx_post
           (fun jctx =>
              NodeSelector (PodRequirements jctx) ≫= (.!! label)
              = Some value)); [| exact Hin].
  intros jctx. cbn. apply lookup_insert_eq.
Qed.

Lemma placement_store_PodRequirements (gctx : GangSchedulingContext)
    (ok : bool) (err : option error) (s : Store) (ref : jctx_ref) :
  PodRequirements (placement_store gctx ok err s ref)
  = PodRequirements (s ref).
Proof.
  unfold placement_store. destruct err as [e|]; [reflexivity |].
  destruct ok;
    apply (for_each_jctx_inv
             (fun jctx => PodRequirements jctx = PodRequirements (s ref)));
    try reflexivity; intros jctx <-.
  - destruct (ShouldFail jctx); [| reflexivity].
    unfold clearNodeBindings.
    destruct (PodSchedulingContext jctx); reflexivity.
  - unfold clearNodeBindings.
    destruct (PodSchedulingContext jctx); reflexivity.
Qed.

Lemma placement_store_notin (gctx : GangSchedulingContext)
    (ok : bool) (err : option error) (s : Store) (ref : jctx_ref) :
  ref ∉ JobSchedulingContexts gctx ->
  placement_store gctx ok err s ref = s ref.
Proof.
  intros Hin. unfold placement_store. destruct err as [e|]; [reflexivity |].
  destruct ok; apply for_each_jctx_notin, Hin.
Qed.

(** A placement that succeeded under a selector leaves the selector on
    every job scheduling context of the gang. *)
Lemma placed_with_selects (gctx : GangSchedulingContext) (value : string)
    (d d' : D) (s' : Store) :
  PlacementKeepsRequirements E ->
  placed_with E gctx value d d' s' ->
  selects gctx (NodeUniformityLabel gctx) value s'.
Proof.
  intros Hkeep (s0 & s & Hsel & Hplace & ->) ref Hin.
  rewrite placement_store_PodRequirements.
  rewrite (Hkeep _ _ _ _ _ _ Hplace ref). apply Hsel, Hin.
Qed.

(** ** The uniformity search, attempt by attempt *)

Lemma trySchedule_iteration_trace (gctx : GangSchedulingContext)
    (total i : nat) (bestValue : string) (minMean : float64)
    (value : string) (w w' : World D) (out : Result + string * float64) :
  trySchedule_iteration E gctx total i bestValue minMean value w = (out, w') ->
  (value = "" /\ out = inr (bestValue, minMean) /\ w' = w)
  \/ (value <> ""
      /\ exists ok err v s,
           ScheduleManyWithTxn E (content (nodeDb w))
             (JobSchedulingContexts gctx)
             (for_each_jctx (add_selector (NodeUniformityLabel gctx) value)
                (JobSchedulingContexts gctx) (jctxs w)) = ((ok, err), (v, s))
           /\ ((w' = after_txn w (placement_store gctx ok err s) v TxnAborted
                       (content (nodeDb w))
                /\ match out with
                   | inl r => res_err r <> None
                   | inr (b, _) => b = bestValue \/ b = value
                   end)
               \/ (w' = after_txn w (placement_store gctx ok err s) v
                          TxnCommitted v
                   /\ ok = true /\ err = None
                   /\ out = inl (true, "", None)))).
Proof.
  rewrite trySchedule_iteration_spec.
  destruct (String.eqb_spec value "") as [-> | Hne];
    [intros [= <- <-]; left; auto |].
  destruct (attempt_spec E gctx value w) as (ok & err & v & s & Hplace & Hatt).
  rewrite Hatt. cbn [res_ok res_err fst snd].
  rewrite Txn_Abort_after_txn, Txn_Commit_after_txn. cbn [snd jctxs after_txn].
  intros H. right. split; [exact Hne |].
  exists ok, err, v, s. split; [exact Hplace |].
  destruct err as [e|]; cbn [is_nil negb] in H.
  { injection H as <- <-. left. split; [reflexivity | discriminate]. }
  destruct ok.
  2:{ injection H as <- <-. left. auto. }
  destruct (meanScheduledAtPriorityFromGctx gctx _) as [mean okm].
  destruct okm; cbn [negb] in H.
  2:{ injection H as <- <-. left. auto. }
  destruct (float64_eqb mean _).
  { injection H as <- <-. right. auto. }
  destruct (String.eqb bestValue "" || float64_leb mean minMean).
  2:{ injection H as <- <-. left. auto. }
  destruct (i =? total)%nat; injection H as <- <-; [right | left]; auto.
Qed.

(** What the loop of the search leaves: the scheduling context as it was;
    every transaction it opened closed; and either an error, or a success
    whose last transaction is committed with a placement made under one of
    the values, or no result yet and a best value that is the one it
    started with or one of the values. *)
Lemma trySchedule_loop_trace (gctx : GangSchedulingContext) (total : nat)
    (values : list string) :
  forall (i : nat) (bestValue : string) (minMean : float64)
         (w w' : World D) (out : Result + string * float64),
    trySchedule_loop E gctx total values i bestValue minMean w = (out, w') ->
    sctx w' = sctx w
    /\ (PlacementLocal E ->
        forall ref, ref ∉ JobSchedulingContexts gctx ->
                    jctxs w' ref = jctxs w ref)
    /\ match out with
       | inl r =>
           (res_err r <> None
            /\ all_aborted_since (nodeDb w) (nodeDb w'))
           \/ (r = (true, "", None)
               /\ committed_last_since (nodeDb w) (nodeDb w')
               /\ exists value,
                    value ∈ values /\ value <> ""
                    /\ placed_with E gctx value (content (nodeDb w))
                         (content (nodeDb w')) (jctxs w'))
       | inr (b, _) =>
           all_aborted_since (nodeDb w) (nodeDb w')
           /\ (b = bestValue \/ (b ∈ values /\ b <> ""))
       end.
Proof.
  induction values as [|value rest IH];
    intros i bestValue minMean w w' out Hloop.
  - injection Hloop as <- <-. split; [reflexivity |].
    split; [reflexivity |]. split; [apply all_aborted_since_refl | auto].
  - cbn [trySchedule_loop] in Hloop.
    apply bind_inv in Hloop as (out1 & w1 & Hiter & Hloop).
    apply trySchedule_iteration_trace in Hiter
      as [(-> & -> & ->) | (Hne & ok & err & v & s & Hplace & Hiter)].
    { apply IH in Hloop as (Hsc & Hloc & Hout).
      split; [exact Hsc |]. split; [exact Hloc |].
      destruct out as [r | [b m]].
      - destruct Hout as [Hout | (Hr & Hc & value & Hin & Hv & Hpl)];
          [left; exact Hout | right].
        split; [exact Hr |]. split; [exact Hc |].
        exists value. split; [right; exact Hin | auto].
      - destruct Hout as [Hab [Hb | [Hb Hb']]]; split; auto.
        right. split; [right; exact Hb | exact Hb']. }
    assert (Hlocal : forall st c,
               PlacementLocal E ->
               forall ref, ref ∉ JobSchedulingContexts gctx ->
                 jctxs (after_txn w (placement_store gctx ok err s) v st c) ref
                 = jctxs w ref).
    { intros st c HL ref Hin. cbn [after_txn jctxs].
      rewrite placement_store_notin by exact Hin.
      rewrite (HL _ _ _ _ _ _ Hplace ref Hin).
      apply for_each_jctx_notin, Hin. }
    destruct Hiter as [[-> Hout] | (-> & -> & -> & ->)].
    + pose proof (all_aborted_since_after_txn w
                    (placement_store gctx ok err s) v) as Hab1.
      destruct out1 as [r | [b m]].
      * injection Hloop as <- <-. split; [reflexivity |].
        split; [apply Hlocal |]. left. auto.
      * apply IH in Hloop as (Hsc & Hloc & Hout').
        split; [rewrite Hsc; reflexivity |].
        split.
        { intros HL ref Hin. rewrite (Hloc HL ref Hin).
          apply Hlocal; assumption. }
        destruct out as [r | [b' m']].
        -- destruct Hout' as [[Herr Hab] | (Hr & Hc & value' & Hin & Hv & Hpl)].
           ++ left. split; [exact Herr |].
              eapply all_aborted_since_trans; eassumption.
           ++ right. split; [exact Hr |].
              split; [eapply all_aborted_then_committed; eassumption |].
              exists value'. split; [right; exact Hin |].
              split; [exact Hv | exact Hpl].
        -- destruct Hout' as [Hab Hb].
           split; [eapply all_aborted_since_trans; eassumption |].
           destruct Hb as [-> | [Hb Hb']].
           ++ destruct Hout as [-> | ->]; [left; reflexivity |].
              right. split; [left | exact Hne].
           ++ right. split; [right; exact Hb | exact Hb'].
    + injection Hloop as <- <-. split; [reflexivity |].
      split; [apply Hlocal |]. right. split; [reflexivity |].
      split; [apply committed_last_since_after_txn |].
      exists value. split; [left |]. split; [exact Hne |].
      eexists _, s. split; [apply add_selector_selects |].
      split; [exact Hplace | reflexivity].
Qed.


Lemma tryScheduleGang_trace (gctx : GangSchedulingContext) (w w' : World D)
    (r : Result) :
  tryScheduleGang E gctx w = (r, w') ->
  sctx w' = sctx w
  /\ (PlacementLocal E ->
      forall ref, ref ∉ JobSchedulingContexts gctx ->
                  jctxs w' ref = jctxs w ref)
  /\ ((res_err r <> None /\ all_aborted_since (nodeDb w) (nodeDb w'))
      \/ (res_err r = None /\ res_ok r = false /\ res_reason r <> ""
          /\ all_aborted_since (nodeDb w) (nodeDb w'))
      \/ (r = (true, "", None)
          /\ committed_last_since (nodeDb w) (nodeDb w')
          /\ exists s,
               ScheduleManyWithTxn E (content (nodeDb w))
                 (JobSchedulingContexts gctx) (jctxs w)
               = ((true, None), (content (nodeDb w'), s))
               /\ jctxs w' = placement_store gctx true None s)).
Proof.
  intros Htry.
  destruct (tryScheduleGang_spec E gctx w)
    as (ok & err & v & s & Hplace & Hspec).
  rewrite Hspec in Htry. injection Htry as <- <-.
  cbn [res_ok res_err res_reason fst snd].
  split; [destruct (ok && is_nil err); reflexivity |].
  split.
  { intros HL ref Hin.
    assert (H : placement_store gctx ok err s ref = jctxs w ref).
    { rewrite placement_store_notin by exact Hin.
      apply (HL _ _ _ _ _ _ Hplace ref Hin). }
    destruct (ok && is_nil err); exact H. }
  destruct err as [e|].
  { left. rewrite andb_false_r. split; [discriminate |].
    apply all_aborted_since_after_txn. }
  destruct ok; cbn [andb is_nil].
  - right. right. split; [reflexivity |].
    split; [apply committed_last_since_after_txn |].
    exists s. split; [exact Hplace | reflexivity].
  - right. left. split; [reflexivity |]. split; [reflexivity |].
    split; [| apply all_aborted_since_after_txn].
    cbn [placement_reason].
    destruct (1 <? Cardinality gctx)%nat; discriminate.
Qed.

(** What [trySchedule] leaves: the scheduling context as it was, every
    transaction it opened closed, and an error, or a failure with its
    reason and nothing published, or a success with an empty reason and
    the last transaction committed. *)
Lemma trySchedule_trace (gctx : GangSchedulingContext) (w w' : World D)
    (r : Result) :
  trySchedule E gctx w = (r, w') ->
  sctx w' = sctx w
  /\ (PlacementLocal E ->
      forall ref, ref ∉ JobSchedulingContexts gctx ->
                  jctxs w' ref = jctxs w ref)
  /\ ((res_err r <> None /\ all_aborted_since (nodeDb w) (nodeDb w'))
      \/ (res_err r = None /\ res_ok r = false /\ res_reason r <> ""
          /\ all_aborted_since (nodeDb w) (nodeDb w'))
      \/ (r = (true, "", None)
          /\ committed_last_since (nodeDb w) (nodeDb w')
          /\ (NodeUniformityLabel gctx <> "" ->
              exists value,
                value ∈ fst (IndexedNodeLabelValues E (content (nodeDb w))
                               (NodeUniformityLabel gctx))
                /\ value <> ""
                /\ placed_with E gctx value (content (nodeDb w))
                     (content (nodeDb w')) (jctxs w')))).
Proof.
  unfold trySchedule.
  destruct (String.eqb_spec (NodeUniformityLabel gctx) "") as [Hl | Hl].
  { intros H. apply tryScheduleGang_trace in H as (Hsc & Hloc & Hout).
    split; [exact Hsc |]. split; [exact Hloc |].
    destruct Hout as [Hout | [Hout | (Hr & Hc & _)]]; auto.
    right. right. split; [exact Hr |]. split; [exact Hc |].
    intros Hne. contradiction. }
  destruct (IndexedNodeLabelValues E _ _) as [values ok] eqn:Hvalues.
  cbn [fst].
  assert (Hquiet : forall reason,
             reason <> "" ->
             sctx w = sctx w
             /\ (PlacementLocal E ->
                 forall ref, ref ∉ JobSchedulingContexts gctx ->
                             jctxs w ref = jctxs w ref)
             /\ ((res_err (false, reason, @None error) <> None
                  /\ all_aborted_since (nodeDb w) (nodeDb w))
                 \/ (res_err (false, reason, @None error) = None
                     /\ res_ok (false, reason, @None error) = false
                     /\ res_reason (false, reason, @None error) <> ""
                     /\ all_aborted_since (nodeDb w) (nodeDb w))
                 \/ ((false, reason, @None error) = (true, "", None)
                     /\ committed_last_since (nodeDb w) (nodeDb w)
                     /\ (NodeUniformityLabel gctx <> "" ->
                         exists value,
                           value ∈ values /\ value <> ""
                           /\ placed_with E gctx value (content (nodeDb w))
                                (content (nodeDb w)) (jctxs w))))).
  { intros reason Hreason. split; [reflexivity |]. split; [reflexivity |].
    right. left. split; [reflexivity |]. split; [reflexivity |].
    split; [exact Hreason | apply all_aborted_since_refl]. }
  destruct ok; cbn [negb].
  2:{ intros [= <- <-]. apply Hquiet. discriminate. }
  destruct (length values =? 0)%nat.
  { intros [= <- <-]. apply Hquiet. discriminate. }
  intros H. apply bind_inv in H as (out & w1 & Hloop & H).
  apply trySchedule_loop_trace in Hloop as (Hsc1 & Hloc1 & Hout).
  destruct out as [r1 | [bestValue m]].
  - injection H as <- <-. split; [exact Hsc1 |]. split; [exact Hloc1 |].
    destruct Hout as [Hout | (Hr & Hc & Hv)]; [left; exact Hout |].
    right. right. split; [exact Hr |]. split; [exact Hc |].
    intros _. exact Hv.
  - destruct Hout as [Hab Hbest].
    destruct (String.eqb_spec bestValue "") as [Hb | Hb].
    + injection H as <- <-. split; [exact Hsc1 |]. split; [exact Hloc1 |].
      right. left. split; [reflexivity |]. split; [reflexivity |].
      split; [discriminate | exact Hab].
    + destruct Hbest as [Hbest | [Hin _]]; [congruence |].
      apply bind_inv in H as ([] & w2 & Hsel & H). injection Hsel as <-.
      apply tryScheduleGang_trace in H as (Hsc & Hloc & Hout).
      cbn [sctx nodeDb jctxs snd put_jctxs] in Hsc, Hloc, Hout.
      split; [congruence |].
      split.
      { intros HL ref Href. rewrite (Hloc HL ref Href).
        rewrite for_each_jctx_notin by exact Href. apply Hloc1; assumption. }
      destruct Hout as [[Herr Hab2] | [(Herr & Hok & Hreason & Hab2)
                                      | (Hr & Hc & s & Hplace & Hs)]].
      * left. split; [exact Herr |].
        eapply all_aborted_since_trans; eassumption.
      * right. left. split; [exact Herr |]. split; [exact Hok |].
        split; [exact Hreason |].
        eapply all_aborted_since_trans; eassumption.
      * right. right. split; [exact Hr |].
        split; [eapply all_aborted_then_committed; eassumption |].
        intros _. exists bestValue. split; [exact Hin |].
        split; [exact Hb |].
        destruct Hab as [Hcontent _]. rewrite <- Hcontent.
        eexists _, s. split; [apply add_selector_selects |].
        split; [exact Hplace | exact Hs].
Qed.

(** ** The ways through [Schedule], with the search in sight *)

Lemma Schedule_body (gctx : GangSchedulingContext) (w w' : World D)
    (r : Result) :
  Schedule E sch gctx w = (r, w') ->
  (AllJobsEvicted gctx = false
   /\ r = CheckRoundConstraints E (sctx w) (Queue gctx)
   /\ res_ok r && is_nil (res_err r) = false
   /\ w' = w)
  \/ (exists e, sctx_AddGangSchedulingContext E gctx w = (Some e, w')
                /\ res_err r = Some e)
  \/ exists w1 rb wb,
       sctx_AddGangSchedulingContext E gctx w = (None, w1)
       /\ ((AllJobsEvicted gctx = false
            /\ rb = CheckConstraints E (sctx w1) gctx (jctxs w1)
            /\ res_ok rb && is_nil (res_err rb) = false
            /\ wb = w1)
           \/ trySchedule E gctx w1 = (rb, wb))
       /\ Schedule_deferred E sch gctx true rb wb = (r, w').
Proof.
  unfold Schedule.
  assert (Hgo : forall r0,
             Schedule_after_gate E sch gctx r0 w = (r, w') ->
             (exists e, sctx_AddGangSchedulingContext E gctx w = (Some e, w')
                        /\ res_err r = Some e)
             \/ exists w1 rb wb,
                  sctx_AddGangSchedulingContext E gctx w = (None, w1)
                  /\ ((AllJobsEvicted gctx = false
                       /\ rb = CheckConstraints E (sctx w1) gctx (jctxs w1)
                       /\ res_ok rb && is_nil (res_err rb) = false
                       /\ wb = w1)
                      \/ trySchedule E gctx w1 = (rb, wb))
                  /\ Schedule_deferred E sch gctx true rb wb = (r, w')).
  { intros [[ok0 reason0] err0] H. unfold Schedule_after_gate in H.
    apply bind_inv in H as (err & w1 & Hadd & H).
    destruct err as [e|]; cbn [is_nil negb] in H.
    { injection H as <- <-. left. exists e. auto. }
    right. apply bind_inv in H as (rb & wb & Hbody & H).
    exists w1, rb, wb. split; [exact Hadd |]. split; [| exact H].
    destruct (AllJobsEvicted gctx); cbn [negb] in Hbody.
    - right. exact Hbody.
    - apply bind_inv in Hbody as (sc & w2 & Hget & Hbody).
      injection Hget as <- <-.
      apply bind_inv in Hbody as (s & w2 & Hget & Hbody).
      injection Hget as <- <-.
      destruct (negb (is_nil (res_err (CheckConstraints E (sctx w1) gctx
                                         (jctxs w1))))
                || negb (res_ok (CheckConstraints E (sctx w1) gctx
                                   (jctxs w1)))) eqn:Hcheck.
      + injection Hbody as <- <-. left.
        split; [reflexivity |]. split; [reflexivity |].
        split; [| reflexivity].
        destruct (res_ok _), (res_err _); cbn in *; congruence.
      + right. exact Hbody. }
  destruct (AllJobsEvicted gctx); cbn [negb andb].
  { intros H. right. apply Hgo in H. exact H. }
  intros H. apply bind_inv in H as (sc & w0 & Hget & H).
  injection Hget as <- <-.
  destruct (negb (is_nil (res_err (CheckRoundConstraints E (sctx w)
                                     (Queue gctx))))
            || negb (res_ok (CheckRoundConstraints E (sctx w) (Queue gctx))))
    eqn:Hgate.
  - injection H as <- <-. left. repeat split.
    destruct (res_ok _), (res_err _); cbn in *; congruence.
  - right. apply Hgo in H. exact H.
Qed.

Lemma updateGangSchedulingContextOnFailure_jctxs
    (gctx : GangSchedulingContext) (added : bool) (reason : string)
    (w w' : World D) (err : option error) :
  updateGangSchedulingContextOnFailure E sch gctx added reason w = (err, w') ->
  nodeDb w' = nodeDb w
  /\ (jctxs w' = jctxs w
      \/ jctxs w' =
           for_each_jctx (set_UnschedulableReason reason)
             (JobSchedulingContexts gctx) (jctxs w)).
Proof.
  unfold updateGangSchedulingContextOnFailure. intros H.
  apply bind_inv in H as (err1 & w1 & Hevict & H).
  assert (H1 : jctxs w1 = jctxs w /\ nodeDb w1 = nodeDb w).
  { destruct added.
    - apply bind_inv in Hevict as (s & w0 & Hget & Hevict).
      injection Hget as <- <-.
      apply sctx_EvictGang_inv in Hevict as (Hs1 & Hdb1 & _). auto.
    - injection Hevict as <- <-. auto. }
  destruct H1 as [Hs1 Hdb1].
  destruct err1 as [e1|].
  { injection H as <- <-. auto. }
  apply bind_inv in H as ([] & w2 & Hset & H). injection Hset as <-.
  apply bind_inv in H as (err2 & w3 & Hadd & H).
  apply sctx_AddGangSchedulingContext_inv in Hadd as (Hs3 & Hdb3 & _).
  cbn [jctxs sctx nodeDb snd put_jctxs] in Hs3, Hdb3.
  destruct err2 as [e2|].
  { injection H as <- <-. split; [congruence |]. right. congruence. }
  apply bind_inv in H as ([] & w4 & Hreg & H). injection H as <- <-.
  apply register_unfeasible_key_inv in Hreg as (Hs4 & Hdb4 & _).
  split; [congruence |]. right. congruence.
Qed.

(** The deferred function leaves the node database alone, and the job
    scheduling contexts outside the gang. *)
Lemma Schedule_deferred_frame (gctx : GangSchedulingContext) (rb r : Result)
    (wb w' : World D) :
  Schedule_deferred E sch gctx true rb wb = (r, w') ->
  res_ok r = res_ok rb /\ res_reason r = res_reason rb
  /\ nodeDb w' = nodeDb wb
  /\ forall ref, ref ∉ JobSchedulingContexts gctx ->
                 jctxs w' ref = jctxs wb ref.
Proof.
  intros H. apply Schedule_deferred_inv in H as (Hok & Hreason & H).
  split; [exact Hok |]. split; [exact Hreason |].
  destruct (res_err rb) as [e|].
  { destruct H as [_ ->]. auto. }
  destruct H as (w2 & Hres & Hupd).
  assert (H2 : jctxs w2 = jctxs wb /\ nodeDb w2 = nodeDb wb).
  { destruct (res_ok rb && negb (AllJobsEvicted gctx)).
    - destruct (reserve_limiters_inv gctx wb) as (w2' & Hr & Hs & Hdb & _).
      rewrite Hr in Hres. injection Hres as <-. auto.
    - subst w2. auto. }
  destruct H2 as [Hs2 Hdb2].
  destruct (res_ok rb).
  - apply updateGangSchedulingContextOnSuccess_inv in Hupd as (Hs & Hdb & _).
    split; [congruence |]. intros ref _. congruence.
  - apply updateGangSchedulingContextOnFailure_jctxs in Hupd as (Hdb & Hs).
    split; [congruence |]. intros ref Hin.
    destruct Hs as [-> | ->]; [congruence |].
    rewrite for_each_jctx_notin by exact Hin. congruence.
Qed.


(** ** Transactions of a call *)

(** X17: whatever a [Schedule] call returns, it leaves none of the
    transactions it opened open: either all of them are aborted and the
    published contents are what they were, or the call returns [ok=true],
    the last one is committed, its view is what is published, and all the
    others are aborted. *)
Theorem Schedule_closes_transactions (gctx : GangSchedulingContext)
    (w w' : World D) (r : Result) :
  Schedule E sch gctx w = (r, w') ->
  all_aborted_since (nodeDb w) (nodeDb w')
  \/ (res_ok r = true /\ committed_last_since (nodeDb w) (nodeDb w')).
Proof.
  intros H. apply Schedule_body in H
    as [(_ & _ & _ & ->)
       | [(e & Hadd & _) | (w1 & rb & wb & Hadd & Hbody & Hdef)]].
  - left. apply all_aborted_since_refl.
  - apply sctx_AddGangSchedulingContext_inv in Hadd as (_ & -> & _).
    left. apply all_aborted_since_refl.
  - apply sctx_AddGangSchedulingContext_inv in Hadd as (_ & Hdb1 & _).
    apply Schedule_deferred_frame in Hdef as (Hok & _ & -> & _).
    rewrite <- Hdb1.
    destruct Hbody as [(_ & _ & _ & ->) | Htry].
    { left. apply all_aborted_since_refl. }
    apply trySchedule_trace in Htry as (_ & _ & Hout).
    destruct Hout as [[_ Hab] | [(_ & _ & _ & Hab) | (-> & Hc & _)]]; auto.
Qed.

(** ** The reason and the selector the search leaves *)

(** X18: when [trySchedule] returns no error, its reason is empty
    exactly when [ok] is true; and when [ok] is false the published
    contents of the node database are what they were. *)
Theorem trySchedule_reason (gctx : GangSchedulingContext) (w w' : World D)
    (ok : bool) (reason : string) :
  trySchedule E gctx w = ((ok, reason, None), w') ->
  (ok = true <-> reason = "")
  /\ (ok = false -> content (nodeDb w') = content (nodeDb w)).
Proof.
  intros H. apply trySchedule_trace in H as (_ & _ & Hout).
  cbn [res_ok res_err res_reason fst snd] in Hout.
  destruct Hout as [[Herr _] | [(_ & -> & Hreason & Hab) | ([= -> ->] & _)]].
  - congruence.
  - split; [split; congruence |]. intros _. apply Hab.
  - split; [tauto | discriminate].
Qed.

(** X19: when [trySchedule] succeeds for a gang with a uniformity label,
    there is one non-empty value, among the indexed values of the label,
    that every job scheduling context of the gang selects for the label in
    the end, and the published contents come from a placement of the gang
    that succeeded while all of them selected that value.  The selector is
    still there in the end for any placement that leaves the pod
    requirements alone. *)
Theorem trySchedule_uniform_selector (gctx : GangSchedulingContext)
    (w w' : World D) (reason : string) :
  PlacementKeepsRequirements E ->
  NodeUniformityLabel gctx <> "" ->
  trySchedule E gctx w = ((true, reason, None), w') ->
  exists value,
    value ∈ fst (IndexedNodeLabelValues E (content (nodeDb w))
                   (NodeUniformityLabel gctx))
    /\ value <> ""
    /\ selects gctx (NodeUniformityLabel gctx) value (jctxs w')
    /\ placed_with E gctx value (content (nodeDb w)) (content (nodeDb w'))
         (jctxs w').
Proof.
  intros Hkeep Hlabel H. apply trySchedule_trace in H as (_ & _ & Hout).
  cbn [res_ok res_err res_reason fst snd] in Hout.
  destruct Hout as [[Herr _] | [(_ & Hok & _) | (_ & _ & Hv)]];
    [congruence | discriminate |].
  destruct (Hv Hlabel) as (value & Hin & Hne & Hpl).
  exists value. split; [exact Hin |]. split; [exact Hne |].
  split; [| exact Hpl]. eapply placed_with_selects; eassumption.
Qed.

(** X20: a [Schedule] call changes no job scheduling context outside
    the gang, for any placement that changes only the contexts it is
    handed. *)
Theorem Schedule_leaves_other_jctxs (gctx : GangSchedulingContext)
    (w w' : World D) (r : Result) (ref : jctx_ref) :
  PlacementLocal E ->
  Schedule E sch gctx w = (r, w') ->
  ref ∉ JobSchedulingContexts gctx ->
  jctxs w' ref = jctxs w ref.
Proof.
  intros HL H Href. apply Schedule_body in H
    as [(_ & _ & _ & ->)
       | [(e & Hadd & _) | (w1 & rb & wb & Hadd & Hbody & Hdef)]].
  - reflexivity.
  - apply sctx_AddGangSchedulingContext_inv in Hadd as (-> & _). reflexivity.
  - apply sctx_AddGangSchedulingContext_inv in Hadd as (Hs1 & _).
    apply Schedule_deferred_frame in Hdef as (_ & _ & _ & Hs).
    rewrite (Hs ref Href), <- Hs1.
    destruct Hbody as [(_ & _ & _ & ->) | Htry]; [reflexivity |].
    apply trySchedule_trace in Htry as (_ & Hloc & _). apply Hloc; assumption.
Qed.

(** ** A label without values *)

Lemma trySchedule_loop_skips (gctx : GangSchedulingContext) (total : nat)
    (values : list string) :
  Forall (fun value => value = "") values ->
  forall (i : nat) (bestValue : string) (minMean : float64) (w : World D),
    trySchedule_loop E gctx total values i bestValue minMean w
    = (inr (bestValue, minMean), w).
Proof.
  induction 1 as [| value rest -> _ IH]; intros i bestValue minMean w;
    [reflexivity |].
  cbn [trySchedule_loop]. unfold mbind, M_bind.
  rewrite trySchedule_iteration_spec. cbn [String.eqb]. apply IH.
Qed.

(** X21: for a gang with a uniformity label that is not indexed, or
    that has no value but the empty string, [trySchedule] makes no attempt:
    it returns [ok=false] and no error, with the reason for the case, and
    leaves the job scheduling contexts, the scheduling context and the node
    database untouched. *)
Theorem trySchedule_without_values (gctx : GangSchedulingContext)
    (w : World D) (values : list string) (indexed : bool) :
  NodeUniformityLabel gctx <> "" ->
  IndexedNodeLabelValues E (content (nodeDb w)) (NodeUniformityLabel gctx)
  = (values, indexed) ->
  indexed = false \/ Forall (fun value => value = "") values ->
  trySchedule E gctx w =
  ((false,
    if negb indexed then
      "uniformity label " +:+ NodeUniformityLabel gctx +:+ " is not indexed"
    else if (length values =? 0)%nat then
      "no nodes with uniformity label " +:+ NodeUniformityLabel gctx
    else "at least one job in the gang does not fit on any node",
    None), w).
Proof.
  intros Hlabel Hvalues Hnone. unfold trySchedule.
  apply String.eqb_neq in Hlabel. rewrite Hlabel, Hvalues.
  destruct indexed; cbn [negb]; [| reflexivity].
  destruct Hnone as [Hi | Hall]; [discriminate |].
  destruct (length values =? 0)%nat; [reflexivity |].
  unfold mbind, M_bind. rewrite trySchedule_loop_skips by exact Hall.
  reflexivity.
Qed.


(** ** Gangs whose jobs were all evicted *)

(** X22: for a gang whose jobs were all evicted, [Schedule] does not
    depend on the constraints: with any other round and gang constraints
    it returns the same results and leaves the same state. *)
Theorem Schedule_evicted_ignores_constraints (gctx : GangSchedulingContext)
    (w : World D)
    (checkRound : SchedulingContext -> string -> Result)
    (check : SchedulingContext -> GangSchedulingContext -> Store -> Result) :
  AllJobsEvicted gctx = true ->
  Schedule (with_constraints E checkRound check) sch gctx w
  = Schedule E sch gctx w.
Proof.
  intros Hev. unfold Schedule, Schedule_after_gate. rewrite Hev.
  reflexivity.
Qed.

(** ** Unfeasible scheduling keys *)

Lemma register_unfeasible_key_registers (gctx : GangSchedulingContext)
    (w : World D) (ref : jctx_ref) (key : SchedulingKey) :
  skipUnsuccessfulSchedulingKeyCheck sch = false ->
  JobSchedulingContexts gctx = [ref] ->
  derived_scheduling_key E (sctx w) (Job (jctxs w ref)) = key ->
  key <> EmptySchedulingKey ->
  UnfeasibleSchedulingKeys
    (sctx (snd (register_unfeasible_key E sch gctx w))) !! key
  = Some (default ref (UnfeasibleSchedulingKeys (sctx w) !! key)).
Proof.
  intros Hskip Hrefs Hkey Hne.
  unfold register_unfeasible_key, Cardinality, derived_scheduling_key in *.
  rewrite Hskip, Hrefs. cbn [negb andb length Nat.eqb].
  unfold mbind, mret, M_bind, M_ret, get_jctxs, get_sctx, put_sctx.
  destruct (GetSchedulingKey (Job (jctxs w ref))) as [k ok].
  rewrite Hkey. apply N.eqb_neq in Hne. rewrite Hne. cbn [negb].
  destruct (UnfeasibleSchedulingKeys (sctx w) !! key) as [old|] eqn:Hold.
  - cbn. exact Hold.
  - cbn. apply lookup_insert_eq.
Qed.

Lemma updateGangSchedulingContextOnFailure_registers
    (gctx : GangSchedulingContext) (reason : string) (w w' : World D)
    (ref : jctx_ref) (key : SchedulingKey) :
  SctxFrame E ->
  skipUnsuccessfulSchedulingKeyCheck sch = false ->
  JobSchedulingContexts gctx = [ref] ->
  (forall sc, derived_scheduling_key E sc (Job (jctxs w ref)) = key) ->
  key <> EmptySchedulingKey ->
  updateGangSchedulingContextOnFailure E sch gctx true reason w = (None, w') ->
  UnfeasibleSchedulingKeys (sctx w') !! key
  = Some (default ref (UnfeasibleSchedulingKeys (sctx w) !! key)).
Proof.
  intros HF Hskip Hrefs Hkey Hne H.
  unfold updateGangSchedulingContextOnFailure in H.
  apply bind_inv in H as (err1 & w1 & Hevict & H).
  apply bind_inv in Hevict as (s & w0 & Hget & Hevict).
  injection Hget as <- <-.
  apply sctx_EvictGang_inv in Hevict as (Hs1 & Hdb1 & delta1 & Hevict).
  destruct err1 as [e1|]; [discriminate H |].
  apply bind_inv in H as ([] & w2 & Hset & H). injection Hset as <-.
  apply bind_inv in H as (err2 & w3 & Hadd & H).
  apply sctx_AddGangSchedulingContext_inv in Hadd
    as (Hs3 & Hdb3 & delta3 & Hadd).
  cbn [jctxs sctx nodeDb snd put_jctxs] in Hs3, Hdb3, Hadd.
  destruct err2 as [e2|]; [discriminate H |].
  apply bind_inv in H as ([] & w4 & Hreg & H). injection H as <-.
  pose proof (EvictGang_frame E HF _ _ _ _ Hevict) as (_ & _ & _ & Hk1).
  pose proof (AddGangSchedulingContext_frame E HF _ _ _ _ _ Hadd)
    as (_ & _ & _ & Hk3).
  assert (Hw4 : w4 = snd (register_unfeasible_key E sch gctx w3))
    by (rewrite Hreg; reflexivity).
  rewrite Hw4.
  rewrite (register_unfeasible_key_registers gctx w3 ref key Hskip Hrefs);
    [congruence | | exact Hne].
  rewrite Hs3, Hs1, Hrefs.
  replace (Job (for_each_jctx (set_UnschedulableReason reason) [ref]
                  (jctxs w) ref)) with (Job (jctxs w ref)); [apply Hkey |].
  symmetry.
  apply (for_each_jctx_inv (fun jctx => Job jctx = Job (jctxs w ref)));
    [intros jctx <- |]; reflexivity.
Qed.

(** X23: when a [Schedule] call that got past the round gate returns
    [ok=false] and no error for a gang of one job with a non-empty
    scheduling key, and the check of unsuccessful keys is not skipped, the
    key is in the map of unfeasible keys afterwards: with the job
    scheduling context it had before, or else with the one of this gang. *)
Theorem Schedule_registers_unfeasible_key (gctx : GangSchedulingContext)
    (w w' : World D) (reason : string) (ref : jctx_ref)
    (key : SchedulingKey) :
  SctxFrame E ->
  PlacementKeepsJobs E ->
  skipUnsuccessfulSchedulingKeyCheck sch = false ->
  JobSchedulingContexts gctx = [ref] ->
  (forall sc, derived_scheduling_key E sc (Job (jctxs w ref)) = key) ->
  key <> EmptySchedulingKey ->
  round_gate_rejects E gctx w = false ->
  Schedule E sch gctx w = ((false, reason, None), w') ->
  UnfeasibleSchedulingKeys (sctx w') !! key
  = Some (default ref (UnfeasibleSchedulingKeys (sctx w) !! key)).
Proof.
  intros HF Hjobs Hskip Hrefs Hkey Hne Hgate H.
  apply Schedule_cases in H
    as [(Hev & Hr & _ & _)
       | (_ & [(e & _ & Herr) | (w1 & rb & wb & Hadd & Hout & Hdef)])].
  - unfold round_gate_rejects in Hgate. rewrite Hev, <- Hr in Hgate.
    discriminate Hgate.
  - discriminate Herr.
  - apply sctx_AddGangSchedulingContext_inv in Hadd
      as (Hs1 & Hdb1 & delta & Hadd).
    pose proof (AddGangSchedulingContext_frame E HF _ _ _ _ _ Hadd)
      as (_ & _ & _ & Hk1).
    destruct Hout as [[Hsc Hjob] _].
    apply Schedule_deferred_inv in Hdef as (Hok & Hreason & Hdef).
    cbn [res_ok res_reason res_err fst snd] in Hok, Hreason, Hdef.
    destruct (res_err rb) as [e|] eqn:Herr.
    { destruct Hdef as [Hr _]. rewrite <- Hr in Herr. discriminate Herr. }
    destruct Hdef as (w2 & Hres & Hupd).
    rewrite <- Hok in Hres, Hupd. cbn [andb] in Hres. subst w2.
    rewrite (updateGangSchedulingContextOnFailure_registers gctx
               (res_reason rb) wb w' ref key HF Hskip Hrefs);
      [congruence | | exact Hne | exact Hupd].
    intros sc. rewrite (Hjob Hjobs ref), Hs1. apply Hkey.
Qed.

End More.

(** ** The mean priority of a gang *)

Lemma sum_ScheduledAtPriority_None (s : Store) (refs : list jctx_ref) :
  forall sum,
    sum_ScheduledAtPriority s refs sum = None
    <-> exists ref, ref ∈ refs /\ PodSchedulingContext (s ref) = None.
Proof.
  induction refs as [|r refs IH]; intros sum; cbn [sum_ScheduledAtPriority].
  - split; [discriminate | intros (ref & Hin & _); inversion Hin].
  - destruct (PodSchedulingContext (s r)) as [pctx|] eqn:Hp.
    + rewrite IH. split; intros (ref & Hin & Href).
      * exists ref. split; [right; exact Hin | exact Href].
      * apply elem_of_cons in Hin as [-> | Hin]; [congruence |]. eauto.
    + split; [| reflexivity]. intros _. exists r. split; [left | exact Hp].
Qed.

(** X24: [meanScheduledAtPriorityFromGctx] returns [true] exactly when
    every job scheduling context of the gang has a PodSchedulingContext,
    and it returns the mean 0 with [false]. *)
Theorem meanScheduledAtPriorityFromGctx_ok (gctx : GangSchedulingContext)
    (s : Store) :
  (snd (meanScheduledAtPriorityFromGctx gctx s) = true
   <-> forall ref, ref ∈ JobSchedulingContexts gctx ->
                   is_Some (PodSchedulingContext (s ref)))
  /\ (snd (meanScheduledAtPriorityFromGctx gctx s) = false ->
      fst (meanScheduledAtPriorityFromGctx gctx s) = float64_of_int32 0).
Proof.
  unfold meanScheduledAtPriorityFromGctx.
  destruct (sum_ScheduledAtPriority s (JobSchedulingContexts gctx) 0)
    as [sum|] eqn:Hsum; cbn [fst snd].
  - split; [| discriminate]. split; [| reflexivity].
    intros _ ref Hin.
    destruct (PodSchedulingContext (s ref)) eqn:Hp; [eauto |].
    assert (Hnone : sum_ScheduledAtPriority s (JobSchedulingContexts gctx) 0
                    = None)
      by (apply sum_ScheduledAtPriority_None; eauto).
    congruence.
  - split; [| reflexivity]. split; [discriminate |].
    intros Hall. apply sum_ScheduledAtPriority_None in Hsum
      as (ref & Hin & Href).
    destruct (Hall ref Hin) as [pctx Hp]. congruence.
Qed.

Lemma wrap32_in_range (z : Z) :
  (- 2 ^ 31 <= z < 2 ^ 31)%Z -> wrap32 z = z.
Proof.
  intros Hz. unfold wrap32. rewrite Z.mod_small by lia. lia.
Qed.

Lemma sum_ScheduledAtPriority_exact (s : Store) (bound : Z)
    (refs : list jctx_ref) :
  forall (ps : list Z) (sum a : Z),
    map (fun ref => ScheduledAtPriority <$> PodSchedulingContext (s ref)) refs
    = map Some ps ->
    Forall (fun p => (- bound <= p <= bound)%Z) ps ->
    (- a <= sum <= a)%Z ->
    (a + Z.of_nat (length ps) * bound < 2 ^ 31)%Z ->
    sum_ScheduledAtPriority s refs sum = Some (sum + foldr Z.add 0 ps)%Z.
Proof.
  induction refs as [|r refs IH]; intros ps sum a Hps Hbound Hsum Ha.
  - destruct ps; [| discriminate]. cbn. f_equal. lia.
  - destruct ps as [|p ps]; [discriminate |].
    cbn [map] in Hps. injection Hps as Hp Hps.
    apply Forall_cons in Hbound as [Hpb Hbound].
    cbn [sum_ScheduledAtPriority].
    destruct (PodSchedulingContext (s r)) as [pctx|]; [| discriminate].
    cbn in Hp. injection Hp as <-.
    cbn [length] in Ha.
    assert (0 <= bound)%Z by lia.
    rewrite wrap32_in_range by nia.
    rewrite (IH ps _ (a + bound)%Z Hps Hbound) by nia.
    cbn [foldr]. f_equal. lia.
Qed.

(** X25: when every job scheduling context of the gang has a
    PodSchedulingContext and the priorities are small enough for their sum
    not to leave [int32] (at most [bound] in absolute value, with
    [n * bound < 2^31]), [meanScheduledAtPriorityFromGctx] returns their
    exact sum divided by their number. *)
Theorem meanScheduledAtPriorityFromGctx_exact (gctx : GangSchedulingContext)
    (s : Store) (ps : list Z) (bound : Z) :
  map (fun ref => ScheduledAtPriority <$> PodSchedulingContext (s ref))
    (JobSchedulingContexts gctx) = map Some ps ->
  Forall (fun p => (- bound <= p <= bound)%Z) ps ->
  (Z.of_nat (length ps) * bound < 2 ^ 31)%Z ->
  meanScheduledAtPriorityFromGctx gctx s
  = (float64_quot (foldr Z.add 0%Z ps) (length ps), true).
Proof.
  intros Hps Hbound Hn. unfold meanScheduledAtPriorityFromGctx, Cardinality.
  rewrite (sum_ScheduledAtPriority_exact s bound _ ps 0%Z 0%Z Hps Hbound)
    by lia.
  apply (f_equal length) in Hps. rewrite !length_map in Hps.
  rewrite Hps. reflexivity.
Qed.

(** ** The node selector of a gang *)

(** X26: [addNodeSelectorToGctx] sets the value for the key in the node
    selector of every job scheduling context of the gang, making the map
    when it is nil; it keeps the other entries of the selector and the
    other fields, and leaves alone the job scheduling contexts outside the
    gang, the scheduling context and the node database. *)
Theorem addNodeSelectorToGctx_sets_selector {D : Type}
    (gctx : GangSchedulingContext) (key value : string) (w : World D)
    (ref : jctx_ref) :
  let w' := snd (addNodeSelectorToGctx gctx key value w) in
  sctx w' = sctx w /\ nodeDb w' = nodeDb w
  /\ (ref ∉ JobSchedulingContexts gctx -> jctxs w' ref = jctxs w ref)
  /\ (ref ∈ JobSchedulingContexts gctx ->
      (exists m,
         NodeSelector (PodRequirements (jctxs w' ref)) = Some m
         /\ m !! key = Some value
         /\ forall k, k <> key ->
              m !! k
              = NodeSelector (PodRequirements (jctxs w ref)) ≫= (.!! k))
      /\ Job (jctxs w' ref) = Job (jctxs w ref)
      /\ PodSchedulingContext (jctxs w' ref)
         = PodSchedulingContext (jctxs w ref)
      /\ ShouldFail (jctxs w' ref) = ShouldFail (jctxs w ref)
      /\ UnschedulableReason (jctxs w' ref)
         = UnschedulableReason (jctxs w ref)).
Proof.
  cbn. split; [reflexivity |]. split; [reflexivity |].
  split; [apply for_each_jctx_notin |].
  intros Hin. rewrite for_each_jctx_idem; [| | exact Hin].
  - cbn. split; [| auto].
    eexists. split; [reflexivity |]. split; [apply lookup_insert_eq |].
    intros k Hk. rewrite lookup_insert_ne by congruence.
    destruct (NodeSelector (PodRequirements (jctxs w ref))); cbn;
      [reflexivity | apply lookup_empty].
  - intros jctx. unfold add_selector. cbn. rewrite insert_insert_eq.
    reflexivity.
Qed.

(** ** The properties on the small instance *)

Lemma place_many_requirements (refs : list jctx_ref) :
  forall (d d' : list Fixture.node) (s s' : Store) (ok : bool)
         (ref : jctx_ref),
    Fixture.place_many d refs s = (ok, (d', s')) ->
    PodRequirements (s' ref) = PodRequirements (s ref).
Proof.
  induction refs as [|r rest IH]; intros d d' s s' ok ref H.
  - injection H as <- <- <-. reflexivity.
  - cbn [Fixture.place_many] in H.
    destruct (Fixture.take_slot _ d) as [[n d1]|].
    + apply (IH _ _ _ _ _ ref) in H. rewrite H. unfold store_update.
      destruct (ref =? r)%nat; reflexivity.
    + injection H as <- <- <-. reflexivity.
Qed.

Lemma env_keeps_requirements (round_cap : nat) :
  PlacementKeepsRequirements (Fixture.env round_cap).
Proof.
  intros d refs s r d' s' H ref. cbn in H.
  destruct (Fixture.place_many d refs s) as [ok [d1 s1]] eqn:Hplace.
  injection H as <- <- <-. eapply place_many_requirements, Hplace.
Qed.

Lemma place_many_local (refs : list jctx_ref) :
  forall (d d' : list Fixture.node) (s s' : Store) (ok : bool)
         (ref : jctx_ref),
    Fixture.place_many d refs s = (ok, (d', s')) ->
    ref ∉ refs -> s' ref = s ref.
Proof.
  induction refs as [|r rest IH]; intros d d' s s' ok ref H Href.
  - injection H as <- <- <-. reflexivity.
  - apply not_elem_of_cons in Href as [Hne Href].
    cbn [Fixture.place_many] in H.
    destruct (Fixture.take_slot _ d) as [[n d1]|].
    + apply (IH _ _ _ _ _ ref) in H; [| exact Href].
      rewrite H. unfold store_update.
      destruct (Nat.eqb_spec ref r); [contradiction | reflexivity].
    + injection H as <- <- <-. reflexivity.
Qed.

Lemma env_local (round_cap : nat) : PlacementLocal (Fixture.env round_cap).
Proof.
  intros d refs s r d' s' H ref Href. cbn in H.
  destruct (Fixture.place_many d refs s) as [ok [d1 s1]] eqn:Hplace.
  injection H as <- <- <-. eapply place_many_local; eassumption.
Qed.

(** Two jobs under the label [zone], with room in both zones. *)
Lemma Schedule_closes_transactions_witness :
  let w := Fixture.world0 ["q"]
             [Fixture.node_in "n1" "A" 2 0; Fixture.node_in "n2" "B" 2 5] in
  let gctx := Fixture.gang [0; 2] "zone" false in
  all_aborted_since (nodeDb w)
    (nodeDb (snd (Schedule (Fixture.env 10) NewGangScheduler gctx w)))
  \/ (true = true
      /\ committed_last_since (nodeDb w)
           (nodeDb (snd (Schedule (Fixture.env 10) NewGangScheduler gctx
                           w)))).
Proof.
  intros w gctx.
  exact (Schedule_closes_transactions (Fixture.env 10) NewGangScheduler gctx
           w _ (true, "", None)
           (run_eq _ _ _ ltac:(vm_compute; reflexivity))).
Defined.

Lemma trySchedule_reason_witness :
  let w := Fixture.world0 ["q"] [] in
  let gctx := Fixture.gang [0] "" false in
  (false = true <-> fit_reason = "")
  /\ (false = false ->
      content (nodeDb (snd (trySchedule (Fixture.env 10) gctx w)))
      = content (nodeDb w)).
Proof.
  intros w gctx.
  exact (trySchedule_reason (Fixture.env 10) gctx w _ false fit_reason
           (run_eq _ _ _ ltac:(vm_compute; reflexivity))).
Defined.

Lemma trySchedule_uniform_selector_witness :
  let w := Fixture.world0 ["q"]
             [Fixture.node_in "n1" "A" 2 0; Fixture.node_in "n2" "B" 2 5] in
  let gctx := Fixture.gang [0; 2] "zone" false in
  exists value,
    value ∈ fst (IndexedNodeLabelValues (Fixture.env 10) (content (nodeDb w))
                   "zone")
    /\ value <> ""
    /\ selects gctx "zone" value
         (jctxs (snd (trySchedule (Fixture.env 10) gctx w)))
    /\ placed_with (Fixture.env 10) gctx value (content (nodeDb w))
         (content (nodeDb (snd (trySchedule (Fixture.env 10) gctx w))))
         (jctxs (snd (trySchedule (Fixture.env 10) gctx w))).
Proof.
  intros w gctx.
  exact (trySchedule_uniform_selector (Fixture.env 10) gctx w _ ""
           (env_keeps_requirements 10) ltac:(discriminate)
           (run_eq _ _ _ ltac:(vm_compute; reflexivity))).
Defined.

Lemma Schedule_leaves_other_jctxs_witness :
  let w := Fixture.world0 ["q"] [Fixture.node_in "n1" "A" 2 0] in
  let gctx := Fixture.gang [0; 2] "" false in
  jctxs (snd (Schedule (Fixture.env 10) NewGangScheduler gctx w)) 1
  = jctxs w 1.
Proof.
  intros w gctx.
  refine (Schedule_leaves_other_jctxs (Fixture.env 10) NewGangScheduler gctx
            w _ (true, "", None) 1 (env_local 10)
            (run_eq _ _ _ ltac:(vm_compute; reflexivity)) _).
  cbn. rewrite !elem_of_cons, elem_of_nil. lia.
Defined.

(** The round accepts no job and the constraints refuse every gang; the
    gang was evicted. *)
Lemma Schedule_evicted_ignores_constraints_witness :
  let w := Fixture.world0 ["q"] [Fixture.node_in "n1" "A" 1 0] in
  let gctx := Fixture.gang [0] "" true in
  Schedule
    (with_constraints (Fixture.env 0)
       (fun _ _ => (false, "round is over", None))
       (fun _ _ _ => (false, "gang is too large", None)))
    NewGangScheduler gctx w
  = Schedule (Fixture.env 0) NewGangScheduler gctx w.
Proof.
  intros w gctx.
  exact (Schedule_evicted_ignores_constraints (Fixture.env 0)
           NewGangScheduler gctx w _ _ eq_refl).
Defined.

Lemma meanScheduledAtPriorityFromGctx_exact_witness :
  meanScheduledAtPriorityFromGctx (Fixture.gang [0; 2] "" false)
    (fun ref =>
       Fixture.bind_pod "n1" (if (ref =? 0)%nat then 2 else 5)
         (Fixture.store0 ref))
  = (float64_quot 7 2, true).
Proof.
  refine (meanScheduledAtPriorityFromGctx_exact
            (Fixture.gang [0; 2] "" false)
            (fun ref =>
               Fixture.bind_pod "n1" (if (ref =? 0)%nat then 2 else 5)
                 (Fixture.store0 ref))
            [2; 5]%Z 5%Z eq_refl _ _).
  - repeat constructor; lia.
  - cbn. lia.
Defined.

(** The job [a] alone, with no node to take it; its scheduling key is 7. *)
Lemma Schedule_registers_unfeasible_key_witness :
  let w := Fixture.world0 ["q"] [] in
  let gctx := Fixture.gang [0] "" false in
  UnfeasibleSchedulingKeys
    (sctx (snd (Schedule (Fixture.env 10) NewGangScheduler gctx w))) !! 7%N
  = Some 0.
Proof.
  intros w gctx.
  refine (Schedule_registers_unfeasible_key (Fixture.env 10) NewGangScheduler
            gctx w _ fit_reason 0 7%N (env_frame 10) (env_keeps_jobs 10)
            eq_refl eq_refl (fun sc => eq_refl) _ _
            (run_eq _ _ _ ltac:(vm_compute; reflexivity))).
  - discriminate.
  - vm_compute. reflexivity.
Defined.

Lemma trySchedule_without_values_witness :
  let w := Fixture.world0 ["q"] [Fixture.node_in "n1" "A" 1 0] in
  trySchedule (Fixture.env 10) (Fixture.gang [0] "rack" false) w
  = ((false, "uniformity label rack is not indexed", None), w).
Proof.
  intros w.
  exact (trySchedule_without_values (Fixture.env 10)
           (Fixture.gang [0] "rack" false) w [] false
           ltac:(discriminate) eq_refl (or_introl eq_refl)).
Defined.

(** The sum of the priorities is made in [int32]: two jobs at priority
    [2^30] have a negative mean. *)
Example meanScheduledAtPriorityFromGctx_overflow :
  meanScheduledAtPriorityFromGctx (Fixture.gang [0; 2] "" false)
    (fun ref => Fixture.bind_pod "n1" (2 ^ 30) (Fixture.store0 ref))
  = (float64_quot (- 2 ^ 31) 2, true).
Proof. reflexivity. Qed.

End GangSchedulerMore.
